(** * East Asian monsoon toolkit: a shallow embedding of the index routines

    The Python sources under [src/] are embedded module by module:

    - [Detector]: the threshold edge/peak detection shared by
      [kitoh_uchiyama] and [wang_linho] (numpy masked arrays);
    - [LiZhang]: Condition A of [li_zhang] (sustained threshold);
    - [Reducer]: region selection and the choice of weights in
      [wang_fan], [yim_precip] and [yim_vort];
    - [Gao]: [area_mean] and [gao_onset] with Python's name resolution;
    - [Smoother]: the harmonic smoother ([smooth_data] and the inlined
      copies in [kitoh_uchiyama] and [wang_linho]).

    Number models.  Data compared against a threshold are IEEE binary64
    values ([float], with NaN and the comparisons of the hardware).  Grid
    coordinates are rationals ([Q]).  The spectral smoother is stated over
    the real numbers ([R]): it is the exact-arithmetic reading of the
    float64 FFT. *)

From Stdlib Require Import String Ascii.
From Stdlib Require Import List ZArith Lia Bool Floats QArith Qround Qabs.
From Stdlib Require Import Reals Psatz.
Import ListNotations.

Set Warnings "-inexact-float".

(** ** Python exceptions and results *)

Inductive exn : Type :=
| NameError (name : string)
| KeyError (key : string)
| AttributeError (attr : string)
| IndexError
| ValueError
| TypeError.

Inductive result (A : Type) : Type :=
| Return (a : A)
| Raise (e : exn).
Arguments Return {A} a.
Arguments Raise {A} e.

Definition bind {A B : Type} (m : result A) (k : A -> result B) : result B :=
  match m with
  | Return a => k a
  | Raise e => Raise e
  end.

Notation "x <- m ;; k" := (bind m (fun x => k))
  (at level 61, m at next level, right associativity).

(** A float64 cell that holds a whole number (a pentad, a step index) or
    NaN.  The routines only store small integers in such cells, so the
    integer is kept exactly. *)
Inductive num : Type :=
| NaN
| Num (z : Z).

Definition num_sub (a b : num) : num :=
  match a, b with
  | Num x, Num y => Num (x - y)
  | _, _ => NaN
  end.

Definition num_eqb (a b : num) : bool :=
  match a, b with
  | Num x, Num y => Z.eqb x y
  | _, _ => false          (* NaN compares unequal to everything *)
  end.

(** [xr.DataArray.where(cond)]: keep the value where [cond], NaN elsewhere. *)
Definition where_ (cond : bool) (v : num) : num := if cond then v else NaN.

(** ** Threshold edge detector ([kitoh_uchiyama], [wang_linho]) *)

Module Detector.

(** [npi.values] / [rain_rel.values]: a C-ordered 3-d float64 array, axis 0
    outermost. *)
Definition ndarray3 := list (list (list float)).

Record DataArray : Type := mkDataArray {
  dims : list string;
  values : ndarray3
}.

Definition shape (v : ndarray3) : nat * nat * nat :=
  (length v, length (hd [] v), length (hd [] (hd [] v))).

Definition item (v : ndarray3) (t i j : nat) : float :=
  nth j (nth i (nth t v []) []) nan.

Fixpoint index_of (name : string) (l : list string) : option nat :=
  match l with
  | [] => None
  | d :: r => if String.eqb d name then Some 0%nat
              else option_map S (index_of name r)
  end.

(** [len(x[name])]: the size of the dimension called [name]. *)
Definition axis_len (x : DataArray) (name : string) : result nat :=
  match index_of name (dims x) with
  | Some k => let '(n0, n1, n2) := shape (values x) in
              Return (nth k [n0; n1; n2] 0%nat)
  | None => Raise (KeyError name)
  end.

(** A masked array: the data and, cell by cell, whether it is masked. *)
Record masked3 : Type := mkMasked {
  ma_data : ndarray3;
  ma_mask : list (list (list bool))
}.

(** [np.ma.masked_less(x, value)] masks where [x < value]; a NaN sample
    compares false and stays unmasked. *)
Definition masked_less (x : ndarray3) (value : float) : masked3 :=
  mkMasked x (map (map (map (fun s => PrimFloat.ltb s value))) x).

Definition masked_at (m : masked3) (t i j : nat) : bool :=
  nth j (nth i (nth t (ma_mask m) []) []) true.

(** One step of a masked reduction with [op] ([min] or [max]): a masked
    entry is skipped, the first unmasked one starts the accumulator. *)
Definition step_edge (op : nat -> nat -> nat) (mask : nat -> bool)
    (idx : nat -> nat) (acc : option nat) (t : nat) : option nat :=
  if mask t then acc
  else match acc with
       | None => Some (idx t)
       | Some a => Some (op a (idx t))
       end.

(** Reduction of a masked index array along axis 0: the cell of the result
    is masked when the column has no unmasked entry. *)
Definition ma_reduce0 (op : nat -> nat -> nat) (m : masked3)
    (idx : nat -> nat -> nat -> nat) : list (list (option nat)) :=
  let '(n0, n1, n2) := shape (ma_data m) in
  map (fun i =>
    map (fun j =>
      fold_left (step_edge op (fun t => masked_at m t i j)
                              (fun t => idx t i j))
                (seq 0 n0) None)
      (seq 0 n2))
    (seq 0 n1).

(** [MaskedArray.compressed()]: the unmasked entries in C order. *)
Definition compressed (a : list (list (option nat))) : list nat :=
  flat_map (flat_map (fun o => match o with Some x => [x] | None => [] end)) a.

Definition edge : Type := list nat * list nat * list nat.

(** [np.ma.notmasked_edges(a, axis=0)] on a 3-d array: for the minimum and
    for the maximum, one compressed array per entry of [np.indices]. *)
Definition notmasked_edges0 (m : masked3) : result (edge * edge) :=
  let '(n0, _, _) := shape (ma_data m) in
  if Nat.eqb n0 0 then Raise ValueError   (* reduction over an empty axis *)
  else
    let ix0 := fun t _ _ : nat => t in
    let ix1 := fun _ i _ : nat => i in
    let ix2 := fun _ _ j : nat => j in
    let side op := (compressed (ma_reduce0 op m ix0),
                    compressed (ma_reduce0 op m ix1),
                    compressed (ma_reduce0 op m ix2)) in
    Return (side Nat.min, side Nat.max).

Definition get1 (l : list nat) (k : nat) : result nat :=
  match nth_error l k with
  | Some x => Return x
  | None => Raise IndexError
  end.

(** [a[i, j] = v] on a 2-d numpy array. *)
Definition set2 (a : list (list num)) (i j : nat) (v : num)
  : result (list (list num)) :=
  match nth_error a i with
  | None => Raise IndexError
  | Some row =>
      if Nat.ltb j (length row)
      then Return (firstn i a ++
                   (firstn j row ++ v :: skipn (S j) row) :: skipn (S i) a)
      else Raise IndexError
  end.

Definition get2 (a : list (list num)) (i j : nat) : num :=
  nth j (nth i a []) NaN.

(** [np.zeros((r, c))] followed by [a[:] = np.nan]. *)
Definition full_nan (r c : nat) : list (list num) := repeat (repeat NaN c) r.

(** The loop that loads the edges into the two arrays. *)
Fixpoint extract_edges (ks : list nat) (oi : edge * edge)
    (onset withdrawal : list (list num))
  : result (list (list num) * list (list num)) :=
  match ks with
  | [] => Return (onset, withdrawal)
  | k :: rest =>
      let '((f0, f1, f2), (l0, l1, l2)) := oi in
      a <- get1 f1 k ;; b <- get1 f2 k ;; t <- get1 f0 k ;;
      onset' <- set2 onset a b (Num (Z.of_nat t + 1)) ;;
      a' <- get1 l1 k ;; b' <- get1 l2 k ;; t' <- get1 l0 k ;;
      withdrawal' <- set2 withdrawal a' b' (Num (Z.of_nat t' + 1)) ;;
      extract_edges rest oi onset' withdrawal'
  end.

(** [MaskedArray.filled(fill)]. *)
Definition filled_at (m : masked3) (fill : float) (t i j : nat) : float :=
  if masked_at m t i j then fill else item (ma_data m) t i j.

(** numpy's argmax on float64: the first position of the maximum, where a
    NaN counts as the maximum. *)
Fixpoint argmax_loop (l : list float) (i : nat) (mp : float) (max_ind : nat)
  : nat :=
  match l with
  | [] => max_ind
  | x :: r =>
      if PrimFloat.leb x mp then argmax_loop r (S i) mp max_ind
      else if PrimFloat.is_nan x then i
           else argmax_loop r (S i) x i
  end.

Definition np_argmax (l : list float) : nat :=
  match l with
  | [] => 0%nat
  | x :: r => if PrimFloat.is_nan x then 0%nat else argmax_loop r 1 x 0
  end.

(** [MaskedArray.argmax(axis=0)]: fill the masked entries with the smallest
    float ([-inf]) and take numpy's argmax of every axis-0 column. *)
Definition ma_argmax0 (m : masked3) : result (list (list nat)) :=
  let '(n0, n1, n2) := shape (ma_data m) in
  if Nat.eqb n0 0 then Raise ValueError
  else Return
    (map (fun i =>
       map (fun j =>
              np_argmax (map (fun t => filled_at m neg_infinity t i j)
                             (seq 0 n0)))
           (seq 0 n2))
       (seq 0 n1)).

(** [xr.DataArray(data, [(latdim, ...), (londim, ...)])]: the data must have
    the shape the coordinates give. *)
Definition make_dataarray2 {A : Type} (data : list (list A)) (rows cols : nat)
  : result (list (list A)) :=
  if Nat.eqb (length data) rows && forallb (fun r => Nat.eqb (length r) cols) data
  then Return data
  else Raise ValueError.

Record seasons : Type := mkSeasons {
  onset_pentad : list (list num);
  withdrawal_pentad : list (list num);
  peak_pentad : list (list num);
  duration : list (list num)
}.

Definition map2 {A B C : Type} (f : A -> B -> C) (a : list (list A))
    (b : list (list B)) : list (list C) :=
  map (fun rr => map (fun c => f (fst c) (snd c)) (combine (fst rr) (snd rr)))
      (combine a b).

(** Lines 45-64 of kitoh_uchiyama_2006.py and 42-61 of wang_linho_2002.py,
    from the masking of the thresholded field on.  [pentaddim] is an
    argument of both routines and is not read by these lines. *)
Definition detect (x : DataArray) (threshold : float)
    (latdim londim pentaddim : string) : result seasons :=
  let masked := masked_less (values x) threshold in
  onset_index <- notmasked_edges0 masked ;;
  nlat <- axis_len x latdim ;;
  nlon <- axis_len x londim ;;
  let onset := full_nan nlat nlon in
  nlat' <- axis_len x latdim ;;
  nlon' <- axis_len x londim ;;
  let withdrawal := full_nan nlat' nlon' in
  let '((_, f1, _), _) := onset_index in
  ow <- extract_edges (seq 0 (length f1)) onset_index onset withdrawal ;;
  let '(onset, withdrawal) := ow in
  onset_p <- make_dataarray2 onset nlat nlon ;;
  withdrawal_p <- make_dataarray2 withdrawal nlat nlon ;;
  am <- ma_argmax0 masked ;;
  peak <- make_dataarray2
            (map (map (fun k => Num (Z.of_nat k + 1))) am) nlat nlon ;;
  let peak := map (map (fun p => where_ (negb (num_eqb p (Num 1))) p)) peak in
  Return (mkSeasons onset_p withdrawal_p peak (map2 num_sub withdrawal_p onset_p)).

(** The normalised index is compared with 0.618 ... *)
Definition kitoh_uchiyama_detect (npi : DataArray)
    (latdim londim pentaddim : string) : result seasons :=
  detect npi 0.618%float latdim londim pentaddim.

(** ... and the relative rainfall with 5 mm/day. *)
Definition wang_linho_detect (rain_rel : DataArray)
    (latdim londim pentaddim : string) : result seasons :=
  detect rain_rel 5%float latdim londim pentaddim.

(** The series of a grid cell as these lines see it: along axis 0. *)
Definition column (v : ndarray3) (i j : nat) : list float :=
  map (fun sl => nth j (nth i sl []) nan) v.

(** Position of the first sample of a series that is not below [T]. *)
Fixpoint first_unmasked (T : float) (l : list float) : option nat :=
  match l with
  | [] => None
  | s :: r => if PrimFloat.ltb s T then option_map S (first_unmasked T r)
              else Some 0%nat
  end.

(** Position of the last such sample. *)
Fixpoint last_unmasked (T : float) (l : list float) : option nat :=
  match l with
  | [] => None
  | s :: r => match last_unmasked T r with
              | Some k => Some (S k)
              | None => if PrimFloat.ltb s T then None else Some 0%nat
              end
  end.

Definition edge_num (o : option nat) : num :=
  match o with
  | Some k => Num (Z.of_nat k + 1)
  | None => NaN
  end.

(** Whether a series has a sample that is not below [T]. *)
Definition has_unmasked (T : float) (l : list float) : bool :=
  existsb (fun s => negb (PrimFloat.ltb s T)) l.

(** The masked series of a cell with its masked samples filled by [-inf]. *)
Definition filled_column (T : float) (l : list float) : list float :=
  map (fun s => if PrimFloat.ltb s T then neg_infinity else s) l.

(** A series without missing samples. *)
Definition no_nan (l : list float) : Prop :=
  Forall (fun x => PrimFloat.is_nan x = false) l.

(** A well-formed array: [n0] slices of [n1] rows of [n2] samples. *)
Definition rect (v : ndarray3) (n0 n1 n2 : nat) : Prop :=
  length v = n0 /\
  Forall (fun sl => length sl = n1 /\ Forall (fun r => length r = n2) sl) v.

(** A 2-d array of [r] rows and [c] columns. *)
Definition shape2 {A : Type} (a : list (list A)) (r c : nat) : Prop :=
  length a = r /\ Forall (fun row => length row = c) a.

(** Equality of two (row, column) positions. *)
Definition cell_eqb (a b : nat * nat) : bool :=
  Nat.eqb (fst a) (fst b) && Nat.eqb (snd a) (snd b).

(** The cells that own an entry of the edge lists, in C order. *)
Definition edge_cells (v : ndarray3) (T : float) (n1 n2 : nat) : list (nat * nat) :=
  filter (fun c => has_unmasked T (column v (fst c) (snd c)))
         (list_prod (seq 0 n1) (seq 0 n2)).

(** The first and the last unmasked position of the axis-0 series of a
    cell (0 for a cell without any). *)
Definition first_pos (v : ndarray3) (T : float) (c : nat * nat) : nat :=
  match first_unmasked T (column v (fst c) (snd c)) with
  | Some k => k
  | None => 0%nat
  end.

Definition last_pos (v : ndarray3) (T : float) (c : nat * nat) : nat :=
  match last_unmasked T (column v (fst c) (snd c)) with
  | Some k => k
  | None => 0%nat
  end.

(** The peak cell the routine computes from a series. *)
Definition peak_of (T : float) (col : list float) : num :=
  let p := Num (Z.of_nat (np_argmax (filled_column T col)) + 1) in
  where_ (negb (num_eqb p (Num 1))) p.

Local Open Scope string_scope.

(** Three pentads on one latitude and two longitudes.  With the threshold 5
    the first cell is always below it and the second always above. *)
Definition field_mixed : DataArray :=
  mkDataArray ["pentad"; "lat"; "lon"]
    [ [[1; 6]]; [[2; 8]]; [[3; 7]] ]%float.

(** The first cell touches 5 mm/day without exceeding it; the second cell
    holds missing data. *)
Definition field_touch : DataArray :=
  mkDataArray ["pentad"; "lat"; "lon"]
    [ [[5; nan]]; [[4; nan]]; [[5; nan]] ]%float.

(** A 2 x 2 x 2 field whose pentad dimension is the last axis. *)
Definition field_pentad_last : DataArray :=
  mkDataArray ["lat"; "lon"; "pentad"]
    [ [[1; 9]; [1; 9]]; [[1; 9]; [9; 9]] ]%float.

(** One latitude, two longitudes and three pentads, stored in that order. *)
Definition field_lat_lon_pentad : DataArray :=
  mkDataArray ["lat"; "lon"; "pentad"]
    [ [[1; 6; 7]; [2; 8; 9]] ]%float.

End Detector.

(** ** Normalised pentad precipitation index ([kitoh_uchiyama], line 43) *)

Module Kitoh.
Import Detector.
Local Open Scope string_scope.

(** The smaller and the larger of two values that are not NaN; of two
    equal values the earlier one is kept. *)
Definition fmin (a b : float) : float := if PrimFloat.ltb b a then b else a.
Definition fmax (a b : float) : float := if PrimFloat.ltb a b then b else a.

(** [x.min(dim)] and [x.max(dim)] on one series, with xarray's default
    [skipna]: NaN samples are left out, and a series of NaN only gives
    NaN. *)
Definition nan_reduce (op : float -> float -> float) (l : list float) : float :=
  match filter (fun s => negb (PrimFloat.is_nan s)) l with
  | [] => nan
  | s :: rest => fold_left op rest s
  end.

Definition nanmin : list float -> float := nan_reduce fmin.
Definition nanmax : list float -> float := nan_reduce fmax.

(** The series through the element [(t, i, j)] along an axis. *)
Definition series_along (v : ndarray3) (axis t i j : nat) : list float :=
  let '(n0, n1, n2) := shape v in
  match axis with
  | 0%nat => map (fun s => item v s i j) (seq 0 n0)
  | 1%nat => map (fun s => item v t s j) (seq 0 n1)
  | _ => map (fun s => item v t i s) (seq 0 n2)
  end.

(** Line 43 of kitoh_uchiyama_2006.py: the normalised pentad precipitation
    index [(p - min) / (max - min)], minimum and maximum taken along
    [pentaddim].  A name that is no dimension and an axis without any
    pentad have no minimum: [ValueError]. *)
Definition normalised_index (p_smooth : DataArray) (pentaddim : string)
  : result DataArray :=
  match index_of pentaddim (dims p_smooth) with
  | None => Raise ValueError
  | Some axis =>
      let v := values p_smooth in
      let '(n0, n1, n2) := shape v in
      if Nat.eqb (nth axis [n0; n1; n2] 0%nat) 0 then Raise ValueError
      else
        Return (mkDataArray (dims p_smooth)
          (map (fun t =>
             map (fun i =>
               map (fun j =>
                      let s := series_along v axis t i j in
                      ((item v t i j - nanmin s) / (nanmax s - nanmin s))%float)
                   (seq 0 n2))
               (seq 0 n1))
             (seq 0 n0)))
  end.

(** Lines 43-64: from the smoothed precipitation to the four results. *)
Definition kitoh_uchiyama_seasons (p_smooth : DataArray)
    (latdim londim pentaddim : string) : result seasons :=
  npi <- normalised_index p_smooth pentaddim ;;
  kitoh_uchiyama_detect npi latdim londim pentaddim.

(** Three pentads on one latitude and two longitudes: a dry cell and a cell
    with rain that peaks in the second pentad. *)
Definition field_dry : DataArray :=
  mkDataArray ["pentad"; "lat"; "lon"]
    [ [[0; 1]]; [[0; 9]]; [[0; 2]] ]%float.

End Kitoh.

(** ** Condition A of the Li-Zhang onset ([li_zhang], lines 96-103) *)

Module LiZhang.

(** [cond_a_onset = beta_onset > beta_julaug/2.] for one grid cell: the
    series of [beta] over the onset months and the July-August value. *)
Definition cond_a (beta_onset : list float) (beta_julaug : float) : list bool :=
  map (fun b => PrimFloat.ltb (beta_julaug / 2)%float b) beta_onset.

(** [cond.isel(time=range(i, i+p)).sum('time')]: the number of steps of the
    window that satisfy the condition. *)
Definition window_sum (cond : list bool) (i p : nat) : nat :=
  length (filter (fun b => b) (firstn p (skipn i cond))).

(** [xr.where(c, i, np.nan)]. *)
Definition xr_where (c : bool) (i : nat) : num :=
  if c then Num (Z.of_nat i) else NaN.

(** [a[:, :, i] = v]: every statement of the loop acts on all grid cells
    alike, with time as the last axis; this is its effect on one cell. *)
Definition set_time (a : list num) (i : nat) (v : num) : list num :=
  firstn i a ++ v :: skipn (S i) a.

(** The loop [for i in range(len(cond.time) - p)]. *)
Fixpoint fill_a (cond : list bool) (p : nat) (steps : list nat) (a : list num)
  : list num :=
  match steps with
  | [] => a
  | i :: rest =>
      fill_a cond p rest
             (set_time a i (xr_where (Nat.eqb (window_sum cond i p) p) i))
  end.

(** [DataArray.isel(time=range(lo, hi))]. *)
Definition isel_range (a : list num) (lo hi : nat) : list num :=
  firstn (hi - lo) (skipn lo a).

Definition nan_min (acc x : num) : num :=
  match acc, x with
  | NaN, y => y
  | a, NaN => a
  | Num a, Num b => Num (Z.min a b)
  end.

(** [DataArray.min('time')] with xarray's default [skipna]: the smallest
    value that is not NaN, NaN when there is none; an empty axis has no
    minimum. *)
Definition min_time (a : list num) : result num :=
  match a with
  | [] => Raise ValueError
  | _ => Return (fold_left nan_min a NaN)
  end.

(** Lines 98-103: the Condition-A onset index of one grid cell. *)
Definition cond_a_onset_index (cond : list bool) (p : nat) : result num :=
  let nt := length cond in
  let a := repeat (Num 0) nt in                         (* np.zeros *)
  let a := fill_a cond p (seq 0 (nt - p)) a in
  let a := isel_range a 1 (nt - p) in
  min_time a.

Definition li_zhang_cond_a (beta_onset : list float) (beta_julaug : float)
    (p : nat) : result num :=
  cond_a_onset_index (cond_a beta_onset beta_julaug) p.

(** The window of [p] steps that starts at step [i] lies inside the series
    and satisfies the condition throughout. *)
Definition sustained (cond : list bool) (p i : nat) : Prop :=
  (i + p <= length cond)%nat /\
  forall k, (k < p)%nat -> nth (i + k) cond false = true.

(** The test of the loop: all [p] steps of the window from [i] are set. *)
Definition window_ok (cond : list bool) (p i : nat) : bool :=
  Nat.eqb (window_sum cond i p) p.

(** The result is the least step among [1 .. len - p - 1] at which a
    sustained window starts, NaN when there is none. *)
Definition earliest_from_1 (cond : list bool) (p : nat) (r : num) : Prop :=
  let last := (length cond - p - 1)%nat in
  (r = NaN /\ forall j, (1 <= j <= last)%nat -> ~ sustained cond p j) \/
  (exists i, r = Num (Z.of_nat i) /\ (1 <= i <= last)%nat /\
             sustained cond p i /\
             forall j, (1 <= j < i)%nat -> ~ sustained cond p j).

(** A year that starts above the threshold: forty steps of [beta = 1] with
    a July-August value of 1. *)
Definition beta_high : list float := repeat 1%float 40.

(** [cond.isel(time=range(i, i-p, -1)).sum('time')]: the number of steps
    among the [p] steps that end at [i] that satisfy the condition. *)
Definition window_sum_back (cond : list bool) (i p : nat) : nat :=
  length (filter (fun b => b)
            (map (fun d => nth (i - d) cond false) (seq 0 p))).

(** The loop [for i in range(len(cond.time)-1, p-1, -1)]. *)
Fixpoint fill_back (cond : list bool) (p : nat) (steps : list nat)
    (a : list num) : list num :=
  match steps with
  | [] => a
  | i :: rest =>
      fill_back cond p rest
        (set_time a i (xr_where (Nat.eqb (window_sum_back cond i p) p) i))
  end.

Definition nan_max (acc x : num) : num :=
  match acc, x with
  | NaN, y => y
  | a, NaN => a
  | Num a, Num b => Num (Z.max a b)
  end.

(** [DataArray.max('time')], skipping NaN; an empty axis has no maximum. *)
Definition max_time (a : list num) : result num :=
  match a with
  | [] => Raise ValueError
  | _ => Return (fold_left nan_max a NaN)
  end.

(** Lines 120-125: the Condition-A withdrawal index of one grid cell. *)
Definition cond_a_withdrawal_index (cond : list bool) (p : nat) : result num :=
  let nt := length cond in
  let a := repeat (Num 0) nt in                         (* np.zeros *)
  let a := fill_back cond p (rev (seq p (nt - p))) a in
  let a := isel_range a p nt in
  max_time a.

Definition li_zhang_cond_a_withdrawal (beta_withdrawal : list float)
    (beta_julaug : float) (p : nat) : result num :=
  cond_a_withdrawal_index (cond_a beta_withdrawal beta_julaug) p.

(** The [p] steps that end at step [i] all satisfy the condition. *)
Definition sustained_until (cond : list bool) (p i : nat) : Prop :=
  forall d, (d < p)%nat -> nth (i - d) cond false = true.

(** The test of the withdrawal loop. *)
Definition window_back_ok (cond : list bool) (p i : nat) : bool :=
  Nat.eqb (window_sum_back cond i p) p.

(** Seven steps of the condition with two sustained spells, and six monthly
    steps. *)
Definition cond_two_spells : list bool :=
  [true; true; true; false; true; true; false].

Definition cond_monthly : list bool := repeat true 6.



End LiZhang.

(** ** Regional reducer ([wang_fan], [yim_precip], [yim_vort]) *)

Module Reducer.

(** The latitude and longitude coordinates of a field or of a cell-area
    grid, in degrees. *)
Record Grid : Type := mkGrid {
  lat : list Q;
  lon : list Q
}.




Definition Qltb (a b : Q) : bool :=
  match Qcompare a b with Lt => true | _ => false end.



(** The selection by one range, as for the latitudes, and for the
    longitudes in [wang_fan] and [yim_vort]. *)
Definition select_range (coords : list Q) (a b : Q) : list Q :=
  filter (fun x => Qle_bool a x && Qle_bool x b) coords.

(** [np.rint]: round to the nearest integer, halves to the even one. *)
Definition rint (x : Q) : Z :=
  let f := Qfloor x in
  match Qcompare (x - inject_Z f) (1 # 2) with
  | Lt => f
  | Gt => (f + 1)%Z
  | Eq => if Z.even f then f else (f + 1)%Z
  end.

(** [np.round(x, 2)]: scale by 100, round, scale back. *)
Definition np_round2 (x : Q) : Q := inject_Z (rint (x * 100)) / 100.

(** [(np.round(a - b, 2) == 0.).all()] on coordinate arrays of one length. *)
Definition coords_same (a b : list Q) : bool :=
  forallb (fun ab => Qeq_bool (np_round2 (fst ab - snd ab)) 0) (combine a b).

(** Which mean the routine forms over the selected points; the arithmetic
    itself is xarray's:
    - [area_mean_of]: sum of field x cell area over the selected cells,
      divided by the sum of the cell areas;
    - [cosine_mean_of]: sum over latitude of field x cos(latitude), averaged
      over longitude, divided by the sum over latitude of cos(latitude). *)
Inductive weighted_mean : Type :=
| area_mean_of (lats lons : list Q)
| cosine_mean_of (lats lons : list Q).


(** The acceptance test of a cell-area grid (the lines between
    [if areacell is not None:] and [if latsame and lonsame:]). *)
Definition areacell_matches (field areacell : Grid) : bool :=
  let '(latsame, lonsame) :=
    if Nat.eqb (length (lat areacell)) (length (lat field)) &&
       Nat.eqb (length (lon areacell)) (length (lon field))
    then (coords_same (lat areacell) (lat field),
          coords_same (lon areacell) (lon field))
    else (false, false) in
  latsame && lonsame.









Local Open Scope Q_scope.













End Reducer.

(** ** South China Sea onset of Gao et al. ([gao_etal_2001.py]) *)

Module Gao.

Import Reducer.

(** What the module asks of xarray and numpy.  The labelled arithmetic
    and the selections belong to those libraries; the routines below are
    written over any implementation of them. *)
Record Xarray : Type := mkXarray {
  DataArray : Type;
  (** [name in x.dims] *)
  has_dim : DataArray -> string -> bool;
  (** [x.rename({old: new, ...})] *)
  rename : DataArray -> list (string * string) -> result DataArray;
  (** [x.sel(plev=lev)] and [x.sel(plev=lev, method='nearest')] *)
  sel_level : DataArray -> Q -> result DataArray;
  sel_level_nearest : DataArray -> Q -> result DataArray;
  (** [str(int(x.plev.values))] *)
  level_label : DataArray -> result string;
  (** [x.lat], [x.lon], [x.plev]: a coordinate, [AttributeError] without *)
  coord : DataArray -> string -> result (list Q);
  plev_of : DataArray -> result DataArray;
  (** element-wise arithmetic on aligned arrays *)
  broadcast : list DataArray -> (list float -> float) -> result DataArray;
  (** the value of a weighted box mean: a series of (pentad, value) *)
  reduce : DataArray -> option Grid -> weighted_mean -> result (list (Z * float));
  (** [np.exp] and [**] on float64 *)
  fexp : float -> float;
  fpow : float -> float -> float
}.

(** A value bound to a name at module level. *)
Inductive pyval (X : Xarray) : Type :=
| PyFloat (x : float)
| PyStr (s : string)
| PyModule (name : string)
| PyFunction (name : string)
| PyArray (d : DataArray X).
Arguments PyFloat {X} x.
Arguments PyStr {X} s.
Arguments PyModule {X} name.
Arguments PyFunction {X} name.
Arguments PyArray {X} d.

Section Routines.

Variable X : Xarray.

Definition cp_air : float := 1004.6.
Definition L : float := 2.507e6.
Definition rdgas : float := 287.04.
Definition rvgas : float := 461.50.
Definition tfreeze : float := 273.16.
Definition a : float := 6371e3.

(** The global namespace of the module, in the order of its statements. *)
Definition module_globals : list (string * pyval X) :=
  [ ("__author__", PyStr "Ruth Geen");
    ("np", PyModule "numpy");
    ("xr", PyModule "xarray");
    ("cp_air", PyFloat cp_air);
    ("L", PyFloat L);
    ("rdgas", PyFloat rdgas);
    ("rvgas", PyFloat rvgas);
    ("tfreeze", PyFloat tfreeze);
    ("a", PyFloat a);
    ("sat_vap_pres", PyFunction "sat_vap_pres");
    ("equiv_pot_t_ams", PyFunction "equiv_pot_t_ams");
    ("rename_coords", PyFunction "rename_coords");
    ("area_mean", PyFunction "area_mean");
    ("gao_onset", PyFunction "gao_onset") ]%string.

(** The built-in names the module reads. *)
Definition builtins : list (string * pyval X) :=
  [ ("len", PyFunction "len"); ("range", PyFunction "range");
    ("print", PyFunction "print"); ("int", PyFunction "int");
    ("str", PyFunction "str") ]%string.

Fixpoint assoc (name : string) (env : list (string * pyval X))
  : option (pyval X) :=
  match env with
  | [] => None
  | (k, v) :: rest => if String.eqb k name then Some v else assoc name rest
  end.

(** A name that a function reads and never assigns is looked up in the
    module's globals, then in the built-ins; failing both, [NameError]. *)
Definition load_global (name : string) : result (pyval X) :=
  match assoc name module_globals with
  | Some v => Return v
  | None => match assoc name builtins with
            | Some v => Return v
            | None => Raise (NameError name)
            end
  end.

(** [v.lat], [v.lon] on a module-level value. *)
Definition getattr_coord (v : pyval X) (name : string) : result (list Q) :=
  match v with
  | PyArray d => coord X d name
  | _ => Raise (AttributeError name)
  end.

Definition as_string (v : pyval X) : result string :=
  match v with
  | PyStr s => Return s
  | _ => Raise TypeError
  end.

(** [try: a  except: b] with a bare [except]. *)
Definition try_except {A : Type} (body : result A) (handler : result A)
  : result A :=
  match body with
  | Return v => Return v
  | Raise _ => handler
  end.

(** Lines 50-69.  [None] is the bare [return] after the message on an
    unknown pressure unit. *)
Definition rename_coords (var_in : DataArray X)
    (pentaddim pdim punits latdim londim : string)
  : result (option (DataArray X)) :=
  var_in <- rename X var_in
              [(pentaddim, "pentad"); (latdim, "lat"); (londim, "lon")]%string ;;
  if has_dim X var_in pdim then
    let lev := if String.eqb punits "Pa" then Some 85000%Q
               else if String.eqb punits "hPa" then Some 850%Q
               else None in
    match lev with
    | None => Return None            (* 'Error, punits not recognised' *)
    | Some lev =>
        var_in <- rename X var_in [(pdim, "plev"%string)] ;;
        var_in <- try_except (sel_level X var_in lev)
                    (v <- sel_level_nearest X var_in lev ;;
                     _ <- level_label X v ;;
                     Return v) ;;
        Return (Some var_in)
    end
  else Return (Some var_in).

(** Arithmetic on [None] raises [TypeError]. *)
Definition operand (v : option (DataArray X)) : result (DataArray X) :=
  match v with
  | Some d => Return d
  | None => Raise TypeError
  end.

(** Lines 21-46, cell by cell: the equivalent potential temperature and its
    saturation value from the temperature [t], the specific humidity [q]
    and the pressure [plev]. *)
Definition theta_point (which : bool) (args : list float) : float :=
  match args with
  | [t; q; plev] =>
      let r := (q / (1 - q))%float in
      let c := 4217%float in
      let denom := (cp_air + r * c)%float in
      let es := (610.78 * fexp X (-1 * L / rvgas * (1 / t - 1 / tfreeze)))%float in
      let rs := (0.622 * es / plev)%float in
      let rh := (r / rs)%float in
      let denom_s := (cp_air + rs * c)%float in
      if which
      then (t * fpow X (100000 / plev) (rdgas / denom)
              * fpow X rh (- r * rvgas / denom)
              * fexp X (L * r / denom / t))%float
      else (t * fpow X (100000 / plev) (rdgas / denom_s)
              * fexp X (L * rs / denom_s / t))%float
  | _ => nan
  end.

Definition equiv_pot_t_ams (t q : option (DataArray X))
  : result (DataArray X * DataArray X) :=
  q <- operand q ;;                       (* r = q/(1-q) *)
  t <- operand t ;;                       (* sat_vap_pres: 1/t *)
  plev <- plev_of X t ;;                  (* t.plev *)
  theta_equiv <- broadcast X [t; q; plev] (theta_point true) ;;
  theta_equiv_s <- broadcast X [t; q; plev] (theta_point false) ;;
  Return (theta_equiv, theta_equiv_s).

(** [v.lat], [v.lon] on an argument that may be [None]. *)
Definition getattr_arg (v : option (DataArray X)) (name : string)
  : result (list Q) :=
  match v with
  | Some d => coord X d name
  | None => Raise (AttributeError name)
  end.

(** Lines 72-98.  The function has the parameters [var_in] and [areacell];
    [u], [latdim] and [londim] are read and never assigned in it, so they
    are global names. *)
Definition area_mean (var_in areacell : option (DataArray X))
  : result (list (Z * float)) :=
  u <- load_global "u" ;;
  u_lat <- getattr_coord u "lat" ;;
  let lats := select_range u_lat 10 20 in
  u <- load_global "u" ;;
  u_lon <- getattr_coord u "lon" ;;
  let lons := select_range u_lon 110 120 in
  let cosine :=
    _ <- getattr_arg var_in "lat" ;;
    var <- operand var_in ;;
    reduce X var None (cosine_mean_of lats lons) in
  match areacell with
  | Some cells =>
      latdim <- load_global "latdim" ;;
      londim <- load_global "londim" ;;
      latdim <- as_string latdim ;;
      londim <- as_string londim ;;
      cells <- rename X cells [(latdim, "lat"); (londim, "lon")]%string ;;
      cell_lat <- coord X cells "lat" ;;
      var_lat <- getattr_arg var_in "lat" ;;
      cell_lon <- coord X cells "lon" ;;
      var_lon <- getattr_arg var_in "lon" ;;
      let field := mkGrid var_lat var_lon in
      let grid := mkGrid cell_lat cell_lon in
      if areacell_matches field grid
      then var <- operand var_in ;;
           reduce X var (Some grid) (area_mean_of lats lons)
      else cosine                    (* after the warning *)
  | None => cosine
  end.

(** [x.isel(pentad=i)] on a series. *)
Definition isel (x : list (Z * float)) (i : nat) : result (Z * float) :=
  match nth_error x i with
  | Some v => Return v
  | None => Raise IndexError
  end.

Definition positive (x : list (Z * float)) (i : nat) : result bool :=
  v <- isel x i ;; Return (PrimFloat.ltb 0 (snd v)).

(** The loop of lines 129-138 from pentad [i] on; [steps] counts the
    pentads still to visit. *)
Fixpoint onset_loop (th_e_mean u_pos : list (Z * float)) (i steps : nat)
  : result (option Z) :=
  match steps with
  | O => Return None
  | S steps' =>
      th <- isel th_e_mean i ;;
      c <- (if PrimFloat.ltb 335 (snd th)
            then c1 <- positive u_pos i ;;
                 if c1 then positive u_pos (i + 1) else Return false
            else Return false) ;;
      if (c : bool) then
        c2 <- positive u_pos (i + 2) ;;
        steady <-
          (if (c2 : bool)
           then w3 <- isel u_pos (i + 3) ;; w4 <- isel u_pos (i + 4) ;;
                w5 <- isel u_pos (i + 5) ;;
                Return (PrimFloat.ltb 0 (snd w3 + snd w4 + snd w5)%float)
           else Return false) ;;
        if (steady : bool) then p <- isel u_pos i ;; Return (Some (fst p))
        else
          v2 <- isel u_pos (i + 2) ;;
          short <- (if PrimFloat.ltb (snd v2) 0
                    then positive u_pos (i + 3)
                    else Return false) ;;
          if (short : bool) then p <- isel u_pos i ;; Return (Some (fst p))
          else onset_loop th_e_mean u_pos (S i) steps'
      else onset_loop th_e_mean u_pos (S i) steps'
  end.

(** Lines 103-140. *)
Definition gao_onset (t q u : DataArray X) (areacell : option (DataArray X))
    (pdim punits pentaddim latdim londim : string) : result (option Z) :=
  q <- rename_coords q pentaddim pdim punits latdim londim ;;
  t <- rename_coords t pentaddim pdim punits latdim londim ;;
  u <- rename_coords u pentaddim pdim punits latdim londim ;;
  th <- equiv_pot_t_ams t q ;;
  let '(th_e, th_es) := th in
  th_e_mean <- area_mean (Some th_e) areacell ;;
  u_mean <- area_mean u areacell ;;
  let u_pos :=
    map (fun pv => (fst pv, if PrimFloat.ltb 0 (snd pv) then 1 else 0)%float)
        u_mean in
  onset_loop th_e_mean u_pos 0 (length u_mean).

End Routines.

Local Open Scope string_scope.

(** An implementation of the library interface in which every call
    succeeds: an array is its series of (pentad, value), every array has a
    pressure dimension, selections and arithmetic give back an operand. *)
Definition xr_total : Xarray :=
  {| DataArray := list (Z * float);
     has_dim := fun _ name => String.eqb name "plev";
     rename := fun d _ => Return d;
     sel_level := fun d _ => Return d;
     sel_level_nearest := fun d _ => Return d;
     level_label := fun _ => Return "850";
     coord := fun _ _ => Return [];
     plev_of := fun d => Return d;
     broadcast := fun l _ => Return (hd [] l);
     reduce := fun d _ _ => Return d;
     fexp := fun x => x;
     fpow := fun x _ => x |}.

(** Three pentads of a series. *)
Definition year_series : DataArray xr_total :=
  [(1%Z, 340%float); (2%Z, 341%float); (3%Z, 342%float)].



(** [(u_mean > 0.) * 1.] (line 127), pentad by pentad. *)
Definition u_positive (pv : Z * float) : Z * float :=
  (fst pv, if PrimFloat.ltb 0 (snd pv) then 1 else 0)%float.

(** A year of area means: [th_e] above 335 K from the third pentad on, and
    westerlies from the third pentad on with a break at the seventh. *)
Definition th_e_year : list (Z * float) :=
  [(1%Z, 330%float); (2%Z, 333%float); (3%Z, 336%float); (4%Z, 337%float);
   (5%Z, 338%float); (6%Z, 339%float); (7%Z, 340%float); (8%Z, 341%float);
   (9%Z, 342%float)].

Definition u_year : list (Z * float) :=
  [(1%Z, (-2)%float); (2%Z, (-1)%float); (3%Z, 1%float); (4%Z, 2%float);
   (5%Z, 3%float); (6%Z, 1%float); (7%Z, (-1)%float); (8%Z, 2%float);
   (9%Z, 3%float)].

End Gao.

(** ** South China Sea onset of Wang et al. ([wang_etal_2004.py], the search
       of lines 48 and 71-79) *)

Module Scsm.

Local Open Scope string_scope.

(** The area mean [u_mean] of lines 50-68 (the weighting block of the
    reducer): one value per pentad, with the labels of the pentad
    coordinate, which are distinct. *)
Definition series : Type := list (Z * float).

Section Search.

(** [x.sum('pentad')], xarray's sum over the selected pentads. *)
Variable nansum : list float -> float.

(** Line 48: the labels of the pentads from 24 on. *)
Definition candidate_pentads (u_mean : series) : list Z :=
  filter (fun l => Z.leb 24 l) (map fst u_mean).

(** [u_mean.sel(pentad=label)]: [KeyError] for a label that is not in the
    coordinate. *)
Definition sel (u_mean : series) (label : Z) : result float :=
  match find (fun pv => Z.eqb (fst pv) label) u_mean with
  | Some pv => Return (snd pv)
  | None => Raise (KeyError "pentad")
  end.

(** [u_mean.sel(pentad=labels)] for a list of labels. *)
Fixpoint sel_list (u_mean : series) (labels : list Z) : result (list float) :=
  match labels with
  | [] => Return []
  | l :: rest =>
      x <- sel u_mean l ;; xs <- sel_list u_mean rest ;; Return (x :: xs)
  end.

(** [l[i:j]] for [0 <= i <= j]: a slice stops at the end of the list. *)
Definition slice {A : Type} (l : list A) (i j : nat) : list A :=
  firstn (j - i) (skipn i l).

(** [np.sum(values > 0.)] *)
Definition count_positive (w : list float) : nat :=
  length (filter (fun x => PrimFloat.ltb 0 x) w).

(** [pentads[i]] *)
Definition get (pentads : list Z) (i : nat) : result Z :=
  match nth_error pentads i with
  | Some p => Return p
  | None => Raise IndexError
  end.

(** Lines 71-79 from candidate [i] on; [steps] counts the candidates still
    to visit.  Line 72 evaluates a selection whose mean is not read. *)
Fixpoint scsm_loop (u_mean : series) (pentads : list Z) (i steps : nat)
  : result (option Z) :=
  match steps with
  | O => Return None
  | S steps' =>
      _ <- sel_list u_mean (slice pentads (i + 1) (i + 5)) ;;
      p <- get pentads i ;;
      x <- sel u_mean p ;;
      c <- (if PrimFloat.ltb 0 x
            then w <- sel_list u_mean (slice pentads i (i + 4)) ;;
                 if PrimFloat.ltb 1 (nansum w)
                 then w' <- sel_list u_mean (slice pentads i (i + 4)) ;;
                      Return (Nat.leb 2 (count_positive w'))
                 else Return false
            else Return false) ;;
      if (c : bool) then Return (Some p)
      else scsm_loop u_mean pentads (S i) steps'
  end.

(** The search of [scsm_onset] on the area mean. *)
Definition scsm_search (u_mean : series) : result (option Z) :=
  let pentads := candidate_pentads u_mean in
  scsm_loop u_mean pentads 0 (length pentads).

(** The value of the series at a label. *)
Definition value_at (u_mean : series) (label : Z) : float :=
  match find (fun pv => Z.eqb (fst pv) label) u_mean with
  | Some pv => snd pv
  | None => nan
  end.

(** The test of line 73-75 at candidate [i]. *)
Definition onset_test (u_mean : series) (pentads : list Z) (i : nat) : bool :=
  let w := map (value_at u_mean) (slice pentads i (i + 4)) in
  PrimFloat.ltb 0 (value_at u_mean (nth i pentads 0%Z)) &&
  PrimFloat.ltb 1 (nansum w) && Nat.leb 2 (count_positive w).

End Search.

(** A sum that skips NaN, taken from the left. *)
Definition nansum_left (w : list float) : float :=
  fold_left (fun acc x => if PrimFloat.is_nan x then acc else (acc + x)%float)
            w 0%float.

(** A year in which the westerlies set in at pentad 27 and pause at 28
    and 29. *)
Definition u_mean_year : series :=
  [(23%Z, 3%float); (24%Z, (-2)%float); (25%Z, (-1)%float);
   (26%Z, (-1)%float); (27%Z, 2%float); (28%Z, (-0.5)%float);
   (29%Z, (-0.25)%float); (30%Z, 1%float); (31%Z, 2%float)].

End Scsm.

(** ** Meiyu front of Li et al. ([li_etal_2018.py], the thresholds of
       lines 91-110) *)

Module Meiyu.

Import Reducer.
Local Open Scope Q_scope.

(** [x[i]] on a coordinate. *)
Definition coord_at (l : list Q) (i : nat) : result Q :=
  match nth_error l i with
  | Some x => Return x
  | None => Raise IndexError
  end.

Record thresholds : Type := mkThresholds {
  dthdy_threshold : Q;
  continuity_threshold : Q;
  cellno_threshold : Q
}.

(** Lines 91-110 of li_etal_2018.py: the grid spacing and the thresholds
    derived from it. *)
Definition li_meiyu_thresholds (t : Grid) : result thresholds :=
  lon1 <- coord_at (lon t) 1 ;; lon0 <- coord_at (lon t) 0 ;;
  let lonres := lon1 - lon0 in
  lat1 <- coord_at (lat t) 1 ;; lat0 <- coord_at (lat t) 0 ;;
  let latres := lat1 - lat0 in
  let '(dthdy, continuity) :=
    if Qltb (1 # 2) latres                      (* latres > 0.5 *)
    then ((4 # 100) / latres, latres)
    else (4 # 100, 1) in
  let lons := select_range (lon t) 105 145 in
  let lats := select_range (lat t) 22 40 in
  let nlons := length lons in
  let nlats := length lats in
  Return (mkThresholds dthdy continuity
            ((5 # 72) * inject_Z (Z.of_nat nlons) * inject_Z (Z.of_nat nlats))).

(** A one-degree grid over East Asia with the latitudes running north to
    south, the same grid south to north, and a grid with one latitude. *)
Definition grid_north_south : Grid := mkGrid [40; 39; 38; 37] [105; 106; 107].
Definition grid_south_north : Grid := mkGrid [37; 38; 39; 40] [105; 106; 107].
Definition grid_one_lat : Grid := mkGrid [30] [105; 106; 107].

End Meiyu.

(** ** Harmonic smoother ([smooth_data], and the same lines inlined in
       [kitoh_uchiyama] and [wang_linho]) *)

Module Smoother.

Local Open Scope R_scope.

(** Complex numbers as pairs, real part first. *)
Definition C : Type := R * R.

Definition C0 : C := (0, 0).
Definition C1 : C := (1, 0).
Definition RtoC (r : R) : C := (r, 0).
Definition Cre (z : C) : R := fst z.
Definition Cim (z : C) : R := snd z.
Definition Cadd (z w : C) : C := (fst z + fst w, snd z + snd w).
Definition Cmul (z w : C) : C :=
  (fst z * fst w - snd z * snd w, fst z * snd w + snd z * fst w).
Definition Cscale (r : R) (z : C) : C := (r * fst z, r * snd z).
Definition Cconj (z : C) : C := (fst z, - snd z).

(** [exp(2 pi i n / L)]. *)
Definition root (L n : nat) : C :=
  (cos (2 * PI * INR n / INR L), sin (2 * PI * INR n / INR L)).

(** The sum of [f 0 .. f (n-1)]. *)
Fixpoint Csum (f : nat -> C) (n : nat) : C :=
  match n with
  | O => C0
  | S k => Cadd (Csum f k) (f k)
  end.

Fixpoint Rsum (f : nat -> R) (n : nat) : R :=
  match n with
  | O => 0
  | S k => Rsum f k + f k
  end.

(** [np.fft.fft] along the time axis of one grid cell:
    [A_k = sum_t a_t exp(-2 pi i k t / L)]. *)
Definition fft (a : list C) : list C :=
  let L := length a in
  map (fun k => Csum (fun t => Cmul (nth t a C0) (Cconj (root L (k * t)))) L)
      (seq 0 L).

(** [np.fft.ifft]: [a_t = (1/L) sum_k A_k exp(2 pi i k t / L)]. *)
Definition ifft (A : list C) : list C :=
  let L := length A in
  map (fun t => Cscale (/ INR L)
                  (Csum (fun k => Cmul (nth k A C0) (root L (k * t))) L))
      (seq 0 L).

(** A bound of a Python slice on a sequence of [len] items: a negative
    index counts from the end, and the result is clipped to [0 .. len]. *)
Definition slice_bound (i : Z) (len : nat) : nat :=
  Z.to_nat (if (i <? 0)%Z then Z.max (i + Z.of_nat len) 0
            else Z.min i (Z.of_nat len)).

(** [A[start:stop] = 0] along the time axis. *)
Definition zero_slice (A : list C) (start stop : Z) : list C :=
  let L := length A in
  let lo := slice_bound start L in
  let hi := slice_bound stop L in
  map (fun k => if Nat.leb lo k && Nat.ltb k hi then C0 else nth k A C0)
      (seq 0 L).

(** [x.mean(timedim)]. *)
Definition mean (x : list R) : R :=
  Rsum (fun t => nth t x 0) (length x) / INR (length x).

(** Lines 41-55 of li_zhang_2009.py (23-41 of kitoh_uchiyama_2006.py, 27-38
    of wang_linho_2002.py) on the series of one grid cell. *)
Definition smooth_data (var_in : list R) : list R :=
  let var_mean := mean var_in in
  let var_in := map (fun v => v - var_mean) var_in in
  let var_fft := fft (map RtoC var_in) in
  let var_fft := zero_slice var_fft 12 (-12) in      (* var_fft[12:-12] = 0 *)
  let var_smooth := ifft var_fft in
  map (fun z => Cre z + var_mean) var_smooth.

(** The spectrum of a real series. *)
Definition spectrum (x : list R) : list C := fft (map RtoC x).

(** The series with its mean removed, and the coefficients that the
    truncation keeps of its spectrum. *)
Definition centred (x : list R) : list R := map (fun v => v - mean x) x.
Definition kept (x : list R) : list C :=
  zero_slice (spectrum (centred x)) 12 (-12).

(** The two transforms as functions of the index. *)
Definition dft (L : nat) (a : nat -> C) (k : nat) : C :=
  Csum (fun t => Cmul (a t) (Cconj (root L (k * t)))) L.

Definition idft (L : nat) (A : nat -> C) (t : nat) : C :=
  Cscale (/ INR L) (Csum (fun k => Cmul (A k) (root L (k * t))) L).

(** The index that pairs with [m]: the [k < L] with [k + m = 0 (mod L)]. *)
Definition mirror (L m : nat) : nat := ((L - m mod L) mod L)%nat.

(** A unit pulse at the first of the 73 pentads of a year. *)
Definition pulse73 : list R := 1 :: repeat 0 72.

End Smoother.

(** Equations between complex numbers, component by component. *)
Ltac csolve :=
  unfold Smoother.Cadd, Smoother.Cmul, Smoother.Cscale, Smoother.Cconj,
    Smoother.RtoC, Smoother.C0, Smoother.C1, Smoother.Cre, Smoother.Cim;
  apply injective_projections; cbn [fst snd]; ring.

(* ================================================================== *)
(** * Properties *)

Section FloatOrder.

Open Scope float_scope.

Lemma SFcompare_antisym (a b : spec_float) :
  SFcompare b a = option_map CompOpp (SFcompare a b).
Proof.
  destruct a as [sa|sa| |sa ma ea], b as [sb|sb| |sb mb eb]; simpl;
    try reflexivity;
    try (destruct sa; try destruct sb; reflexivity).
  destruct sa, sb; simpl; try reflexivity;
    rewrite (Z.compare_antisym eb ea); destruct (eb ?= ea)%Z; simpl;
    try reflexivity;
    change (Pos.compare_cont Eq ma mb) with (Pos.compare ma mb);
    change (Pos.compare_cont Eq mb ma) with (Pos.compare mb ma);
    rewrite (Pos.compare_antisym mb ma); destruct (mb ?= ma)%positive;
    reflexivity.
Qed.

(** [a < b] excludes [b < a], also in the presence of NaN and infinities. *)
Lemma ltb_asym (a b : float) :
  PrimFloat.ltb a b = true -> PrimFloat.ltb b a = false.
Proof.
  rewrite !ltb_spec. unfold SFltb.
  rewrite (SFcompare_antisym (Prim2SF a) (Prim2SF b)).
  destruct (SFcompare (Prim2SF a) (Prim2SF b)) as [[]|]; simpl; congruence.
Qed.

(** The comparison of the IEEE specification is a total preorder away
    from NaN. *)
Lemma SFleb_trans (a b c : spec_float) :
  SFleb a b = true -> SFleb b c = true -> SFleb a c = true.
Proof.
  unfold SFleb.
  destruct a as [sa|sa| |sa ma ea], b as [sb|sb| |sb mb eb],
           c as [sc|sc| |sc mc ec]; simpl;
    try discriminate; try reflexivity;
    try (destruct sa; try discriminate; try reflexivity);
    try (destruct sb; try discriminate; try reflexivity);
    try (destruct sc; try discriminate; try reflexivity);
    simpl; try discriminate; try reflexivity.
  all: change (Pos.compare_cont Eq) with Pos.compare.
  all: destruct (Z.compare_spec ea eb), (Z.compare_spec eb ec), (Z.compare_spec ea ec);
    simpl; try discriminate; try reflexivity; try lia.
  all: subst;
    destruct (Pos.compare_spec ma mb), (Pos.compare_spec mb mc), (Pos.compare_spec ma mc);
    simpl; try discriminate; try reflexivity; try lia.
Qed.

Lemma SFleb_total (a b : spec_float) :
  a <> S754_nan -> b <> S754_nan -> SFleb a b = false -> SFltb b a = true.
Proof.
  unfold SFleb, SFltb.
  destruct a as [sa|sa| |sa ma ea], b as [sb|sb| |sb mb eb]; simpl;
    try congruence;
    try (destruct sa; try congruence); try (destruct sb; try congruence);
    simpl; try congruence.
  all: intros _ _; change (Pos.compare_cont Eq) with Pos.compare;
    rewrite (Z.compare_antisym ea eb); destruct (ea ?= eb)%Z; simpl; try congruence;
    rewrite (Pos.compare_antisym ma mb); destruct (ma ?= mb)%positive; simpl; congruence.
Qed.

Lemma SFcompare_refl (a : spec_float) :
  a <> S754_nan -> SFcompare a a = Some Eq.
Proof.
  destruct a as [s|s| |s m e]; simpl; intros H;
    try congruence; try (destruct s; reflexivity).
  destruct s; rewrite Z.compare_refl;
    change (Pos.compare_cont Eq m m) with (Pos.compare m m);
    rewrite Pos.compare_refl; reflexivity.
Qed.

Lemma SFcompare_nan_l (b : spec_float) : SFcompare S754_nan b = None.
Proof. reflexivity. Qed.

Lemma SFcompare_nan_r (a : spec_float) : SFcompare a S754_nan = None.
Proof. destruct a as [s|s| |s m e]; reflexivity. Qed.

Lemma is_nan_false (x : float) :
  PrimFloat.is_nan x = false <-> Prim2SF x <> S754_nan.
Proof.
  unfold PrimFloat.is_nan. rewrite FloatAxioms.eqb_spec. unfold SFeqb. split.
  - intros H E. rewrite E in H. discriminate.
  - intros H. rewrite SFcompare_refl by exact H. reflexivity.
Qed.

Lemma leb_not_nan (a b : float) :
  PrimFloat.leb a b = true ->
  PrimFloat.is_nan a = false /\ PrimFloat.is_nan b = false.
Proof.
  rewrite FloatAxioms.leb_spec, !is_nan_false. unfold SFleb. intros H.
  split; intros E; rewrite E in H;
    [rewrite SFcompare_nan_l in H | rewrite SFcompare_nan_r in H]; discriminate.
Qed.

Lemma ltb_leb (a b : float) :
  PrimFloat.ltb a b = true -> PrimFloat.leb a b = true.
Proof.
  rewrite FloatAxioms.ltb_spec, FloatAxioms.leb_spec. unfold SFltb, SFleb.
  destruct (SFcompare (Prim2SF a) (Prim2SF b)) as [[]|]; congruence.
Qed.

Lemma leb_refl (a : float) :
  PrimFloat.is_nan a = false -> PrimFloat.leb a a = true.
Proof.
  rewrite is_nan_false, FloatAxioms.leb_spec. unfold SFleb. intros H.
  rewrite SFcompare_refl by exact H. reflexivity.
Qed.

Lemma leb_trans (a b c : float) :
  PrimFloat.leb a b = true -> PrimFloat.leb b c = true ->
  PrimFloat.leb a c = true.
Proof. rewrite !FloatAxioms.leb_spec. apply SFleb_trans. Qed.

Lemma leb_total (a b : float) :
  PrimFloat.is_nan a = false -> PrimFloat.is_nan b = false ->
  PrimFloat.leb a b = false -> PrimFloat.ltb b a = true.
Proof. rewrite !is_nan_false, FloatAxioms.leb_spec, FloatAxioms.ltb_spec. apply SFleb_total. Qed.

Lemma ltb_not_leb (a b : float) :
  PrimFloat.ltb a b = true -> PrimFloat.leb b a = false.
Proof.
  rewrite FloatAxioms.ltb_spec, FloatAxioms.leb_spec. unfold SFltb, SFleb.
  rewrite (SFcompare_antisym (Prim2SF a) (Prim2SF b)).
  destruct (SFcompare (Prim2SF a) (Prim2SF b)) as [[]|]; simpl; congruence.
Qed.

Lemma leb_ltb_trans (a b c : float) :
  PrimFloat.leb a b = true -> PrimFloat.ltb b c = true ->
  PrimFloat.ltb a c = true.
Proof.
  intros Hab Hbc.
  destruct (leb_not_nan _ _ Hab) as [Ha _].
  destruct (leb_not_nan _ _ (ltb_leb _ _ Hbc)) as [_ Hc].
  destruct (PrimFloat.leb c a) eqn:E.
  - pose proof (leb_trans _ _ _ E Hab) as H.
    rewrite (ltb_not_leb _ _ Hbc) in H. discriminate.
  - apply leb_total; assumption.
Qed.

End FloatOrder.

(** ** The edge detector, cell by cell *)

Section DetectorCells.

Import Detector.

Lemma nth_map_seq {A : Type} (f : nat -> A) (n i : nat) (d : A) :
  (i < n)%nat -> nth i (map f (seq 0 n)) d = f i.
Proof.
  intros Hi. rewrite (nth_indep _ d (f 0%nat)) by (rewrite length_map, length_seq; exact Hi).
  rewrite (map_nth f (seq 0 n) 0%nat i). rewrite seq_nth by exact Hi. reflexivity.
Qed.

Lemma rect_item_len (v : ndarray3) (n0 n1 n2 t i : nat) :
  rect v n0 n1 n2 -> (t < n0)%nat ->
  length (nth t v []) = n1 /\
  ((i < n1)%nat -> length (nth i (nth t v []) []) = n2).
Proof.
  intros [Hl Hf] Ht. rewrite Forall_forall in Hf.
  assert (Hin : In (nth t v []) v) by (apply nth_In; lia).
  destruct (Hf _ Hin) as [H1 H2]. split; [exact H1|].
  intros Hi. rewrite Forall_forall in H2. apply H2. apply nth_In. lia.
Qed.

Lemma shape_rect (v : ndarray3) (n0 n1 n2 : nat) :
  rect v n0 n1 n2 -> (0 < n0)%nat -> (0 < n1)%nat -> shape v = (n0, n1, n2).
Proof.
  intros Hr H0 H1. unfold shape.
  destruct (rect_item_len v n0 n1 n2 0 0 Hr H0) as [Ha Hb].
  specialize (Hb H1). destruct Hr as [Hl _].
  destruct v as [|sl v']; [simpl in Hl; lia|]. simpl in *.
  destruct sl as [|r sl']; [simpl in Ha; lia|]. simpl in *.
  rewrite Hl, Ha, Hb. reflexivity.
Qed.

Lemma shape_rect0 (v : ndarray3) (n0 n1 n2 : nat) :
  rect v n0 n1 n2 -> (0 < n0)%nat ->
  exists n2', shape v = (n0, n1, n2') /\ ((0 < n1)%nat -> n2' = n2).
Proof.
  intros Hr H0. destruct (Nat.eq_dec n1 0) as [E|E].
  - exists (length (hd [] (hd [] v))). split; [|lia].
    unfold shape. destruct (rect_item_len v n0 n1 n2 0 0 Hr H0) as [Ha _].
    destruct Hr as [Hl _]. destruct v; [simpl in Hl; lia|]. simpl in *.
    rewrite Hl, Ha. reflexivity.
  - exists n2. split; [apply shape_rect; auto; lia | auto].
Qed.

Lemma column_seq (v : ndarray3) (n0 i j : nat) :
  length v = n0 ->
  column v i j = map (fun t => item v t i j) (seq 0 n0).
Proof.
  intros Hl. unfold column, item. subst n0.
  apply nth_ext with (d := nan) (d' := nan).
  - rewrite !length_map, length_seq. reflexivity.
  - intros k Hk. rewrite length_map in Hk.
    rewrite nth_map_seq by exact Hk.
    rewrite (nth_indep _ nan ((fun sl => nth j (nth i sl []) nan) []))
      by (rewrite length_map; exact Hk).
    rewrite (map_nth (fun sl => nth j (nth i sl []) nan) v [] k). reflexivity.
Qed.

Lemma masked_less_at (v : ndarray3) (T : float) (n0 n1 n2 t i j : nat) :
  rect v n0 n1 n2 -> (t < n0)%nat -> (i < n1)%nat -> (j < n2)%nat ->
  masked_at (masked_less v T) t i j = PrimFloat.ltb (item v t i j) T.
Proof.
  intros Hr Ht Hi Hj. unfold masked_at, masked_less, item. simpl.
  destruct (rect_item_len v n0 n1 n2 t i Hr Ht) as [Ha Hb]. specialize (Hb Hi).
  destruct Hr as [Hl _].
  set (f := fun s => PrimFloat.ltb s T).
  rewrite (nth_indep _ [] (map (map f) [])) by (rewrite length_map; lia).
  rewrite (map_nth (map (map f)) v [] t).
  rewrite (nth_indep _ [] (map f [])) by (rewrite length_map; lia).
  rewrite (map_nth (map f) (nth t v []) [] i).
  rewrite (nth_indep _ true (f nan)) by (rewrite length_map; lia).
  rewrite (map_nth f (nth i (nth t v []) []) nan j). reflexivity.
Qed.

(** The reductions of [notmasked_edges] on one column. *)

Lemma fold_min_first (T : float) (g : nat -> float) (n s : nat) (acc : option nat) :
  (forall a, acc = Some a -> (a <= s)%nat) ->
  fold_left (step_edge Nat.min (fun t => PrimFloat.ltb (g t) T) (fun t => t))
            (seq s n) acc
  = match acc with
    | Some a => Some a
    | None => option_map (Nat.add s) (first_unmasked T (map g (seq s n)))
    end.
Proof.
  revert s acc. induction n as [|n IH]; intros s acc Hacc; simpl.
  - destruct acc; reflexivity.
  - unfold step_edge at 2. destruct (PrimFloat.ltb (g s) T) eqn:E.
    + rewrite IH by (intros a Ha; specialize (Hacc a Ha); lia).
      destruct acc; [reflexivity|].
      destruct (first_unmasked T (map g (seq (S s) n))); simpl; [f_equal; lia|reflexivity].
    + destruct acc as [a|].
      * rewrite IH by (intros a' Ha'; inversion Ha'; specialize (Hacc a eq_refl); lia).
        f_equal. specialize (Hacc a eq_refl). lia.
      * rewrite IH by (intros a' Ha'; inversion Ha'; lia).
        simpl. f_equal. lia.
Qed.

Lemma fold_max_last (T : float) (g : nat -> float) (n s : nat) (acc : option nat) :
  (forall a, acc = Some a -> (a <= s)%nat) ->
  fold_left (step_edge Nat.max (fun t => PrimFloat.ltb (g t) T) (fun t => t))
            (seq s n) acc
  = match last_unmasked T (map g (seq s n)) with
    | Some k => Some (s + k)%nat
    | None => acc
    end.
Proof.
  revert s acc. induction n as [|n IH]; intros s acc Hacc; simpl.
  - reflexivity.
  - unfold step_edge at 2. destruct (PrimFloat.ltb (g s) T) eqn:E.
    + rewrite IH by (intros a Ha; specialize (Hacc a Ha); lia).
      destruct (last_unmasked T (map g (seq (S s) n))); [f_equal; lia|reflexivity].
    + rewrite IH.
      * destruct (last_unmasked T (map g (seq (S s) n))); [f_equal; lia|].
        destruct acc as [a|]; f_equal; [specialize (Hacc a eq_refl)|]; lia.
      * intros a Ha. destruct acc as [a'|]; inversion Ha; subst.
        -- specialize (Hacc a' eq_refl). lia.
        -- lia.
Qed.

Lemma first_unmasked_has (T : float) (l : list float) :
  first_unmasked T l = None <-> has_unmasked T l = false.
Proof.
  induction l as [|s r IH]; simpl; [tauto|].
  destruct (PrimFloat.ltb s T); simpl.
  - destruct (first_unmasked T r); simpl in *; split; intros H; try discriminate;
      try (apply IH; auto). apply IH in H. discriminate.
  - split; discriminate.
Qed.

Lemma last_unmasked_has (T : float) (l : list float) :
  last_unmasked T l = None <-> has_unmasked T l = false.
Proof.
  induction l as [|s r IH]; simpl; [tauto|].
  destruct (last_unmasked T r).
  - split; [discriminate|]. intros H. apply orb_false_iff in H.
    destruct H as [_ H]. apply IH in H. discriminate.
  - destruct (PrimFloat.ltb s T); simpl.
    + split; intros _; [apply IH|]; reflexivity.
    + split; discriminate.
Qed.

Lemma fold_const (op : nat -> nat -> nat) (T : float) (g : nat -> float) (c n s : nat) :
  op c c = c ->
  forall acc, (acc = None \/ acc = Some c) ->
  fold_left (step_edge op (fun t => PrimFloat.ltb (g t) T) (fun _ => c))
            (seq s n) acc
  = if has_unmasked T (map g (seq s n)) then Some c else acc.
Proof.
  intros Hop. revert s. induction n as [|n IH]; intros s acc Hacc; simpl.
  - reflexivity.
  - unfold step_edge at 2. destruct (PrimFloat.ltb (g s) T) eqn:E; simpl.
    + apply IH. exact Hacc.
    + rewrite IH.
      * destruct (has_unmasked T (map g (seq (S s) n))); [reflexivity|].
        destruct Hacc as [->| ->]; [reflexivity|]. rewrite Hop. reflexivity.
      * right. destruct Hacc as [->| ->]; [reflexivity|]. rewrite Hop. reflexivity.
Qed.

(** Lists updated in place. *)

Lemma nth_update {A : Type} (l : list A) (i k : nat) (x d : A) :
  (i < length l)%nat ->
  nth k (firstn i l ++ x :: skipn (S i) l) d
  = if Nat.eqb k i then x else nth k l d.
Proof.
  intros Hi.
  assert (Hf : length (firstn i l) = i) by (rewrite length_firstn; lia).
  destruct (Nat.eqb_spec k i) as [->|Hne].
  - rewrite app_nth2 by lia. rewrite Hf, Nat.sub_diag. reflexivity.
  - destruct (Nat.lt_ge_cases k i) as [Hlt|Hge].
    + rewrite app_nth1 by lia. rewrite nth_firstn.
      destruct (Nat.ltb_spec k i); [reflexivity|lia].
    + rewrite app_nth2 by lia. rewrite Hf.
      destruct (k - i)%nat as [|m] eqn:E; [lia|]. cbn [nth].
      rewrite nth_skipn. f_equal. lia.
Qed.

Lemma length_update {A : Type} (l : list A) (i : nat) (x : A) :
  (i < length l)%nat ->
  length (firstn i l ++ x :: skipn (S i) l) = length l.
Proof.
  intros Hi. rewrite length_app, length_firstn. cbn [length].
  rewrite length_skipn. lia.
Qed.

Lemma Forall_take_drop {A : Type} (P : A -> Prop) (n : nat) (l : list A) :
  Forall P l -> Forall P (firstn n l) /\ Forall P (skipn n l).
Proof.
  intros H. rewrite <- (firstn_skipn n l) in H. apply Forall_app in H. exact H.
Qed.

Lemma shape2_row {A : Type} (a : list (list A)) (r c i : nat) :
  shape2 a r c -> (i < r)%nat -> length (nth i a []) = c.
Proof.
  intros [Hl Hf] Hi. rewrite Forall_forall in Hf. apply Hf. apply nth_In. lia.
Qed.

Lemma set2_spec (a a' : list (list num)) (r c i j : nat) (v : num) :
  shape2 a r c -> set2 a i j v = Return a' ->
  (i < r)%nat /\ (j < c)%nat /\ shape2 a' r c /\
  forall i' j', get2 a' i' j'
                = if Nat.eqb i' i && Nat.eqb j' j then v else get2 a i' j'.
Proof.
  intros Hs H. unfold set2 in H.
  destruct (nth_error a i) as [row|] eqn:En; [|discriminate].
  assert (Hi : (i < length a)%nat) by (apply nth_error_Some; congruence).
  assert (Hrow : row = nth i a []) by (symmetry; apply nth_error_nth; exact En).
  destruct (Nat.ltb_spec j (length row)) as [Hj|Hj]; [|discriminate].
  injection H as H; subst a'.
  change (match row with [] => [] | _ :: l => skipn j l end)
    with (skipn (S j) row).
  change (match a with [] => [] | _ :: l => skipn i l end)
    with (skipn (S i) a).
  pose proof (shape2_row a r c i Hs) as Hlen. destruct Hs as [Hl Hf].
  assert (Hir : (i < r)%nat) by lia. specialize (Hlen Hir).
  rewrite <- Hrow in Hlen.
  split; [exact Hir|]. split; [lia|]. split.
  - split; [rewrite length_update; auto|].
    apply Forall_app. split; [apply Forall_take_drop; exact Hf|].
    constructor; [rewrite length_update; auto | apply Forall_take_drop; exact Hf].
  - intros i' j'. unfold get2. rewrite nth_update by exact Hi.
    destruct (Nat.eqb_spec i' i) as [->|Hne]; cbn [andb]; [|reflexivity].
    rewrite nth_update by exact Hj. rewrite <- Hrow. reflexivity.
Qed.

Lemma get2_full_nan (r c i j : nat) : get2 (full_nan r c) i j = NaN.
Proof.
  unfold get2, full_nan.
  destruct (Nat.lt_ge_cases i r) as [Hi|Hi].
  - rewrite (nth_indep _ [] (repeat NaN c)) by (rewrite repeat_length; exact Hi).
    rewrite nth_repeat.
    destruct (Nat.lt_ge_cases j c) as [Hj|Hj].
    + apply nth_repeat.
    + apply nth_overflow. rewrite repeat_length. exact Hj.
  - rewrite (nth_overflow (repeat (repeat NaN c) r)) by (rewrite repeat_length; exact Hi).
    destruct j; reflexivity.
Qed.

Lemma shape2_full_nan (r c : nat) : shape2 (full_nan r c) r c.
Proof.
  unfold full_nan. split; [apply repeat_length|].
  apply Forall_forall. intros row Hin. apply repeat_spec in Hin. subst row.
  apply repeat_length.
Qed.

(** The edge lists of [notmasked_edges] are parallel: entry [k] of each
    belongs to the [k]-th cell, in C order, that has an unmasked sample. *)

Lemma extract_edges_spec (sel : list (nat * nat)) (hf hl : nat * nat -> nat)
    (r c : nat) :
  let oi := ((map hf sel, map fst sel, map snd sel),
             (map hl sel, map fst sel, map snd sel)) in
  forall n s o w o' w',
    (s + n = length sel)%nat ->
    shape2 o r c -> shape2 w r c ->
    extract_edges (seq s n) oi o w = Return (o', w') ->
    shape2 o' r c /\ shape2 w' r c /\
    (forall i j, get2 o' i j
                 = if existsb (cell_eqb (i, j)) (skipn s sel)
                   then Num (Z.of_nat (hf (i, j)) + 1) else get2 o i j) /\
    (forall i j, get2 w' i j
                 = if existsb (cell_eqb (i, j)) (skipn s sel)
                   then Num (Z.of_nat (hl (i, j)) + 1) else get2 w i j).
Proof.
  intros oi n. induction n as [|n IH]; intros s o w o' w' Hlen Ho Hw H.
  - simpl in H. inversion H; subst. rewrite skipn_all2 by lia. simpl. auto.
  - simpl in H.
    assert (Hs : (s < length sel)%nat) by lia.
    destruct (nth_error sel s) as [cl|] eqn:En;
      [|apply nth_error_None in En; lia].
    assert (Hsk : skipn s sel = cl :: skipn (S s) sel).
    { clear - En. revert s En. induction sel as [|x sel IHs]; intros [|s] En;
        simpl in *; try discriminate; [inversion En; reflexivity|].
      apply IHs. exact En. }
    unfold get1 in H. rewrite !nth_error_map, En in H. simpl in H.
    destruct (set2 o (fst cl) (snd cl) (Num (Z.of_nat (hf cl) + 1))) as [o1|] eqn:E1;
      [|discriminate]. simpl in H.
    destruct (set2 w (fst cl) (snd cl) (Num (Z.of_nat (hl cl) + 1))) as [w1|] eqn:E2;
      [|discriminate]. simpl in H.
    destruct (set2_spec _ _ _ _ _ _ _ Ho E1) as (_ & _ & Ho1 & Hg1).
    destruct (set2_spec _ _ _ _ _ _ _ Hw E2) as (_ & _ & Hw1 & Hg2).
    destruct (IH (S s) o1 w1 o' w' ltac:(lia) Ho1 Hw1 H) as (Ho' & Hw' & Go & Gw).
    split; [exact Ho'|]. split; [exact Hw'|].
    rewrite Hsk. cbn [existsb].
    assert (Hcell : forall (i j : nat) (h : nat * nat -> nat) (old : num),
      (if existsb (cell_eqb (i, j)) (skipn (S s) sel)
       then Num (Z.of_nat (h (i, j)) + 1)
       else if Nat.eqb i (fst cl) && Nat.eqb j (snd cl)
            then Num (Z.of_nat (h cl) + 1) else old)
      = if cell_eqb (i, j) cl || existsb (cell_eqb (i, j)) (skipn (S s) sel)
        then Num (Z.of_nat (h (i, j)) + 1) else old).
    { intros i j h old. unfold cell_eqb at 2. cbn [fst snd].
      destruct (existsb (cell_eqb (i, j)) (skipn (S s) sel));
        [rewrite orb_true_r; reflexivity|].
      rewrite orb_false_r.
      destruct (Nat.eqb_spec i (fst cl)) as [E|E]; cbn [andb]; [|reflexivity].
      destruct (Nat.eqb_spec j (snd cl)) as [E'|E']; [|reflexivity].
      subst. destruct cl; reflexivity. }
    split; intros i j.
    + rewrite Go, Hg1. apply Hcell.
    + rewrite Gw, Hg2. apply Hcell.
Qed.

Lemma flat_map_prod {A B C : Type} (G : A -> B -> list C) (l1 : list A) (l2 : list B) :
  flat_map (fun i => flat_map (G i) l2) l1
  = flat_map (fun p => G (fst p) (snd p)) (list_prod l1 l2).
Proof.
  induction l1 as [|x l1 IH]; simpl; [reflexivity|].
  rewrite flat_map_app, IH. f_equal.
  clear. induction l2 as [|y l2 IH]; simpl; [reflexivity|]. rewrite IH. reflexivity.
Qed.

Lemma flat_map_filter {A B : Type} (G : A -> list B) (p : A -> bool) (h : A -> B)
    (l : list A) :
  (forall x, In x l -> G x = if p x then [h x] else []) ->
  flat_map G l = map h (filter p l).
Proof.
  induction l as [|x l IH]; intros HG; simpl; [reflexivity|].
  rewrite (HG x (or_introl eq_refl)). rewrite IH by (intros y Hy; apply HG; right; exact Hy).
  destruct (p x); reflexivity.
Qed.

Lemma compressed_cells (F : nat -> nat -> option nat) (n1 n2 : nat) :
  compressed (map (fun i => map (fun j => F i j) (seq 0 n2)) (seq 0 n1))
  = flat_map (fun p => match F (fst p) (snd p) with Some x => [x] | None => [] end)
             (list_prod (seq 0 n1) (seq 0 n2)).
Proof.
  unfold compressed.
  rewrite <- (flat_map_prod
                (fun i j => match F i j with Some x => [x] | None => [] end)).
  rewrite flat_map_concat_map, map_map, <- flat_map_concat_map.
  apply flat_map_ext. intros i.
  rewrite flat_map_concat_map, map_map, <- flat_map_concat_map. reflexivity.
Qed.

Lemma fold_left_ext_in {A B : Type} (f g : A -> B -> A) (l : list B) (a : A) :
  (forall acc t, In t l -> f acc t = g acc t) ->
  fold_left f l a = fold_left g l a.
Proof.
  revert a. induction l as [|x l IH]; intros a H; simpl; [reflexivity|].
  rewrite (H a x (or_introl eq_refl)). apply IH.
  intros acc t Ht. apply H. right. exact Ht.
Qed.

Section OneColumn.

Variables (v : ndarray3) (T : float) (n0 n1 n2 i j : nat).
Hypothesis Hrect : rect v n0 n1 n2.
Hypothesis Hi : (i < n1)%nat.
Hypothesis Hj : (j < n2)%nat.

Lemma mask_ok :
  forall (op : nat -> nat -> nat) (idx : nat -> nat) (acc : option nat),
  fold_left (step_edge op (fun t => masked_at (masked_less v T) t i j) idx)
            (seq 0 n0) acc
  = fold_left (step_edge op (fun t => PrimFloat.ltb (item v t i j) T) idx)
              (seq 0 n0) acc.
Proof.
  intros op idx acc. apply fold_left_ext_in. intros a t Ht.
  apply in_seq in Ht. unfold step_edge.
  rewrite (masked_less_at v T n0 n1 n2 t i j) by (auto; lia). reflexivity.
Qed.

Lemma reduce_min_time :
  fold_left (step_edge Nat.min (fun t => masked_at (masked_less v T) t i j)
                       (fun t => t)) (seq 0 n0) None
  = first_unmasked T (column v i j).
Proof.
  rewrite mask_ok.
  rewrite (fold_min_first T (fun t => item v t i j)) by discriminate.
  rewrite <- (column_seq v n0 i j) by apply Hrect.
  destruct (first_unmasked T (column v i j)); reflexivity.
Qed.

Lemma reduce_max_time :
  fold_left (step_edge Nat.max (fun t => masked_at (masked_less v T) t i j)
                       (fun t => t)) (seq 0 n0) None
  = last_unmasked T (column v i j).
Proof.
  rewrite mask_ok.
  rewrite (fold_max_last T (fun t => item v t i j)) by discriminate.
  rewrite <- (column_seq v n0 i j) by apply Hrect.
  destruct (last_unmasked T (column v i j)); reflexivity.
Qed.

Lemma reduce_const (op : nat -> nat -> nat) (c : nat) :
  op c c = c ->
  fold_left (step_edge op (fun t => masked_at (masked_less v T) t i j)
                       (fun _ => c)) (seq 0 n0) None
  = if has_unmasked T (column v i j) then Some c else None.
Proof.
  intros Hop. rewrite mask_ok.
  rewrite (fold_const op T (fun t => item v t i j) c n0 0 Hop None) by (left; reflexivity).
  rewrite <- (column_seq v n0 i j) by apply Hrect. reflexivity.
Qed.

Lemma filled_column_seq :
  map (fun t => filled_at (masked_less v T) neg_infinity t i j) (seq 0 n0)
  = filled_column T (column v i j).
Proof.
  rewrite (column_seq v n0 i j) by apply Hrect.
  unfold filled_column. rewrite map_map. apply map_ext_in.
  intros t Ht. apply in_seq in Ht. unfold filled_at.
  rewrite (masked_less_at v T n0 n1 n2 t i j) by (auto; lia). reflexivity.
Qed.

End OneColumn.

Lemma notmasked_edges0_spec (v : ndarray3) (T : float) (n0 n1 n2 : nat) :
  rect v n0 n1 n2 -> (0 < n0)%nat ->
  let sel := edge_cells v T n1 n2 in
  notmasked_edges0 (masked_less v T)
  = Return ((map (first_pos v T) sel, map fst sel, map snd sel),
            (map (last_pos v T) sel, map fst sel, map snd sel)).
Proof.
  intros Hr H0 sel.
  destruct (shape_rect0 v n0 n1 n2 Hr H0) as (n2' & Hsh & Hn2).
  assert (Hcells : list_prod (seq 0 n1) (seq 0 n2') = list_prod (seq 0 n1) (seq 0 n2)).
  { destruct n1; [reflexivity|]. rewrite Hn2 by lia. reflexivity. }
  assert (Hin : forall c, In c (list_prod (seq 0 n1) (seq 0 n2)) ->
                          (fst c < n1)%nat /\ (snd c < n2)%nat).
  { intros [a b] Hc. apply in_prod_iff in Hc. rewrite !in_seq in Hc. simpl. lia. }
  unfold notmasked_edges0. simpl ma_data. rewrite Hsh.
  destruct (Nat.eqb_spec n0 0) as [E|_]; [lia|].
  unfold ma_reduce0. simpl ma_data. rewrite Hsh.
  rewrite !(compressed_cells _ n1 n2'), Hcells.
  f_equal. f_equal; f_equal; [f_equal| |f_equal|]; apply flat_map_filter;
    intros c Hc; destruct (Hin c Hc) as [Hi Hj].
  - rewrite (reduce_min_time v T n0 n1 n2 _ _ Hr Hi Hj). unfold first_pos.
    destruct (first_unmasked T (column v (fst c) (snd c))) eqn:E.
    + destruct (has_unmasked T (column v (fst c) (snd c))) eqn:E'; [reflexivity|].
      apply first_unmasked_has in E'. congruence.
    + apply first_unmasked_has in E. rewrite E. reflexivity.
  - rewrite (reduce_const v T n0 n1 n2 _ _ Hr Hi Hj) by apply Nat.min_id.
    destruct (has_unmasked T (column v (fst c) (snd c))); reflexivity.
  - rewrite (reduce_const v T n0 n1 n2 _ _ Hr Hi Hj) by apply Nat.min_id.
    destruct (has_unmasked T (column v (fst c) (snd c))); reflexivity.
  - rewrite (reduce_max_time v T n0 n1 n2 _ _ Hr Hi Hj). unfold last_pos.
    destruct (last_unmasked T (column v (fst c) (snd c))) eqn:E.
    + destruct (has_unmasked T (column v (fst c) (snd c))) eqn:E'; [reflexivity|].
      apply last_unmasked_has in E'. congruence.
    + apply last_unmasked_has in E. rewrite E. reflexivity.
  - rewrite (reduce_const v T n0 n1 n2 _ _ Hr Hi Hj) by apply Nat.max_id.
    destruct (has_unmasked T (column v (fst c) (snd c))); reflexivity.
  - rewrite (reduce_const v T n0 n1 n2 _ _ Hr Hi Hj) by apply Nat.max_id.
    destruct (has_unmasked T (column v (fst c) (snd c))); reflexivity.
Qed.

Lemma existsb_cell (c : nat * nat) (l : list (nat * nat)) :
  existsb (cell_eqb c) l = true <-> In c l.
Proof.
  rewrite existsb_exists. split.
  - intros (y & Hy & E). unfold cell_eqb in E. apply andb_true_iff in E.
    destruct E as [E1 E2]. apply Nat.eqb_eq in E1, E2.
    destruct c, y; simpl in *; subst. exact Hy.
  - intros H. exists c. split; [exact H|]. unfold cell_eqb.
    rewrite !Nat.eqb_refl. reflexivity.
Qed.

Lemma edge_cells_has (v : ndarray3) (T : float) (n1 n2 i j : nat) :
  (i < n1)%nat -> (j < n2)%nat ->
  existsb (cell_eqb (i, j)) (edge_cells v T n1 n2)
  = has_unmasked T (column v i j).
Proof.
  intros Hi Hj. apply eq_true_iff_eq. rewrite existsb_cell.
  unfold edge_cells. rewrite filter_In, in_prod_iff, !in_seq. simpl.
  split; [tauto|]. intros H. repeat split; auto; lia.
Qed.

Lemma get2_map2 (a b : list (list num)) (r c i j : nat) :
  shape2 a r c -> shape2 b r c ->
  get2 (map2 num_sub a b) i j = num_sub (get2 a i j) (get2 b i j).
Proof.
  intros Ha Hb. unfold get2, map2.
  set (G := fun p : num * num => num_sub (fst p) (snd p)).
  set (F := fun rr : list num * list num => map G (combine (fst rr) (snd rr))).
  change (@nil num) with (F ([], [])) at 1.
  rewrite (map_nth F (combine a b) ([], []) i).
  rewrite combine_nth by (destruct Ha, Hb; congruence).
  unfold F. cbn [fst snd].
  change NaN with (G (NaN, NaN)) at 1.
  rewrite (map_nth G _ (NaN, NaN) j).
  rewrite combine_nth; [reflexivity|].
  destruct (Nat.lt_ge_cases i r) as [Hi|Hi].
  - rewrite (shape2_row a r c i Ha Hi), (shape2_row b r c i Hb Hi). reflexivity.
  - destruct Ha as [La _], Hb as [Lb _].
    rewrite !nth_overflow by lia. reflexivity.
Qed.

Lemma make_dataarray2_inv {A : Type} (d d' : list (list A)) (r c : nat) :
  make_dataarray2 d r c = Return d' -> d' = d.
Proof.
  unfold make_dataarray2.
  destruct (_ && _); intros H; [injection H as H; auto | discriminate].
Qed.

Lemma bind_inv {A B : Type} (m : result A) (k : A -> result B) (b : B) :
  bind m k = Return b -> exists a, m = Return a /\ k a = Return b.
Proof.
  destruct m as [a|e]; simpl; intros H; [|discriminate]. exists a. auto.
Qed.

(** What [detect] returns, read cell by cell along axis 0. *)
Lemma detect_cell (x : DataArray) (T : float) (latdim londim pentaddim : string)
    (n0 n1 n2 : nat) (r : seasons) :
  rect (values x) n0 n1 n2 ->
  detect x T latdim londim pentaddim = Return r ->
  (0 < n0)%nat /\
  forall i j, (i < n1)%nat -> (j < n2)%nat ->
    let col := column (values x) i j in
    get2 (onset_pentad r) i j = edge_num (first_unmasked T col) /\
    get2 (withdrawal_pentad r) i j = edge_num (last_unmasked T col) /\
    get2 (peak_pentad r) i j = peak_of T col /\
    get2 (duration r) i j
    = num_sub (edge_num (last_unmasked T col)) (edge_num (first_unmasked T col)).
Proof.
  intros Hr H. unfold detect in H.
  set (v := values x) in *.
  assert (H0 : (0 < n0)%nat).
  { destruct n0; [|lia]. exfalso.
    unfold notmasked_edges0 in H. simpl ma_data in H.
    destruct Hr as [Hl _]. unfold shape in H. rewrite Hl in H. simpl in H.
    discriminate. }
  split; [exact H0|].
  rewrite (notmasked_edges0_spec v T n0 n1 n2 Hr H0) in H. cbn [bind] in H.
  apply bind_inv in H. destruct H as (nlat & Hla & H).
  apply bind_inv in H. destruct H as (nlon & Hlo & H).
  apply bind_inv in H. destruct H as (nlat' & Hla' & H).
  apply bind_inv in H. destruct H as (nlon' & Hlo' & H).
  assert (nlat' = nlat) by congruence. assert (nlon' = nlon) by congruence.
  subst nlat' nlon'. clear Hla' Hlo'.
  cbn beta iota in H.
  apply bind_inv in H. destruct H as ([o w] & Hext & H).
  apply bind_inv in H. destruct H as (o_p & Ho & H).
  apply bind_inv in H. destruct H as (w_p & Hw & H).
  apply bind_inv in H. destruct H as (am & Ham & H).
  apply bind_inv in H. destruct H as (pk & Hpk & H).
  injection H as H. subst r. cbn [onset_pentad withdrawal_pentad peak_pentad duration].
  apply make_dataarray2_inv in Ho, Hw, Hpk. subst o_p w_p pk.
  rewrite length_map in Hext.
  (* the two arrays loaded by the loop *)
  destruct (extract_edges_spec (edge_cells v T n1 n2) (first_pos v T) (last_pos v T)
              nlat nlon (length (edge_cells v T n1 n2)) 0 _ _ o w
              eq_refl (shape2_full_nan nlat nlon) (shape2_full_nan nlat nlon) Hext)
    as (So & Sw & Go & Gw).
  simpl skipn in Go, Gw.
  (* the argmax array *)
  unfold ma_argmax0 in Ham. simpl ma_data in Ham.
  destruct (shape_rect0 v n0 n1 n2 Hr H0) as (n2' & Hsh & Hn2).
  rewrite Hsh in Ham.
  destruct (Nat.eqb_spec n0 0) as [E|_]; [lia|]. injection Ham as Ham.
  intros i j Hi Hj.
  rewrite Go, Gw, !(edge_cells_has v T n1 n2 i j Hi Hj).
  assert (Eo : (if has_unmasked T (column v i j)
                then Num (Z.of_nat (first_pos v T (i, j)) + 1)
                else get2 (full_nan nlat nlon) i j)
               = edge_num (first_unmasked T (column v i j))).
  { rewrite get2_full_nan. unfold first_pos. cbn [fst snd].
    destruct (first_unmasked T (column v i j)) eqn:E.
    - destruct (has_unmasked T (column v i j)) eqn:E'; [reflexivity|].
      apply first_unmasked_has in E'. congruence.
    - apply first_unmasked_has in E. rewrite E. reflexivity. }
  assert (Ew : (if has_unmasked T (column v i j)
                then Num (Z.of_nat (last_pos v T (i, j)) + 1)
                else get2 (full_nan nlat nlon) i j)
               = edge_num (last_unmasked T (column v i j))).
  { rewrite get2_full_nan. unfold last_pos. cbn [fst snd].
    destruct (last_unmasked T (column v i j)) eqn:E.
    - destruct (has_unmasked T (column v i j)) eqn:E'; [reflexivity|].
      apply last_unmasked_has in E'. congruence.
    - apply last_unmasked_has in E. rewrite E. reflexivity. }
  split; [exact Eo|]. split; [exact Ew|]. split.
  - subst am. rewrite Hn2 by lia. unfold get2.
    rewrite !map_map.
    rewrite (nth_map_seq _ n1 i []) by exact Hi.
    rewrite !map_map.
    rewrite (nth_map_seq _ n2 j NaN) by exact Hj.
    rewrite (filled_column_seq v T n0 n1 n2 i j Hr Hi Hj). reflexivity.
  - rewrite (get2_map2 w o nlat nlon i j Sw So).
    rewrite Go, Gw, !(edge_cells_has v T n1 n2 i j Hi Hj), Eo, Ew. reflexivity.
Qed.

Lemma set2_returns (a : list (list num)) (r c i j : nat) (v : num) :
  shape2 a r c -> (i < r)%nat -> (j < c)%nat ->
  exists a', set2 a i j v = Return a'.
Proof.
  intros Hs Hi Hj. unfold set2.
  pose proof (shape2_row a r c i Hs Hi) as Hrow. destruct Hs as [Hl _].
  destruct (nth_error a i) as [row|] eqn:En;
    [|apply nth_error_None in En; lia].
  rewrite (nth_error_nth a i [] En) in Hrow.
  destruct (Nat.ltb_spec j (length row)) as [_|Hge]; [eauto|lia].
Qed.

Lemma extract_edges_returns (sel : list (nat * nat)) (hf hl : nat * nat -> nat)
    (r c : nat) :
  (forall cl, In cl sel -> (fst cl < r)%nat /\ (snd cl < c)%nat) ->
  let oi := ((map hf sel, map fst sel, map snd sel),
             (map hl sel, map fst sel, map snd sel)) in
  forall n s o w,
    (s + n = length sel)%nat -> shape2 o r c -> shape2 w r c ->
    exists ow, extract_edges (seq s n) oi o w = Return ow.
Proof.
  intros Hin oi n. induction n as [|n IH]; intros s o w Hlen Ho Hw.
  - simpl. eauto.
  - simpl.
    destruct (nth_error sel s) as [cl|] eqn:En;
      [|apply nth_error_None in En; lia].
    destruct (Hin cl (nth_error_In _ _ En)) as [Hi Hj].
    unfold get1. rewrite !nth_error_map, En. simpl.
    destruct (set2_returns o r c _ _ (Num (Z.of_nat (hf cl) + 1)) Ho Hi Hj) as [o1 E1].
    destruct (set2_returns w r c _ _ (Num (Z.of_nat (hl cl) + 1)) Hw Hi Hj) as [w1 E2].
    rewrite E1. simpl. rewrite E2. simpl.
    destruct (set2_spec _ _ _ _ _ _ _ Ho E1) as (_ & _ & Ho1 & _).
    destruct (set2_spec _ _ _ _ _ _ _ Hw E2) as (_ & _ & Hw1 & _).
    apply IH; auto. lia.
Qed.

Lemma make_dataarray2_ok {A : Type} (d : list (list A)) (r c : nat) :
  shape2 d r c -> make_dataarray2 d r c = Return d.
Proof.
  intros [Hl Hf]. unfold make_dataarray2.
  rewrite Hl, Nat.eqb_refl. simpl.
  replace (forallb (fun row => Nat.eqb (length row) c) d) with true; [reflexivity|].
  symmetry. apply forallb_forall. rewrite Forall_forall in Hf.
  intros row Hrow. apply Nat.eqb_eq. apply Hf. exact Hrow.
Qed.

(** On a well-formed field whose second and third axes are the latitude and
    longitude dimensions, [detect] returns. *)
Lemma detect_returns (x : DataArray) (T : float) (latdim londim pentaddim : string)
    (n0 n1 n2 : nat) :
  rect (values x) n0 n1 n2 -> (0 < n0)%nat ->
  axis_len x latdim = Return n1 -> axis_len x londim = Return n2 ->
  exists r, detect x T latdim londim pentaddim = Return r.
Proof.
  intros Hr H0 Hla Hlo. unfold detect.
  set (v := values x) in *.
  rewrite (notmasked_edges0_spec v T n0 n1 n2 Hr H0). cbn [bind].
  rewrite Hla, Hlo. cbn [bind]. cbn beta iota. rewrite length_map.
  destruct (extract_edges_returns (edge_cells v T n1 n2) (first_pos v T)
              (last_pos v T) n1 n2) with (n := length (edge_cells v T n1 n2))
              (s := 0%nat) (o := full_nan n1 n2) (w := full_nan n1 n2)
    as [[o w] Hext]; auto using shape2_full_nan.
  { intros [a b] Hc. unfold edge_cells in Hc. apply filter_In in Hc.
    destruct Hc as [Hc _]. apply in_prod_iff in Hc. rewrite !in_seq in Hc.
    simpl. lia. }
  rewrite Hext. cbn [bind]. cbn beta iota.
  destruct (extract_edges_spec (edge_cells v T n1 n2) (first_pos v T) (last_pos v T)
              n1 n2 (length (edge_cells v T n1 n2)) 0 _ _ o w
              eq_refl (shape2_full_nan n1 n2) (shape2_full_nan n1 n2) Hext)
    as (So & Sw & _ & _).
  rewrite (make_dataarray2_ok o n1 n2 So), (make_dataarray2_ok w n1 n2 Sw).
  cbn [bind].
  unfold ma_argmax0. simpl ma_data.
  destruct (shape_rect0 v n0 n1 n2 Hr H0) as (n2' & Hsh & Hn2).
  rewrite Hsh. destruct (Nat.eqb_spec n0 0) as [E|_]; [lia|]. cbn [bind].
  rewrite make_dataarray2_ok; [cbn [bind]; eauto|].
  split.
  - rewrite !length_map, length_seq. reflexivity.
  - apply Forall_forall. intros row Hrow.
    apply in_map_iff in Hrow. destruct Hrow as (row' & <- & Hrow').
    apply in_map_iff in Hrow'. destruct Hrow' as (i & <- & Hi).
    apply in_seq in Hi. rewrite !length_map, length_seq. apply Hn2. lia.
Qed.

Lemma column_length (v : ndarray3) (i j : nat) :
  length (column v i j) = length v.
Proof. unfold column. apply length_map. Qed.

Lemma all_masked_edges (T : float) (l : list float) :
  (forall s, In s l -> PrimFloat.ltb s T = true) ->
  first_unmasked T l = None /\ last_unmasked T l = None.
Proof.
  intros H.
  assert (Hh : has_unmasked T l = false).
  { unfold has_unmasked. apply not_true_is_false. intros E.
    apply existsb_exists in E. destruct E as (s & Hs & E).
    rewrite (H s Hs) in E. discriminate. }
  split; [apply first_unmasked_has | apply last_unmasked_has]; exact Hh.
Qed.

Lemma none_masked_edges (T : float) (l : list float) :
  l <> [] ->
  (forall s, In s l -> PrimFloat.ltb s T = false) ->
  first_unmasked T l = Some 0%nat /\
  last_unmasked T l = Some (length l - 1)%nat.
Proof.
  intros Hne H. split.
  - destruct l as [|s r]; [congruence|]. simpl.
    rewrite (H s (or_introl eq_refl)). reflexivity.
  - destruct l as [|s r]; [congruence|]. clear Hne.
    cbn [length]. rewrite Nat.sub_succ, Nat.sub_0_r.
    revert s H. induction r as [|s' r' IH]; intros s H.
    + simpl. rewrite (H s (or_introl eq_refl)). reflexivity.
    + cbn [last_unmasked length] in *.
      rewrite (IH s') by (intros y Hy; apply H; right; exact Hy). reflexivity.
Qed.

Lemma argmax_loop_bound (l : list float) (i : nat) (mp : float) (k : nat) :
  (k < i)%nat -> (argmax_loop l i mp k < i + length l)%nat.
Proof.
  revert i mp k. induction l as [|x r IH]; intros i mp k Hk; simpl; [lia|].
  destruct (PrimFloat.leb x mp).
  - specialize (IH (S i) mp k). lia.
  - destruct (is_nan x); [lia|]. specialize (IH (S i) x i). lia.
Qed.

Lemma np_argmax_bound (l : list float) :
  l <> [] -> (np_argmax l < length l)%nat.
Proof.
  destruct l as [|x r]; [congruence|]. intros _. simpl.
  destruct (is_nan x); [lia|].
  pose proof (argmax_loop_bound r 1 x 0). lia.
Qed.

Lemma argmax_loop_spec (r pre : list float) (mp : float) (k : nat) :
  no_nan (pre ++ r) ->
  (k < length pre)%nat -> nth k pre nan = mp ->
  (forall t, (t < length pre)%nat -> PrimFloat.leb (nth t pre nan) mp = true) ->
  (forall t, (t < k)%nat -> PrimFloat.ltb (nth t pre nan) mp = true) ->
  let l := pre ++ r in
  let res := argmax_loop r (length pre) mp k in
  (res < length l)%nat /\
  (forall t, (t < length l)%nat ->
     PrimFloat.leb (nth t l nan) (nth res l nan) = true) /\
  (forall t, (t < res)%nat ->
     PrimFloat.ltb (nth t l nan) (nth res l nan) = true).
Proof.
  revert pre mp k. induction r as [|x r IH]; intros pre mp k Hnn Hk Hmp Hle Hlt.
  - cbn [argmax_loop]. rewrite app_nil_r. cbv zeta. rewrite Hmp.
    split; [exact Hk|]. split; assumption.
  - cbn [argmax_loop]. cbv zeta.
    assert (Hx : PrimFloat.is_nan x = false).
    { unfold no_nan in Hnn. rewrite Forall_forall in Hnn. apply Hnn.
      apply in_or_app. right. left. reflexivity. }
    assert (Happ : pre ++ x :: r = (pre ++ [x]) ++ r)
      by (rewrite <- app_assoc; reflexivity).
    assert (Hlen : length (pre ++ [x]) = S (length pre))
      by (rewrite length_app; simpl; lia).
    destruct (PrimFloat.leb x mp) eqn:E.
    + rewrite Happ, <- Hlen. apply IH.
      * rewrite <- Happ. exact Hnn.
      * rewrite Hlen. lia.
      * rewrite app_nth1 by exact Hk. exact Hmp.
      * intros t Ht. rewrite Hlen in Ht.
        destruct (Nat.eq_dec t (length pre)) as [->|Hne].
        -- rewrite nth_middle. exact E.
        -- rewrite app_nth1 by lia. apply Hle. lia.
      * intros t Ht. rewrite app_nth1 by lia. apply Hlt. exact Ht.
    + rewrite Hx.
      assert (Hm : PrimFloat.is_nan mp = false).
      { rewrite <- Hmp. unfold no_nan in Hnn. rewrite Forall_forall in Hnn.
        apply Hnn. apply in_or_app. left. apply nth_In. exact Hk. }
      pose proof (leb_total x mp Hx Hm E) as Hgt.
      rewrite Happ, <- Hlen. apply IH.
      * rewrite <- Happ. exact Hnn.
      * rewrite Hlen. lia.
      * rewrite nth_middle. reflexivity.
      * intros t Ht. rewrite Hlen in Ht.
        destruct (Nat.eq_dec t (length pre)) as [->|Hne].
        -- rewrite nth_middle. apply leb_refl. exact Hx.
        -- rewrite app_nth1 by lia.
           apply ltb_leb. apply (leb_ltb_trans _ mp); [apply Hle; lia | exact Hgt].
      * intros t Ht. rewrite app_nth1 by lia.
        apply (leb_ltb_trans _ mp); [apply Hle; exact Ht | exact Hgt].
Qed.

(** On a series without NaN the argmax is the first position of the largest
    value. *)
Lemma np_argmax_first_max (l : list float) :
  l <> [] -> no_nan l ->
  (np_argmax l < length l)%nat /\
  (forall t, (t < length l)%nat ->
     PrimFloat.leb (nth t l nan) (nth (np_argmax l) l nan) = true) /\
  (forall t, (t < np_argmax l)%nat ->
     PrimFloat.ltb (nth t l nan) (nth (np_argmax l) l nan) = true).
Proof.
  destruct l as [|x r]; [congruence|]. intros _ Hnn.
  assert (Hx : PrimFloat.is_nan x = false) by (inversion Hnn; assumption).
  unfold np_argmax. rewrite Hx.
  apply (argmax_loop_spec r [x] x 0).
  - exact Hnn.
  - simpl. lia.
  - reflexivity.
  - intros t Ht. simpl in Ht. replace t with 0%nat by lia. simpl.
    apply leb_refl. exact Hx.
  - intros t Ht. lia.
Qed.

(** A NaN counts as the maximum: the argmax is the position of the first
    NaN. *)
Lemma argmax_loop_first_nan (l1 l2 : list float) (x mp : float) (i k : nat) :
  no_nan l1 -> PrimFloat.is_nan x = true ->
  argmax_loop (l1 ++ x :: l2) i mp k = (i + length l1)%nat.
Proof.
  revert i mp k. induction l1 as [|y l1 IH]; intros i mp k Hnn Hx.
  - cbn [app argmax_loop length].
    destruct (PrimFloat.leb x mp) eqn:E.
    + destruct (leb_not_nan _ _ E) as [H _]. congruence.
    + rewrite Hx. lia.
  - cbn [app argmax_loop length].
    assert (Hy : PrimFloat.is_nan y = false) by (inversion Hnn; assumption).
    assert (Hnn' : no_nan l1) by (inversion Hnn; assumption).
    destruct (PrimFloat.leb y mp).
    + rewrite IH by assumption. lia.
    + rewrite Hy, IH by assumption. lia.
Qed.

Lemma np_argmax_first_nan (l1 l2 : list float) (x : float) :
  no_nan l1 -> PrimFloat.is_nan x = true ->
  np_argmax (l1 ++ x :: l2) = length l1.
Proof.
  intros Hnn Hx. destruct l1 as [|y l1].
  - simpl. rewrite Hx. reflexivity.
  - cbn [app np_argmax length].
    assert (Hy : PrimFloat.is_nan y = false) by (inversion Hnn; assumption).
    assert (Hnn' : no_nan l1) by (inversion Hnn; assumption).
    rewrite Hy, argmax_loop_first_nan by assumption. reflexivity.
Qed.

End DetectorCells.

(** ** Claims on the edge detector *)

Section DetectorClaims.

Import Detector.
Open Scope string_scope.

(** C5 (as amended).  On a well-formed field with the pentads on axis 0, the
    detector returns, and for every grid cell: if every sample of the cell's
    series is below the threshold [T] (is masked), onset, withdrawal and
    duration are NaN; if every sample exceeds [T], onset is 1 and withdrawal
    is the length [L] of the time axis. *)
Theorem edge_detector_all_or_nothing
    (x : DataArray) (T : float) (latdim londim pentaddim : string)
    (L n1 n2 : nat) :
  rect (values x) L n1 n2 -> (0 < L)%nat ->
  axis_len x latdim = Return n1 -> axis_len x londim = Return n2 ->
  exists r, detect x T latdim londim pentaddim = Return r /\
    forall i j, (i < n1)%nat -> (j < n2)%nat ->
      let series := column (values x) i j in
      ((forall s, In s series -> PrimFloat.ltb s T = true) ->
         get2 (onset_pentad r) i j = NaN /\
         get2 (withdrawal_pentad r) i j = NaN /\
         get2 (duration r) i j = NaN) /\
      ((forall s, In s series -> PrimFloat.ltb T s = true) ->
         get2 (onset_pentad r) i j = Num 1 /\
         get2 (withdrawal_pentad r) i j = Num (Z.of_nat L)).
Proof.
  intros Hr H0 Hla Hlo.
  destruct (detect_returns x T latdim londim pentaddim L n1 n2 Hr H0 Hla Hlo)
    as [r Hdet].
  exists r. split; [exact Hdet|].
  destruct (detect_cell x T latdim londim pentaddim L n1 n2 r Hr Hdet) as [_ Hc].
  intros i j Hi Hj series.
  destruct (Hc i j Hi Hj) as (Ho & Hw & _ & Hd). fold series in Ho, Hw, Hd.
  split.
  - intros Hall. destruct (all_masked_edges T series Hall) as [E1 E2].
    rewrite Ho, Hw, Hd, E1, E2. auto.
  - intros Hall.
    assert (Hlen : length series = L).
    { unfold series. rewrite column_length. apply Hr. }
    destruct (none_masked_edges T series) as [E1 E2].
    + intros E. rewrite E in Hlen. simpl in Hlen. lia.
    + intros s Hs. apply ltb_asym. apply Hall. exact Hs.
    + rewrite Ho, Hw, E1, E2, Hlen. simpl. split; [reflexivity|].
      f_equal. lia.
Qed.

(** C6.  On a well-formed field with the pentads on axis 0 the detector
    returns, and the peak of every grid cell is the zero-based argmax of the
    cell's masked series (masked samples filled with -inf) plus one, replaced
    by NaN when that number is exactly 1; so a peak is NaN or a pentad
    number greater than 1 (and at most the length of the time axis).  Where
    the cell has no missing sample that argmax is the first position of the
    largest value of the filled series. *)
Theorem peak_is_argmax_plus_one
    (x : DataArray) (T : float) (latdim londim pentaddim : string)
    (L n1 n2 : nat) :
  rect (values x) L n1 n2 -> (0 < L)%nat ->
  axis_len x latdim = Return n1 -> axis_len x londim = Return n2 ->
  exists r, detect x T latdim londim pentaddim = Return r /\
    forall i j, (i < n1)%nat -> (j < n2)%nat ->
      let k := np_argmax (filled_column T (column (values x) i j)) in
      get2 (peak_pentad r) i j
        = (if Z.eqb (Z.of_nat k + 1) 1 then NaN else Num (Z.of_nat k + 1)) /\
      (get2 (peak_pentad r) i j = NaN \/
       exists z, get2 (peak_pentad r) i j = Num z /\ (1 < z <= Z.of_nat L)%Z) /\
      (no_nan (column (values x) i j) ->
       let filled := filled_column T (column (values x) i j) in
       (forall t, (t < L)%nat ->
          PrimFloat.leb (nth t filled nan) (nth k filled nan) = true) /\
       (forall t, (t < k)%nat ->
          PrimFloat.ltb (nth t filled nan) (nth k filled nan) = true)).
Proof.
  intros Hr H0 Hla Hlo.
  destruct (detect_returns x T latdim londim pentaddim L n1 n2 Hr H0 Hla Hlo)
    as [r Hdet].
  exists r. split; [exact Hdet|].
  destruct (detect_cell x T latdim londim pentaddim L n1 n2 r Hr Hdet) as [_ Hc].
  intros i j Hi Hj k.
  destruct (Hc i j Hi Hj) as (_ & _ & Hp & _).
  unfold peak_of in Hp. fold k in Hp. unfold where_, num_eqb in Hp.
  assert (Hlen : length (filled_column T (column (values x) i j)) = L).
  { unfold filled_column. rewrite length_map, column_length. apply Hr. }
  assert (Hne : filled_column T (column (values x) i j) <> []).
  { intros E. rewrite E in Hlen. simpl in Hlen. lia. }
  assert (Hk : (k < L)%nat).
  { unfold k. rewrite <- Hlen. apply np_argmax_bound. exact Hne. }
  split; [|split].
  - rewrite Hp. destruct (Z.eqb (Z.of_nat k + 1) 1); reflexivity.
  - rewrite Hp. destruct (Z.eqb_spec (Z.of_nat k + 1) 1) as [E|E]; simpl.
    + auto.
    + right. exists (Z.of_nat k + 1)%Z. split; [reflexivity|lia].
  - intros Hnn filled.
    destruct (np_argmax_first_max filled Hne) as (_ & Hle & Hlt).
    + unfold filled, filled_column, no_nan. apply Forall_map.
      unfold no_nan in Hnn. rewrite Forall_forall in Hnn |- *.
      intros s Hs. destruct (PrimFloat.ltb s T); [reflexivity|].
      apply Hnn. exact Hs.
    + split; [|exact Hlt].
      intros t Ht. apply Hle. unfold filled. rewrite Hlen. exact Ht.
Qed.

Lemma edge_detector_all_or_nothing_witness :
  exists r, wang_linho_detect field_mixed "lat" "lon" "pentad" = Return r /\
    (get2 (onset_pentad r) 0 0 = NaN /\
     get2 (withdrawal_pentad r) 0 0 = NaN /\
     get2 (duration r) 0 0 = NaN) /\
    (get2 (onset_pentad r) 0 1 = Num 1 /\
     get2 (withdrawal_pentad r) 0 1 = Num 3).
Proof.
  destruct (edge_detector_all_or_nothing field_mixed 5%float "lat" "lon" "pentad" 3 1 2)
    as (r & Hr & Hc).
  - split; [reflexivity | repeat constructor].
  - lia.
  - reflexivity.
  - reflexivity.
  - exists r. split; [exact Hr|]. split.
    + apply (Hc 0%nat 0%nat); [lia | lia |].
      intros s Hs. simpl in Hs.
      destruct Hs as [<-|[<-|[<-|[]]]]; reflexivity.
    + apply (Hc 0%nat 1%nat); [lia | lia |].
      intros s Hs. simpl in Hs.
      destruct Hs as [<-|[<-|[<-|[]]]]; reflexivity.
Defined.

(** C5 as stated fails: neither cell of [field_touch] ever exceeds 5 (the
    first reaches it exactly, the second is NaN throughout), and both get
    onset 1 and withdrawal 3 instead of NaN. *)
Lemma never_exceeding_cell_has_onset :
  exists r, wang_linho_detect field_touch "lat" "lon" "pentad" = Return r /\
    (forall j s, (j < 2)%nat -> In s (column (values field_touch) 0 j) ->
                 PrimFloat.ltb 5 s = false) /\
    get2 (onset_pentad r) 0 0 = Num 1 /\
    get2 (withdrawal_pentad r) 0 0 = Num 3 /\
    get2 (duration r) 0 0 = Num 2 /\
    get2 (onset_pentad r) 0 1 = Num 1 /\
    get2 (withdrawal_pentad r) 0 1 = Num 3.
Proof.
  eexists. split; [vm_compute; reflexivity|].
  split; [|repeat split; reflexivity].
  intros j s Hj Hs.
  destruct j as [|[|j]]; [| |lia]; simpl in Hs;
    destruct Hs as [<-|[<-|[<-|[]]]]; reflexivity.
Qed.

Lemma peak_is_argmax_plus_one_witness :
  exists r, wang_linho_detect field_mixed "lat" "lon" "pentad" = Return r /\
    get2 (peak_pentad r) 0 0 = NaN /\
    get2 (peak_pentad r) 0 1 = Num 2.
Proof.
  destruct (peak_is_argmax_plus_one field_mixed 5%float "lat" "lon" "pentad" 3 1 2)
    as (r & Hr & Hc).
  - split; [reflexivity | repeat constructor].
  - lia.
  - reflexivity.
  - reflexivity.
  - exists r. split; [exact Hr|]. split.
    + destruct (Hc 0%nat 0%nat) as [Hp _]; [lia | lia |]. exact Hp.
    + destruct (Hc 0%nat 1%nat) as [Hp _]; [lia | lia |]. exact Hp.
Defined.

(** C9.  Whatever the names and the order of the dimensions, and whatever
    [pentaddim] is, the onset, withdrawal and peak that [detect] returns for
    the output cell (i, j) are those of the samples [values[:, i, j]], the
    series along axis 0.  On [field_pentad_last], whose pentads are on the
    last axis, the cell at latitude 0 and longitude 0 crosses the threshold
    at its second pentad and is reported without onset. *)
Theorem detection_scans_axis0 :
  (forall (x : DataArray) (T : float) (latdim londim pentaddim : string)
          (n0 n1 n2 : nat) (r : seasons),
      rect (values x) n0 n1 n2 ->
      detect x T latdim londim pentaddim = Return r ->
      forall i j, (i < n1)%nat -> (j < n2)%nat ->
        let axis0 := column (values x) i j in
        get2 (onset_pentad r) i j = edge_num (first_unmasked T axis0) /\
        get2 (withdrawal_pentad r) i j = edge_num (last_unmasked T axis0) /\
        get2 (peak_pentad r) i j = peak_of T axis0) /\
  (exists r,
      wang_linho_detect field_pentad_last "lat" "lon" "pentad" = Return r /\
      let pentads := nth 0 (nth 0 (values field_pentad_last) []) [] in
      edge_num (first_unmasked 5 pentads) = Num 2 /\
      get2 (onset_pentad r) 0 0 = NaN).
Proof.
  split.
  - intros x T latdim londim pentaddim n0 n1 n2 r Hr Hdet i j Hi Hj axis0.
    destruct (detect_cell x T latdim londim pentaddim n0 n1 n2 r Hr Hdet) as [_ Hc].
    destruct (Hc i j Hi Hj) as (Ho & Hw & Hp & _). auto.
  - eexists. split; [vm_compute; reflexivity|]. split; reflexivity.
Qed.

Lemma detection_scans_axis0_witness :
  exists r, wang_linho_detect field_pentad_last "lat" "lon" "pentad" = Return r /\
    get2 (onset_pentad r) 1 0 = Num 2 /\
    get2 (withdrawal_pentad r) 1 0 = Num 2 /\
    get2 (peak_pentad r) 1 0 = Num 2.
Proof.
  destruct (detect_returns field_pentad_last 5%float "lat" "lon" "pentad" 2 2 2)
    as [r Hr].
  - split; [reflexivity | repeat constructor].
  - lia.
  - reflexivity.
  - reflexivity.
  - exists r. split; [exact Hr|].
    apply (proj1 detection_scans_axis0 field_pentad_last 5%float
                 "lat" "lon" "pentad" 2%nat 2%nat 2%nat r).
    + split; [reflexivity | repeat constructor].
    + exact Hr.
    + lia.
    + lia.
Defined.

End DetectorClaims.

(** ** Condition A of the Li-Zhang onset *)

Section LiZhangClaims.

Import LiZhang.

Lemma filter_id_length (l : list bool) :
  (length (filter (fun b => b) l) <= length l)%nat /\
  (length (filter (fun b => b) l) = length l <-> forall b, In b l -> b = true).
Proof.
  induction l as [|b l [IH1 IH2]]; simpl.
  - split; [lia|]. split; [intros _ b []|reflexivity].
  - destruct b; simpl.
    + split; [lia|]. split.
      * intros H b [<-|Hb]; [reflexivity|]. apply IH2; [lia|exact Hb].
      * intros H. f_equal. apply IH2. intros b Hb. apply H. right. exact Hb.
    + split; [lia|]. split; [lia|].
      intros H. specialize (H false (or_introl eq_refl)). discriminate.
Qed.

Lemma window_ok_sustained (cond : list bool) (p i : nat) :
  (i + p <= length cond)%nat ->
  (window_ok cond p i = true <-> sustained cond p i).
Proof.
  intros Hlen. unfold window_ok, window_sum, sustained.
  rewrite Nat.eqb_eq.
  assert (Hl : length (firstn p (skipn i cond)) = p).
  { rewrite length_firstn, length_skipn. lia. }
  destruct (filter_id_length (firstn p (skipn i cond))) as [_ Hiff].
  rewrite Hl in Hiff. rewrite Hiff. split.
  - intros H. split; [exact Hlen|]. intros k Hk. apply H.
    rewrite <- nth_skipn.
    rewrite <- (firstn_skipn p (skipn i cond)) at 1.
    rewrite app_nth1 by lia. apply nth_In. lia.
  - intros [_ H] b Hb. apply (In_nth _ _ false) in Hb.
    destruct Hb as (k & Hk & <-). rewrite Hl in Hk.
    rewrite nth_firstn. destruct (Nat.ltb_spec k p); [|lia].
    rewrite nth_skipn. apply H. exact Hk.
Qed.

Lemma fill_a_nth (cond : list bool) (p : nat) (steps : list nat) (a : list num)
    (k : nat) :
  (forall i, In i steps -> (i < length a)%nat) ->
  length (fill_a cond p steps a) = length a /\
  nth k (fill_a cond p steps a) NaN
  = if existsb (Nat.eqb k) steps then xr_where (window_ok cond p k) k
    else nth k a NaN.
Proof.
  revert a. induction steps as [|i rest IH]; intros a Hin; cbn [fill_a existsb].
  - auto.
  - assert (Hi : (i < length a)%nat) by (apply Hin; left; reflexivity).
    set (v := xr_where (Nat.eqb (window_sum cond i p) p) i).
    assert (Hls : length (set_time a i v) = length a)
      by (apply length_update; exact Hi).
    destruct (IH (set_time a i v)) as [Hl Hn].
    { intros j Hj. rewrite Hls. apply Hin. right. exact Hj. }
    split; [congruence|]. rewrite Hn.
    destruct (existsb (Nat.eqb k) rest); [rewrite orb_true_r; reflexivity|].
    rewrite orb_false_r. unfold set_time. rewrite nth_update by exact Hi.
    destruct (Nat.eqb_spec k i) as [->|_]; reflexivity.
Qed.

Lemma existsb_seq (k s n : nat) :
  existsb (Nat.eqb k) (seq s n) = (Nat.leb s k && Nat.ltb k (s + n)).
Proof.
  apply eq_true_iff_eq. rewrite existsb_exists, andb_true_iff.
  rewrite Nat.leb_le, Nat.ltb_lt. split.
  - intros (y & Hy & E). apply in_seq in Hy. apply Nat.eqb_eq in E. lia.
  - intros H. exists k. rewrite in_seq, Nat.eqb_refl. split; [lia|reflexivity].
Qed.

(** The candidates of the minimum: the windows that start at steps
    [1 .. len - p - 1]. *)
Lemma candidates_eq (cond : list bool) (p : nat) :
  let nt := length cond in
  isel_range (fill_a cond p (seq 0 (nt - p)) (repeat (Num 0) nt)) 1 (nt - p)
  = map (fun i => xr_where (window_ok cond p i) i) (seq 1 (nt - p - 1)).
Proof.
  intros nt. unfold isel_range.
  set (a := fill_a cond p (seq 0 (nt - p)) (repeat (Num 0) nt)).
  assert (Hin : forall i, In i (seq 0 (nt - p)) ->
                          (i < length (repeat (Num 0) nt))%nat).
  { intros i Hi. apply in_seq in Hi. rewrite repeat_length. lia. }
  assert (Hl : length a = nt).
  { unfold a. destruct (fill_a_nth cond p (seq 0 (nt - p)) (repeat (Num 0) nt) 0 Hin)
      as [Hl _]. rewrite Hl. apply repeat_length. }
  apply nth_ext with (d := NaN) (d' := NaN).
  - rewrite length_firstn, length_skipn, length_map, length_seq. lia.
  - intros k Hk. rewrite length_firstn, length_skipn in Hk.
    rewrite nth_firstn. destruct (Nat.ltb_spec k (nt - p - 1)) as [Hk'|Hk']; [|lia].
    rewrite nth_skipn.
    destruct (fill_a_nth cond p (seq 0 (nt - p)) (repeat (Num 0) nt) (1 + k) Hin)
      as [_ Hn]. fold a in Hn. rewrite Hn.
    rewrite existsb_seq.
    destruct (Nat.leb_spec 0 (1 + k)); [|lia].
    destruct (Nat.ltb_spec (1 + k) (0 + (nt - p))); [|lia]. simpl andb. cbv iota.
    rewrite (nth_indep _ NaN ((fun i => xr_where (window_ok cond p i) i) 0%nat))
      by (rewrite length_map, length_seq; lia).
    rewrite (map_nth (fun i => xr_where (window_ok cond p i) i)).
    rewrite seq_nth by lia. reflexivity.
Qed.

Lemma fold_nan_min_first (ok : nat -> bool) (n s : nat) (acc : num) :
  (forall z, acc = Num z -> (z < Z.of_nat s)%Z) ->
  fold_left nan_min (map (fun i => xr_where (ok i) i) (seq s n)) acc
  = match acc with
    | Num z => Num z
    | NaN => match find ok (seq s n) with
             | Some i => Num (Z.of_nat i)
             | None => NaN
             end
    end.
Proof.
  revert s acc. induction n as [|n IH]; intros s acc Hacc;
    cbn [seq map fold_left find].
  - destruct acc; reflexivity.
  - destruct (ok s) eqn:E; cbn [xr_where].
    + destruct acc as [|z]; cbn [nan_min].
      * rewrite IH by (intros z Hz; injection Hz as <-; lia). reflexivity.
      * specialize (Hacc z eq_refl).
        rewrite IH by (intros z' Hz'; injection Hz' as <-; lia).
        f_equal. lia.
    + destruct acc as [|z]; cbn [nan_min].
      * rewrite IH by discriminate. reflexivity.
      * rewrite IH; [reflexivity|].
        intros z' Hz'. injection Hz' as <-. specialize (Hacc z eq_refl). lia.
Qed.

(** The Condition-A onset index in closed form. *)
Lemma cond_a_onset_index_eq (cond : list bool) (p : nat) :
  (1 < length cond - p)%nat ->
  cond_a_onset_index cond p
  = Return match find (window_ok cond p) (seq 1 (length cond - p - 1)) with
           | Some i => Num (Z.of_nat i)
           | None => NaN
           end.
Proof.
  intros Hlen. unfold cond_a_onset_index.
  rewrite (candidates_eq cond p).
  destruct (length cond - p - 1)%nat as [|m] eqn:E; [lia|].
  unfold min_time.
  rewrite (fold_nan_min_first (window_ok cond p) (S m) 1 NaN) by discriminate.
  reflexivity.
Qed.

Lemma find_least (ok : nat -> bool) (s n i : nat) :
  find ok (seq s n) = Some i ->
  (s <= i < s + n)%nat /\ ok i = true /\
  forall j, (s <= j < i)%nat -> ok j = false.
Proof.
  revert s. induction n as [|n IH]; intros s; simpl; [discriminate|].
  destruct (ok s) eqn:E.
  - intros H. injection H as <-. repeat split; auto; lia.
  - intros H. destruct (IH (S s) H) as (Hr & Hok & Hm).
    repeat split; auto; try lia.
    intros j Hj. destruct (Nat.eq_dec j s) as [->|Hne]; [exact E|].
    apply Hm. lia.
Qed.

Lemma find_none (ok : nat -> bool) (s n : nat) :
  find ok (seq s n) = None -> forall j, (s <= j < s + n)%nat -> ok j = false.
Proof.
  intros H j Hj. apply (find_none _ _ H). apply in_seq. exact Hj.
Qed.

Lemma cond_a_onset_spec (cond : list bool) (p : nat) :
  (1 < length cond - p)%nat ->
  exists r, cond_a_onset_index cond p = Return r /\ earliest_from_1 cond p r.
Proof.
  intros Hlen. rewrite (cond_a_onset_index_eq cond p Hlen).
  eexists. split; [reflexivity|]. unfold earliest_from_1.
  destruct (find (window_ok cond p) (seq 1 (length cond - p - 1))) as [i|] eqn:E.
  - right. exists i. destruct (find_least _ _ _ _ E) as (Hr & Hok & Hm).
    split; [reflexivity|]. split; [lia|]. split.
    + apply window_ok_sustained; [lia|exact Hok].
    + intros j Hj Hs. apply window_ok_sustained in Hs; [|lia].
      rewrite (Hm j) in Hs by lia. discriminate.
  - left. split; [reflexivity|]. intros j Hj Hs.
    apply window_ok_sustained in Hs; [|lia].
    rewrite (find_none _ _ _ E j) in Hs by lia. discriminate.
Qed.

Lemma cond_a_onset_returns_inv (cond : list bool) (p : nat) (r : num) :
  cond_a_onset_index cond p = Return r -> (1 < length cond - p)%nat.
Proof.
  unfold cond_a_onset_index. rewrite (candidates_eq cond p).
  destruct (length cond - p - 1)%nat as [|m] eqn:E; [discriminate|]. lia.
Qed.

Lemma cond_a_length (beta : list float) (bj : float) :
  length (cond_a beta bj) = length beta.
Proof. apply length_map. Qed.

(** C10.  Whenever Condition A returns an onset for a cell, it is not step
    0: it is NaN or a step among [1 .. len(time) - p - 1], the only
    candidates of the minimum; and it does return when that range is not
    empty. *)
Theorem cond_a_onset_never_step0 (beta_onset : list float) (beta_julaug : float)
    (p : nat) :
  (forall r, li_zhang_cond_a beta_onset beta_julaug p = Return r ->
     r <> Num 0 /\
     (r = NaN \/
      exists i, r = Num (Z.of_nat i) /\
                (1 <= i <= length beta_onset - p - 1)%nat)) /\
  ((1 < length beta_onset - p)%nat ->
     exists r, li_zhang_cond_a beta_onset beta_julaug p = Return r).
Proof.
  unfold li_zhang_cond_a. split.
  - intros r Hr.
    pose proof (cond_a_onset_returns_inv _ _ _ Hr) as Hlen.
    destruct (cond_a_onset_spec _ p Hlen) as (r' & Hr' & Hspec).
    assert (r' = r) by congruence. subst r'.
    unfold earliest_from_1 in Hspec. rewrite cond_a_length in Hspec.
    destruct Hspec as [[-> _]|(i & -> & Hi & _)].
    + split; [discriminate|]. left. reflexivity.
    + split; [intros E; injection E as E; lia|]. right. exists i.
      split; [reflexivity | exact Hi].
  - intros Hlen. rewrite <- (cond_a_length beta_onset beta_julaug) in Hlen.
    destruct (cond_a_onset_spec _ p Hlen) as (r & Hr & _). eauto.
Qed.

Lemma cond_a_onset_never_step0_witness :
  li_zhang_cond_a beta_high 1%float 15 = Return (Num 1) /\
  Num 1 <> Num 0.
Proof.
  destruct (cond_a_onset_never_step0 beta_high 1%float 15) as [Hall Hret].
  destruct Hret as [r Hr]; [vm_compute; lia|].
  destruct (Hall r Hr) as [Hne _].
  assert (E : r = Num 1).
  { assert (E' : li_zhang_cond_a beta_high 1%float 15 = Return (Num 1))
      by (vm_compute; reflexivity).
    congruence. }
  subst r. split; [exact Hr | exact Hne].
Defined.






End LiZhangClaims.

(** ** The regional reducer *)

Section ReducerClaims.

Import Reducer.
Open Scope Q_scope.

Lemma Qltb_lt (a b : Q) : Qltb a b = true <-> a < b.
Proof.
  unfold Qltb. rewrite Qlt_alt. destruct (a ?= b); split; congruence.
Qed.

Lemma Qltb_ge (a b : Q) : Qltb a b = false <-> b <= a.
Proof.
  rewrite <- not_true_iff_false, Qltb_lt. split.
  - apply Qnot_lt_le.
  - apply Qle_not_lt.
Qed.



(** Rounding to two decimals gives zero exactly within half a hundredth. *)














End ReducerClaims.

(** ** South China Sea onset of Gao et al. *)

Section GaoClaims.

Import Gao.
Open Scope string_scope.

(** [area_mean] stops at its first line: [u] is neither one of its
    parameters nor a name of the module. *)
Lemma area_mean_NameError (X : Xarray) (var_in areacell : option (DataArray X)) :
  area_mean X var_in areacell = Raise (NameError "u").
Proof. reflexivity. Qed.

(** [gao_onset] never returns: it raises in one of the renamings or in
    [equiv_pot_t_ams], or else at the first call of [area_mean]. *)
Lemma gao_onset_raises (X : Xarray) (t q u : DataArray X)
    (areacell : option (DataArray X))
    (pdim punits pentaddim latdim londim : string) :
  (exists e, gao_onset X t q u areacell pdim punits pentaddim latdim londim
             = Raise e) /\
  (forall q' t' u' th,
      rename_coords X q pentaddim pdim punits latdim londim = Return q' ->
      rename_coords X t pentaddim pdim punits latdim londim = Return t' ->
      rename_coords X u pentaddim pdim punits latdim londim = Return u' ->
      equiv_pot_t_ams X t' q' = Return th ->
      gao_onset X t q u areacell pdim punits pentaddim latdim londim
      = Raise (NameError "u")).
Proof.
  unfold gao_onset. split.
  - destruct (rename_coords X q _ _ _ _ _) as [q'|e]; [|eexists; reflexivity].
    destruct (rename_coords X t _ _ _ _ _) as [t'|e]; [|eexists; reflexivity].
    destruct (rename_coords X u _ _ _ _ _) as [u'|e]; [|eexists; reflexivity].
    cbn [bind].
    destruct (equiv_pot_t_ams X t' q') as [[th_e th_es]|e];
      [|eexists; reflexivity].
    cbn [bind]. rewrite area_mean_NameError. eexists. reflexivity.
  - intros q' t' u' [th_e th_es] -> -> -> H. cbn [bind]. rewrite H.
    cbn [bind]. rewrite area_mean_NameError. reflexivity.
Qed.




End GaoClaims.

(** ** The harmonic smoother *)

Section SmootherFacts.

Import Smoother.
Open Scope R_scope.


Lemma Cadd_comm (z w : C) : Cadd z w = Cadd w z. Proof. csolve. Qed.
Lemma Cadd_assoc (z w v : C) : Cadd z (Cadd w v) = Cadd (Cadd z w) v. Proof. csolve. Qed.
Lemma Cadd_0_l (z : C) : Cadd C0 z = z. Proof. csolve. Qed.
Lemma Cadd_0_r (z : C) : Cadd z C0 = z. Proof. csolve. Qed.
Lemma Cmul_comm (z w : C) : Cmul z w = Cmul w z. Proof. csolve. Qed.
Lemma Cmul_assoc (z w v : C) : Cmul z (Cmul w v) = Cmul (Cmul z w) v. Proof. csolve. Qed.
Lemma Cmul_1_l (z : C) : Cmul C1 z = z. Proof. csolve. Qed.
Lemma Cmul_1_r (z : C) : Cmul z C1 = z. Proof. csolve. Qed.
Lemma Cmul_0_l (z : C) : Cmul C0 z = C0. Proof. csolve. Qed.
Lemma Cmul_0_r (z : C) : Cmul z C0 = C0. Proof. csolve. Qed.
Lemma Cmul_add_l (z w v : C) : Cmul z (Cadd w v) = Cadd (Cmul z w) (Cmul z v). Proof. csolve. Qed.
Lemma Cmul_add_r (z w v : C) : Cmul (Cadd w v) z = Cadd (Cmul w z) (Cmul v z). Proof. csolve. Qed.
Lemma Cscale_mul_l (r : R) (z w : C) : Cscale r (Cmul z w) = Cmul (Cscale r z) w. Proof. csolve. Qed.
Lemma Cscale_add (r : R) (z w : C) : Cscale r (Cadd z w) = Cadd (Cscale r z) (Cscale r w). Proof. csolve. Qed.
Lemma Cscale_0 (r : R) : Cscale r C0 = C0. Proof. csolve. Qed.
Lemma Cconj_add (z w : C) : Cconj (Cadd z w) = Cadd (Cconj z) (Cconj w). Proof. csolve. Qed.
Lemma Cconj_mul (z w : C) : Cconj (Cmul z w) = Cmul (Cconj z) (Cconj w). Proof. csolve. Qed.
Lemma Cconj_scale (r : R) (z : C) : Cconj (Cscale r z) = Cscale r (Cconj z). Proof. csolve. Qed.
Lemma Cconj_conj (z : C) : Cconj (Cconj z) = z. Proof. csolve. Qed.
Lemma Cconj_0 : Cconj C0 = C0. Proof. csolve. Qed.
Lemma Cconj_RtoC (r : R) : Cconj (RtoC r) = RtoC r. Proof. csolve. Qed.
Lemma RtoC_re (z : C) :
  RtoC (Cre z) = Cscale (/ 2) (Cadd z (Cconj z)).
Proof.
  unfold RtoC, Cre, Cscale, Cadd, Cconj.
  apply injective_projections; cbn [fst snd]; field.
Qed.
Lemma RtoC_add (a b : R) : RtoC (a + b) = Cadd (RtoC a) (RtoC b). Proof. csolve. Qed.
Lemma RtoC_mul_l (a : R) (z : C) : Cmul (RtoC a) z = Cscale a z. Proof. csolve. Qed.

(** Sums *)

Lemma Csum_ext (f g : nat -> C) (n : nat) :
  (forall t, (t < n)%nat -> f t = g t) -> Csum f n = Csum g n.
Proof.
  induction n as [|n IH]; intros H; simpl; [reflexivity|].
  rewrite IH by (intros t Ht; apply H; lia). rewrite H by lia. reflexivity.
Qed.

Lemma Csum_add (f g : nat -> C) (n : nat) :
  Csum (fun t => Cadd (f t) (g t)) n = Cadd (Csum f n) (Csum g n).
Proof.
  induction n as [|n IH]; simpl; [csolve|]. rewrite IH. csolve.
Qed.

Lemma Csum_mul_l (c : C) (f : nat -> C) (n : nat) :
  Csum (fun t => Cmul c (f t)) n = Cmul c (Csum f n).
Proof.
  induction n as [|n IH]; simpl; [csolve|]. rewrite IH, Cmul_add_l. reflexivity.
Qed.

Lemma Csum_mul_r (c : C) (f : nat -> C) (n : nat) :
  Csum (fun t => Cmul (f t) c) n = Cmul (Csum f n) c.
Proof.
  induction n as [|n IH]; simpl; [csolve|]. rewrite IH, Cmul_add_r. reflexivity.
Qed.

Lemma Csum_scale (r : R) (f : nat -> C) (n : nat) :
  Csum (fun t => Cscale r (f t)) n = Cscale r (Csum f n).
Proof.
  induction n as [|n IH]; simpl; [csolve|]. rewrite IH, Cscale_add. reflexivity.
Qed.

Lemma Csum_conj (f : nat -> C) (n : nat) :
  Csum (fun t => Cconj (f t)) n = Cconj (Csum f n).
Proof.
  induction n as [|n IH]; simpl; [csolve|]. rewrite IH, Cconj_add. reflexivity.
Qed.

Lemma Csum_0 (n : nat) : Csum (fun _ => C0) n = C0.
Proof. induction n as [|n IH]; simpl; [reflexivity|]. rewrite IH. csolve. Qed.

Lemma Csum_const (c : C) (n : nat) : Csum (fun _ => c) n = Cscale (INR n) c.
Proof.
  induction n as [|n IH]; [simpl; csolve|].
  cbn [Csum]. rewrite IH, S_INR. csolve.
Qed.

Lemma Csum_swap (f : nat -> nat -> C) (n m : nat) :
  Csum (fun t => Csum (fun k => f k t) n) m
  = Csum (fun k => Csum (fun t => f k t) m) n.
Proof.
  induction m as [|m IH]; simpl.
  - rewrite Csum_0. reflexivity.
  - rewrite IH, <- Csum_add. reflexivity.
Qed.

(** A sum with one term that is not zero. *)
Lemma Csum_single (f : nat -> C) (n j : nat) :
  (j < n)%nat -> (forall k, (k < n)%nat -> k <> j -> f k = C0) ->
  Csum f n = f j.
Proof.
  induction n as [|n IH]; intros Hj H; [lia|]. simpl.
  destruct (Nat.eq_dec j n) as [->|Hne].
  - rewrite (Csum_ext f (fun _ => C0)) by (intros t Ht; apply H; lia).
    rewrite Csum_0. csolve.
  - rewrite IH by (try lia; intros k Hk Hkj; apply H; lia).
    rewrite (H n) by lia. csolve.
Qed.

Lemma Cre_Csum (f : nat -> C) (n : nat) :
  Cre (Csum f n) = Rsum (fun t => Cre (f t)) n.
Proof.
  induction n as [|n IH]; simpl; [reflexivity|].
  rewrite <- IH. unfold Cre, Cadd. reflexivity.
Qed.

Lemma Rsum_ext (f g : nat -> R) (n : nat) :
  (forall t, (t < n)%nat -> f t = g t) -> Rsum f n = Rsum g n.
Proof.
  induction n as [|n IH]; intros H; simpl; [reflexivity|].
  rewrite IH by (intros t Ht; apply H; lia). rewrite H by lia. reflexivity.
Qed.

Lemma Rsum_add (f g : nat -> R) (n : nat) :
  Rsum (fun t => f t + g t) n = Rsum f n + Rsum g n.
Proof. induction n as [|n IH]; simpl; [ring|]. rewrite IH. ring. Qed.

Lemma Rsum_const (c : R) (n : nat) : Rsum (fun _ => c) n = INR n * c.
Proof.
  induction n as [|n IH]; [simpl; ring|]. cbn [Rsum]. rewrite IH, S_INR. ring.
Qed.

(** Roots of unity *)

Lemma root_add (L a b : nat) : root L (a + b) = Cmul (root L a) (root L b).
Proof.
  unfold root, Cmul. cbn [fst snd]. rewrite plus_INR.
  replace (2 * PI * (INR a + INR b) / INR L)
    with (2 * PI * INR a / INR L + 2 * PI * INR b / INR L)
    by (unfold Rdiv; ring).
  rewrite cos_plus, sin_plus. f_equal; ring.
Qed.

Lemma root_0 (L : nat) : root L 0 = C1.
Proof.
  unfold root, C1. simpl INR.
  replace (2 * PI * 0 / INR L) with 0 by (unfold Rdiv; ring).
  rewrite cos_0, sin_0. reflexivity.
Qed.

Lemma INR_pos_neq (L : nat) : (0 < L)%nat -> INR L <> 0.
Proof. intros H. apply not_0_INR. lia. Qed.

Lemma root_L (L : nat) : (0 < L)%nat -> root L L = C1.
Proof.
  intros HL. unfold root, C1.
  replace (2 * PI * INR L / INR L) with (2 * PI)
    by (field; apply INR_pos_neq; exact HL).
  rewrite cos_2PI, sin_2PI. reflexivity.
Qed.

Lemma root_mul_L (L k : nat) : (0 < L)%nat -> root L (k * L) = C1.
Proof.
  intros HL. induction k as [|k IH]; [apply root_0|].
  simpl Nat.mul. rewrite root_add, root_L, IH by exact HL. csolve.
Qed.

Lemma root_mod (L n : nat) : (0 < L)%nat -> root L n = root L (n mod L).
Proof.
  intros HL. rewrite (Nat.div_mod_eq n L) at 1.
  rewrite root_add, (Nat.mul_comm L), root_mul_L by exact HL. csolve.
Qed.

Lemma root_norm (L n : nat) :
  fst (root L n) * fst (root L n) + snd (root L n) * snd (root L n) = 1.
Proof.
  unfold root. cbn [fst snd].
  pose proof (sin2_cos2 (2 * PI * INR n / INR L)) as H. unfold Rsqr in H. lra.
Qed.

Lemma Cconj_inverse (z w : C) :
  fst z * fst z + snd z * snd z = 1 -> Cmul z w = C1 -> Cconj z = w.
Proof.
  intros Hn Hm.
  assert (E : Cmul (Cconj z) (Cmul z w) = w).
  { rewrite Cmul_assoc.
    replace (Cmul (Cconj z) z) with C1; [apply Cmul_1_l|].
    unfold Cmul, Cconj, C1. apply injective_projections; cbn [fst snd]; lra. }
  rewrite Hm, Cmul_1_r in E. exact E.
Qed.

(** [exp(-2 pi i j t / L) = exp(2 pi i (L - j) t / L)]. *)
Lemma root_conj (L j t : nat) :
  (0 < L)%nat -> (j <= L)%nat ->
  Cconj (root L (j * t)) = root L ((L - j) * t).
Proof.
  intros HL Hj. apply Cconj_inverse; [apply root_norm|].
  rewrite <- root_add.
  replace (j * t + (L - j) * t)%nat with (t * L)%nat by nia.
  apply root_mul_L. exact HL.
Qed.

Lemma root_neq_1 (L r : nat) : (0 < r < L)%nat -> root L r <> C1.
Proof.
  intros [Hr HL] E. apply (f_equal fst) in E. unfold root, C1 in E.
  cbn [fst] in E.
  assert (HLR : 0 < INR L) by (apply lt_0_INR; lia).
  assert (HrR : 0 < INR r) by (apply lt_0_INR; lia).
  assert (HrL : INR r < INR L) by (apply lt_INR; lia).
  replace (2 * PI * INR r / INR L) with (2 * (PI * INR r / INR L)) in E
    by (unfold Rdiv; ring).
  rewrite cos_2a_sin in E.
  assert (Hs : 0 < sin (PI * INR r / INR L)).
  { pose proof PI_RGT_0 as Hpi. apply sin_gt_0.
    - apply Rdiv_lt_0_compat; [apply Rmult_lt_0_compat|]; assumption.
    - apply Rmult_lt_reg_r with (INR L); [exact HLR|].
      unfold Rdiv. rewrite Rmult_assoc, Rinv_l by lra.
      rewrite Rmult_1_r. apply Rmult_lt_compat_l; assumption. }
  nra.
Qed.

Lemma Cmul_integral (s w : C) : Cmul s w = C0 -> w <> C0 -> s = C0.
Proof.
  destruct s as [a b], w as [c d]. unfold Cmul, C0. cbn [fst snd].
  intros E Hw. injection E as E1 E2.
  assert (Hn : c * c + d * d <> 0).
  { intros Hz. apply Hw. assert (c = 0) by nra. assert (d = 0) by nra.
    subst. reflexivity. }
  assert (Ha : a * (c * c + d * d) = 0).
  { replace (a * (c * c + d * d))
      with (c * (a * c - b * d) + d * (a * d + b * c)) by ring.
    rewrite E1, E2. ring. }
  assert (Hb : b * (c * c + d * d) = 0).
  { replace (b * (c * c + d * d))
      with (c * (a * d + b * c) - d * (a * c - b * d)) by ring.
    rewrite E1, E2. ring. }
  apply Rmult_integral in Ha, Hb.
  destruct Ha as [Ha|Ha]; [|contradiction].
  destruct Hb as [Hb|Hb]; [|contradiction].
  subst. reflexivity.
Qed.

Lemma geometric (L n m : nat) :
  Cmul (Csum (fun t => root L (n * t)) m) (Cadd (root L n) (Cscale (-1) C1))
  = Cadd (root L (n * m)) (Cscale (-1) C1).
Proof.
  induction m as [|m IH].
  - simpl Csum. rewrite Nat.mul_0_r, root_0. csolve.
  - cbn [Csum]. rewrite Cmul_add_r, IH.
    replace (n * S m)%nat with (n * m + n)%nat by lia.
    rewrite root_add. csolve.
Qed.

(** Orthogonality: the sum of the powers of a root of unity. *)
Lemma root_sum (L n : nat) :
  (0 < L)%nat ->
  Csum (fun t => root L (n * t)) L
  = if Nat.eqb (n mod L) 0 then RtoC (INR L) else C0.
Proof.
  intros HL. destruct (Nat.eqb_spec (n mod L) 0) as [E|E].
  - rewrite (Csum_ext _ (fun _ => C1)).
    + rewrite Csum_const. csolve.
    + intros t _. rewrite root_mod by exact HL.
      rewrite Nat.Div0.mul_mod, E by lia. simpl Nat.mul.
      rewrite Nat.Div0.mod_0_l by lia. apply root_0.
  - apply Cmul_integral with (w := Cadd (root L n) (Cscale (-1) C1)).
    + rewrite geometric, root_mul_L by exact HL. csolve.
    + intros Hz. apply (root_neq_1 L (n mod L)).
      * pose proof (Nat.mod_upper_bound n L). lia.
      * rewrite <- root_mod by exact HL.
        replace (root L n)
          with (Cadd (Cadd (root L n) (Cscale (-1) C1)) C1) by csolve.
        rewrite Hz. csolve.
Qed.

(** Inverting the transforms. *)

Lemma mirror_spec (L m : nat) :
  (0 < L)%nat ->
  (mirror L m < L)%nat /\ ((mirror L m + m) mod L = 0)%nat /\
  forall k, (k < L)%nat -> ((k + m) mod L = 0)%nat -> k = mirror L m.
Proof.
  intros HL. unfold mirror.
  pose proof (Nat.mod_upper_bound m L ltac:(lia)) as Hr.
  pose proof (Nat.div_mod_eq m L) as Hm.
  remember (m mod L)%nat as r eqn:Er. remember (m / L)%nat as q eqn:Eq.
  clear Er Eq.
  destruct (Nat.eq_dec r 0) as [E|E].
  - subst r. rewrite Nat.sub_0_r, Nat.Div0.mod_same. split; [lia|]. split.
    + replace (0 + m)%nat with (q * L)%nat by lia. apply Nat.Div0.mod_mul.
    + intros k Hk Hkm.
      replace (k + m)%nat with (k + q * L)%nat in Hkm by lia.
      rewrite Nat.Div0.mod_add, Nat.mod_small in Hkm by lia. exact Hkm.
  - rewrite (Nat.mod_small (L - r) L) by lia. split; [lia|]. split.
    + replace (L - r + m)%nat with ((1 + q) * L)%nat by nia.
      apply Nat.Div0.mod_mul.
    + intros k Hk Hkm.
      replace (k + m)%nat with (k + r + q * L)%nat in Hkm by nia.
      rewrite Nat.Div0.mod_add in Hkm.
      destruct (Nat.lt_ge_cases (k + r) L) as [Hlt|Hge].
      * rewrite Nat.mod_small in Hkm by lia. lia.
      * replace (k + r)%nat with ((k + r - L) + 1 * L)%nat in Hkm by lia.
        rewrite Nat.Div0.mod_add, Nat.mod_small in Hkm by lia. lia.
Qed.

Lemma idft_pair (L : nat) (A : nat -> C) (m : nat) :
  (0 < L)%nat ->
  Csum (fun t => Cmul (idft L A t) (root L (m * t))) L = A (mirror L m).
Proof.
  intros HL. unfold idft.
  rewrite (Csum_ext _
    (fun t => Csum (fun k => Cscale (/ INR L)
                               (Cmul (A k) (root L ((k + m) * t)))) L)).
  2:{ intros t _. rewrite <- Cscale_mul_l, <- Csum_mul_r, <- Csum_scale.
      apply Csum_ext. intros k _. f_equal.
      rewrite <- Cmul_assoc, <- root_add. do 2 f_equal. lia. }
  rewrite Csum_swap.
  rewrite (Csum_ext _
    (fun k => Cscale (/ INR L)
                (Cmul (A k) (if Nat.eqb ((k + m) mod L) 0
                             then RtoC (INR L) else C0)))).
  2:{ intros k _. rewrite Csum_scale, Csum_mul_l, root_sum by exact HL.
      reflexivity. }
  destruct (mirror_spec L m HL) as (Hlt & Hz & Huniq).
  rewrite (Csum_single _ L (mirror L m) Hlt).
  - rewrite Hz. cbn [Nat.eqb].
    pose proof (INR_pos_neq L HL) as Hne.
    unfold Cscale, Cmul, RtoC. apply injective_projections; cbn [fst snd]; field;
      exact Hne.
  - intros k Hk Hne.
    destruct (Nat.eqb_spec ((k + m) mod L) 0) as [E|_].
    + exfalso. apply Hne. apply Huniq; assumption.
    + rewrite Cmul_0_r. apply Cscale_0.
Qed.

Lemma mirror_sub (L j : nat) : (j < L)%nat -> mirror L (L - j) = j.
Proof.
  intros Hj. symmetry.
  apply (proj2 (proj2 (mirror_spec L (L - j) ltac:(lia)))); [exact Hj|].
  replace (j + (L - j))%nat with (1 * L)%nat by lia. apply Nat.Div0.mod_mul.
Qed.

Lemma mirror_pos (L j : nat) : (0 < j < L)%nat -> mirror L j = (L - j)%nat.
Proof.
  intros Hj. unfold mirror. rewrite (Nat.mod_small j L) by lia.
  apply Nat.mod_small. lia.
Qed.

Lemma mirror_0 (L : nat) : (0 < L)%nat -> mirror L 0 = 0%nat.
Proof.
  intros HL. unfold mirror. rewrite Nat.Div0.mod_0_l, Nat.sub_0_r.
  apply Nat.Div0.mod_same.
Qed.

(** The forward transform undoes the inverse one. *)
Lemma dft_idft (L : nat) (A : nat -> C) (j : nat) :
  (j < L)%nat -> dft L (idft L A) j = A j.
Proof.
  intros Hj. unfold dft.
  rewrite (Csum_ext _ (fun t => Cmul (idft L A t) (root L ((L - j) * t)))).
  - rewrite idft_pair by lia. rewrite mirror_sub by exact Hj. reflexivity.
  - intros t _. rewrite root_conj by lia. reflexivity.
Qed.

(** The sum of the conjugate twiddles vanishes away from frequency 0. *)
Lemma twiddle_sum (L j : nat) :
  (0 < j < L)%nat -> Csum (fun t => Cconj (root L (j * t))) L = C0.
Proof.
  intros Hj. rewrite Csum_conj, root_sum by lia.
  rewrite Nat.mod_small by lia.
  destruct (Nat.eqb_spec j 0); [lia|]. apply Cconj_0.
Qed.

(** Transform of the real part of an inverse transform, shifted by [m]. *)
Lemma dft_real_part (L : nat) (A : nat -> C) (m : R) (j : nat) :
  (0 < j < L)%nat ->
  dft L (fun t => RtoC (Cre (idft L A t) + m)) j
  = Cscale (/ 2) (Cadd (A j) (Cconj (A (L - j)%nat))).
Proof.
  intros Hj. unfold dft.
  rewrite (Csum_ext _
    (fun t => Cadd (Cscale (/ 2)
                      (Cadd (Cmul (idft L A t) (Cconj (root L (j * t))))
                            (Cconj (Cmul (idft L A t) (root L (j * t))))))
                   (Cmul (RtoC m) (Cconj (root L (j * t)))))).
  2:{ intros t _. rewrite RtoC_add, RtoC_re, Cconj_mul.
      generalize (idft L A t) (root L (j * t)). intros z w. csolve. }
  rewrite Csum_add, Csum_scale, Csum_add, Csum_conj, Csum_mul_l.
  rewrite twiddle_sum by exact Hj.
  fold (dft L (idft L A) j). rewrite dft_idft by lia.
  rewrite idft_pair by lia. rewrite mirror_pos by exact Hj.
  rewrite Cmul_0_r. apply Cadd_0_r.
Qed.

(** From lists to functions of the index. *)

Lemma length_fft (a : list C) : length (fft a) = length a.
Proof. unfold fft. rewrite length_map, length_seq. reflexivity. Qed.

Lemma length_ifft (A : list C) : length (ifft A) = length A.
Proof. unfold ifft. rewrite length_map, length_seq. reflexivity. Qed.

Lemma length_zero_slice (A : list C) (start stop : Z) :
  length (zero_slice A start stop) = length A.
Proof. unfold zero_slice. rewrite length_map, length_seq. reflexivity. Qed.

Lemma nth_fft (a : list C) (k : nat) :
  (k < length a)%nat ->
  nth k (fft a) C0 = dft (length a) (fun t => nth t a C0) k.
Proof. intros Hk. unfold fft. rewrite nth_map_seq by exact Hk. reflexivity. Qed.

Lemma nth_ifft (A : list C) (t : nat) :
  (t < length A)%nat ->
  nth t (ifft A) C0 = idft (length A) (fun k => nth k A C0) t.
Proof. intros Ht. unfold ifft. rewrite nth_map_seq by exact Ht. reflexivity. Qed.

(** [A[12:-12] = 0] zeroes exactly the entries 12 .. L-13. *)
Lemma nth_zero_slice_12 (A : list C) (k : nat) :
  (k < length A)%nat ->
  nth k (zero_slice A 12 (-12)) C0
  = if Nat.leb 12 k && Nat.ltb k (length A - 12) then C0 else nth k A C0.
Proof.
  intros Hk. unfold zero_slice. rewrite nth_map_seq by exact Hk.
  replace (Nat.leb (slice_bound 12 (length A)) k
           && Nat.ltb k (slice_bound (-12) (length A)))
    with (Nat.leb 12 k && Nat.ltb k (length A - 12)); [reflexivity|].
  unfold slice_bound. cbn [Z.ltb Z.compare].
  destruct (Nat.leb_spec 12 k) as [H1|H1];
    destruct (Nat.leb_spec (Z.to_nat (Z.min 12 (Z.of_nat (length A)))) k) as [H2|H2];
    try lia; cbn [andb]; try reflexivity.
  destruct (Nat.ltb_spec k (length A - 12)) as [H3|H3];
    destruct (Nat.ltb_spec k (Z.to_nat (Z.max (-12 + Z.of_nat (length A)) 0)))
      as [H4|H4]; try reflexivity; lia.
Qed.

Lemma nth_RtoC (x : list R) (t : nat) :
  nth t (map RtoC x) C0 = RtoC (nth t x 0).
Proof. change C0 with (RtoC 0). apply map_nth. Qed.

Section OneSeries.

Variable x : list R.

Lemma length_centred : length (centred x) = length x.
Proof. apply length_map. Qed.

Lemma length_spectrum (y : list R) : length (spectrum y) = length y.
Proof. unfold spectrum. rewrite length_fft. apply length_map. Qed.

Lemma length_kept : length (kept x) = length x.
Proof.
  unfold kept. rewrite length_zero_slice, length_spectrum. exact length_centred.
Qed.

Lemma smooth_data_kept :
  smooth_data x = map (fun z => Cre z + mean x) (ifft (kept x)).
Proof. reflexivity. Qed.

Lemma length_smooth_data : length (smooth_data x) = length x.
Proof.
  rewrite smooth_data_kept, length_map, length_ifft. exact length_kept.
Qed.

Lemma nth_smooth_data (t : nat) :
  (t < length x)%nat ->
  nth t (smooth_data x) 0
  = Cre (idft (length x) (fun k => nth k (kept x) C0) t) + mean x.
Proof.
  intros Ht. rewrite smooth_data_kept.
  rewrite (nth_indep _ 0 ((fun z => Cre z + mean x) C0))
    by (rewrite length_map, length_ifft, length_kept; exact Ht).
  rewrite (map_nth (fun z => Cre z + mean x)).
  rewrite nth_ifft by (rewrite length_kept; exact Ht).
  rewrite length_kept. reflexivity.
Qed.

(** The spectrum of the smoothed series away from frequency 0: half the
    kept coefficient plus half the conjugate of its mirror. *)
Lemma spectrum_smooth_data (j : nat) :
  (0 < j < length x)%nat ->
  nth j (spectrum (smooth_data x)) C0
  = Cscale (/ 2) (Cadd (nth j (kept x) C0)
                       (Cconj (nth (length x - j) (kept x) C0))).
Proof.
  intros Hj. unfold spectrum.
  rewrite nth_fft by (rewrite length_map, length_smooth_data; lia).
  rewrite length_map, length_smooth_data.
  rewrite <- (dft_real_part (length x) (fun k => nth k (kept x) C0)
                            (mean x) j Hj).
  unfold dft. apply Csum_ext. intros t Ht.
  rewrite nth_RtoC, nth_smooth_data by exact Ht. reflexivity.
Qed.

Lemma nth_centred (t : nat) :
  (t < length x)%nat -> nth t (centred x) 0 = nth t x 0 - mean x.
Proof.
  intros Ht. unfold centred.
  rewrite (nth_indep _ 0 ((fun v => v - mean x) 0))
    by (rewrite length_map; exact Ht).
  apply (map_nth (fun v => v - mean x)).
Qed.

(** The zero-frequency coefficient of the centred series vanishes. *)
Lemma spectrum_centred_0 :
  (0 < length x)%nat -> nth 0 (spectrum (centred x)) C0 = C0.
Proof.
  intros HL. unfold spectrum.
  rewrite nth_fft by (rewrite length_map, length_centred; exact HL).
  rewrite length_map, length_centred. unfold dft.
  rewrite (Csum_ext _ (fun t => Cadd (RtoC (nth t x 0)) (RtoC (- mean x)))).
  2:{ intros t Ht. rewrite nth_RtoC, nth_centred by exact Ht.
      simpl Nat.mul. rewrite root_0. csolve. }
  rewrite Csum_add, Csum_const.
  apply injective_projections.
  - unfold Cadd. cbn [fst].
    change (fst (Csum (fun t => RtoC (nth t x 0)) (length x)))
      with (Cre (Csum (fun t => RtoC (nth t x 0)) (length x))).
    rewrite Cre_Csum.
    unfold RtoC, Cscale, C0, Cre. cbn [fst].
    unfold mean. field. apply INR_pos_neq. exact HL.
  - unfold Cadd, Cscale, RtoC, C0. cbn [snd].
    assert (Hs : forall n, snd (Csum (fun t => (nth t x 0, 0)) n) = 0).
    { induction n as [|n IH]; simpl; [reflexivity|]. rewrite IH. ring. }
    rewrite Hs. ring.
Qed.

(** Removing the mean leaves the other coefficients as they are. *)
Lemma spectrum_centred (k : nat) :
  (0 < k < length x)%nat ->
  nth k (spectrum (centred x)) C0 = nth k (spectrum x) C0.
Proof.
  intros Hk. unfold spectrum.
  rewrite !nth_fft by (rewrite length_map, ?length_centred; lia).
  rewrite !length_map, length_centred. unfold dft.
  rewrite (Csum_ext _
    (fun t => Cadd (Cmul (nth t (map RtoC x) C0)
                         (Cconj (root (length x) (k * t))))
                   (Cmul (RtoC (- mean x))
                         (Cconj (root (length x) (k * t)))))).
  2:{ intros t Ht. rewrite !nth_RtoC, nth_centred by exact Ht.
      generalize (root (length x) (k * t)). intros w. csolve. }
  rewrite Csum_add, Csum_mul_l, twiddle_sum by exact Hk.
  rewrite Cmul_0_r. apply Cadd_0_r.
Qed.

End OneSeries.

End SmootherFacts.

(** ** Claims on the harmonic smoother *)

Section SmootherClaims.

Import Smoother.
Open Scope R_scope.

(** C2.  Over the reals, the mean over the time axis of the smoothed series
    equals the mean of the original series, for every input series: the
    mean is subtracted before the transform, the zero-frequency coefficient
    is kept by the truncation, and the mean is added back. *)
Theorem smoother_preserves_mean (x : list R) :
  mean (smooth_data x) = mean x.
Proof.
  destruct (Nat.eq_dec (length x) 0) as [E|E].
  - destruct x; [reflexivity | discriminate].
  - assert (HL : (0 < length x)%nat) by lia.
    unfold mean at 1. rewrite length_smooth_data.
    rewrite (Rsum_ext _
      (fun t => Cre (idft (length x) (fun k => nth k (kept x) C0) t) + mean x))
      by (intros t Ht; apply nth_smooth_data; exact Ht).
    rewrite Rsum_add, Rsum_const, <- Cre_Csum.
    rewrite (Csum_ext _
      (fun t => Cmul (idft (length x) (fun k => nth k (kept x) C0) t)
                     (root (length x) (0 * t))))
      by (intros t _; simpl Nat.mul; rewrite root_0, Cmul_1_r; reflexivity).
    rewrite idft_pair, mirror_0 by exact HL.
    unfold kept.
    rewrite nth_zero_slice_12
      by (rewrite length_spectrum, length_centred; exact HL).
    cbn [Nat.leb andb]. rewrite spectrum_centred_0 by exact HL.
    unfold Cre, C0. cbn [fst]. field. apply INR_pos_neq. exact HL.
Qed.

(** C3 (as amended).  The assignment [fft[12:-12] = 0] zeroes exactly the
    coefficients 12 .. L-13 before the inversion; and the transform of the
    smoothed series vanishes at every frequency index outside
    [0,12] and [L-12,L), that is, at the indices 13 .. L-13. *)
Theorem smoother_truncates_spectrum (x : list R) :
  (forall (A : list C) (k : nat),
      (k < length A)%nat ->
      nth k (zero_slice A 12 (-12)) C0
      = if Nat.leb 12 k && Nat.ltb k (length A - 12) then C0 else nth k A C0) /\
  (forall j, (13 <= j <= length x - 13)%nat ->
      nth j (spectrum (smooth_data x)) C0 = C0).
Proof.
  split; [exact nth_zero_slice_12|].
  intros j Hj.
  rewrite spectrum_smooth_data by lia.
  unfold kept.
  rewrite !nth_zero_slice_12 by (rewrite length_spectrum, length_centred; lia).
  rewrite length_spectrum, length_centred.
  destruct (Nat.leb_spec 12 j); [|lia].
  destruct (Nat.ltb_spec j (length x - 12)); [|lia].
  destruct (Nat.leb_spec 12 (length x - j)); [|lia].
  destruct (Nat.ltb_spec (length x - j) (length x - 12)); [|lia].
  cbn [andb]. csolve.
Qed.

Lemma smoother_truncates_spectrum_witness :
  nth 13 (spectrum (smooth_data pulse73)) C0 = C0 /\
  nth 60 (spectrum (smooth_data pulse73)) C0 = C0.
Proof.
  split; apply (proj2 (smoother_truncates_spectrum pulse73));
    change (length pulse73) with 73%nat; lia.
Defined.

(** C3 as stated fails: with 73 pentads index 12 lies outside [0,12) and
    [61,73), and the transform of the smoothed pulse is 1/2 there, the
    mirror image of the coefficient kept at index 61. *)
Lemma smoothed_pulse_has_energy_at_12 :
  length pulse73 = 73%nat /\
  nth 12 (spectrum (smooth_data pulse73)) C0 = (/ 2, 0) /\
  nth 12 (spectrum (smooth_data pulse73)) C0 <> C0.
Proof.
  assert (HL : length pulse73 = 73%nat) by reflexivity.
  assert (E : nth 12 (spectrum (smooth_data pulse73)) C0 = (/ 2, 0)).
  { rewrite spectrum_smooth_data by (rewrite HL; lia).
    unfold kept.
    rewrite !nth_zero_slice_12
      by (rewrite length_spectrum, length_centred, HL; lia).
    rewrite length_spectrum, length_centred, HL.
    replace (73 - 12)%nat with 61%nat by reflexivity.
    replace (Nat.leb 12 12 && Nat.ltb 12 61) with true by reflexivity.
    replace (Nat.leb 12 61 && Nat.ltb 61 61) with false by reflexivity.
    rewrite spectrum_centred by (rewrite HL; lia).
    unfold spectrum. rewrite nth_fft by (rewrite length_map, HL; lia).
    rewrite length_map, HL. unfold dft.
    rewrite (Csum_single _ 73 0); [|lia|].
    2:{ intros t Ht Hne. rewrite nth_RtoC.
        destruct t as [|t]; [lia|]. unfold pulse73. cbn [nth].
        rewrite nth_repeat. csolve. }
    rewrite nth_RtoC. simpl Nat.mul. rewrite root_0.
    unfold pulse73. cbn [nth].
    unfold Cscale, Cadd, Cmul, Cconj, RtoC, C0, C1.
    apply injective_projections; cbn [fst snd]; field. }
  split; [exact HL|]. split; [exact E|].
  rewrite E. unfold C0. intros H. injection H as H. lra.
Qed.

End SmootherClaims.

(** * Further properties of the routines *)

(** ** The edge detector *)

Section DetectorMore.

Import Detector.
Open Scope string_scope.

Lemma first_unmasked_spec (T : float) (l : list float) (a : nat) :
  first_unmasked T l = Some a ->
  (a < length l)%nat /\ PrimFloat.ltb (nth a l nan) T = false /\
  forall t, (t < a)%nat -> PrimFloat.ltb (nth t l nan) T = true.
Proof.
  revert a. induction l as [|s r IH]; intros a H; [discriminate|].
  cbn [first_unmasked] in H. destruct (PrimFloat.ltb s T) eqn:E.
  - destruct (first_unmasked T r) as [a'|]; [|discriminate].
    injection H as <-. destruct (IH a' eq_refl) as (H1 & H2 & H3).
    cbn [length nth]. split; [lia|]. split; [exact H2|].
    intros [|t] Ht; [exact E|]. apply H3. lia.
  - injection H as <-. cbn [length nth]. split; [lia|]. split; [exact E|].
    intros t Ht. lia.
Qed.

Lemma last_unmasked_spec (T : float) (l : list float) (b : nat) :
  last_unmasked T l = Some b ->
  (b < length l)%nat /\ PrimFloat.ltb (nth b l nan) T = false /\
  forall t, (b < t < length l)%nat -> PrimFloat.ltb (nth t l nan) T = true.
Proof.
  revert b. induction l as [|s r IH]; intros b H; [discriminate|].
  cbn [last_unmasked] in H. destruct (last_unmasked T r) as [b'|] eqn:E.
  - injection H as <-. destruct (IH b' eq_refl) as (H1 & H2 & H3).
    cbn [length nth]. split; [lia|]. split; [exact H2|].
    intros [|t] Ht; [lia|]. apply H3. cbn [length] in Ht. lia.
  - destruct (PrimFloat.ltb s T) eqn:E'; [discriminate|]. injection H as <-.
    cbn [length nth]. split; [lia|]. split; [exact E'|].
    intros [|t] Ht; [lia|]. cbn [length] in Ht.
    apply last_unmasked_has in E. unfold has_unmasked in E.
    assert (Hin : In (nth t r nan) r) by (apply nth_In; lia).
    destruct (PrimFloat.ltb (nth t r nan) T) eqn:E2; [reflexivity|].
    exfalso. assert (existsb (fun s => negb (PrimFloat.ltb s T)) r = true).
    { apply existsb_exists. exists (nth t r nan). rewrite E2. auto. }
    congruence.
Qed.

Lemma unmasked_between (T : float) (l : list float) (k : nat) :
  (k < length l)%nat -> PrimFloat.ltb (nth k l nan) T = false ->
  exists a b, first_unmasked T l = Some a /\ last_unmasked T l = Some b /\
              (a <= k <= b)%nat.
Proof.
  intros Hk Hu.
  assert (Hh : has_unmasked T l = true).
  { unfold has_unmasked. apply existsb_exists. exists (nth k l nan).
    split; [apply nth_In; exact Hk | rewrite Hu; reflexivity]. }
  destruct (first_unmasked T l) as [a|] eqn:Ea;
    [|apply first_unmasked_has in Ea; congruence].
  destruct (last_unmasked T l) as [b|] eqn:Eb;
    [|apply last_unmasked_has in Eb; congruence].
  exists a, b. split; [reflexivity|]. split; [reflexivity|].
  destruct (first_unmasked_spec T l a Ea) as (_ & _ & Ha).
  destruct (last_unmasked_spec T l b Eb) as (_ & _ & Hb).
  split.
  - destruct (Nat.le_gt_cases a k) as [H|H]; [exact H|].
    specialize (Ha k H). congruence.
  - destruct (Nat.le_gt_cases k b) as [H|H]; [exact H|].
    specialize (Hb k (conj H Hk)). congruence.
Qed.

Lemma is_nan_true (x : float) :
  PrimFloat.is_nan x = true -> Prim2SF x = S754_nan.
Proof.
  intros H. destruct (Prim2SF x) eqn:E; try reflexivity;
    exfalso;
    assert (Hn : PrimFloat.is_nan x = false)
      by (apply is_nan_false; rewrite E; discriminate);
    congruence.
Qed.

Lemma ltb_nan_l (x T : float) :
  PrimFloat.is_nan x = true -> PrimFloat.ltb x T = false.
Proof.
  intros H. rewrite FloatAxioms.ltb_spec, (is_nan_true x H). reflexivity.
Qed.

Lemma leb_neg_infinity (x : float) :
  PrimFloat.is_nan x = false -> PrimFloat.leb neg_infinity x = true.
Proof.
  intros H. apply is_nan_false in H. rewrite FloatAxioms.leb_spec.
  change (Prim2SF neg_infinity) with (S754_infinity true).
  destruct (Prim2SF x) as [s|s| |s m e]; try congruence;
    try reflexivity; destruct s; reflexivity.
Qed.

(** X1.  The detector returns exactly when [latdim] and [londim] name
    dimensions that have the sizes of axes 1 and 2 of the data: the output
    arrays are allocated with the sizes of the named dimensions and filled
    with the positions found on axes 1 and 2.  [pentaddim] plays no part. *)
Theorem detect_returns_iff_sizes
    (x : DataArray) (T : float) (latdim londim pentaddim : string)
    (n0 n1 n2 : nat) :
  rect (values x) n0 n1 n2 -> (0 < n0)%nat -> (0 < n1)%nat ->
  (exists r, detect x T latdim londim pentaddim = Return r) <->
  (axis_len x latdim = Return n1 /\ axis_len x londim = Return n2).
Proof.
  intros Hr H0 H1. split.
  - intros [r H]. unfold detect in H.
    set (v := values x) in *.
    rewrite (notmasked_edges0_spec v T n0 n1 n2 Hr H0) in H. cbn [bind] in H.
    apply bind_inv in H. destruct H as (nlat & Hla & H).
    apply bind_inv in H. destruct H as (nlon & Hlo & H).
    apply bind_inv in H. destruct H as (nlat' & Hla' & H).
    apply bind_inv in H. destruct H as (nlon' & Hlo' & H).
    cbn beta iota in H.
    apply bind_inv in H. destruct H as ([o w] & Hext & H).
    apply bind_inv in H. destruct H as (o_p & Ho & H).
    apply bind_inv in H. destruct H as (w_p & Hw & H).
    apply bind_inv in H. destruct H as (am & Ham & H).
    apply bind_inv in H. destruct H as (pk & Hpk & _).
    unfold ma_argmax0 in Ham. simpl ma_data in Ham.
    rewrite (shape_rect v n0 n1 n2 Hr H0 H1) in Ham.
    destruct (Nat.eqb_spec n0 0) as [E|_]; [lia|]. injection Ham as Ham.
    unfold make_dataarray2 in Hpk.
    destruct (_ && _) eqn:Ec in Hpk; [|discriminate].
    apply andb_true_iff in Ec. destruct Ec as [Ec1 Ec2].
    apply Nat.eqb_eq in Ec1. rewrite forallb_forall in Ec2.
    subst am. rewrite !length_map, length_seq in Ec1. subst nlat.
    split; [exact Hla|].
    rewrite Hlo. f_equal.
    specialize (Ec2 (nth 0 (map (map (fun k => Num (Z.of_nat k + 1)))
       (map (fun i => map (fun j => np_argmax
          (map (fun t => filled_at (masked_less v T) neg_infinity t i j) (seq 0 n0)))
          (seq 0 n2)) (seq 0 n1))) [])).
    assert (Hin : (0 < length (map (map (fun k => Num (Z.of_nat k + 1)))
       (map (fun i => map (fun j => np_argmax
          (map (fun t => filled_at (masked_less v T) neg_infinity t i j) (seq 0 n0)))
          (seq 0 n2)) (seq 0 n1))))%nat)
      by (rewrite !length_map, length_seq; exact H1).
    specialize (Ec2 (nth_In _ _ Hin)). apply Nat.eqb_eq in Ec2.
    rewrite map_map in Ec2.
    rewrite (nth_map_seq _ n1 0 []) in Ec2 by exact H1.
    rewrite !length_map, length_seq in Ec2. symmetry. exact Ec2.
  - intros [Hla Hlo]. apply (detect_returns x T latdim londim pentaddim n0 n1 n2); assumption.
Qed.


(** X2.  In a cell with a sample that is not below the threshold, the onset is
    the first such pentad and the withdrawal the last one (counted from 1),
    every pentad before the onset and after the withdrawal is below the
    threshold, and the duration is their difference, between 0 and L-1.
    The pentads in between are not inspected. *)
Theorem season_is_first_to_last_unmasked
    (x : DataArray) (T : float) (latdim londim pentaddim : string)
    (L n1 n2 : nat) :
  rect (values x) L n1 n2 -> (0 < L)%nat ->
  axis_len x latdim = Return n1 -> axis_len x londim = Return n2 ->
  exists r, detect x T latdim londim pentaddim = Return r /\
    forall i j, (i < n1)%nat -> (j < n2)%nat ->
      let series := column (values x) i j in
      has_unmasked T series = true ->
      exists o w : nat,
        get2 (onset_pentad r) i j = Num (Z.of_nat o + 1) /\
        get2 (withdrawal_pentad r) i j = Num (Z.of_nat w + 1) /\
        get2 (duration r) i j = Num (Z.of_nat w - Z.of_nat o) /\
        (o <= w < L)%nat /\
        PrimFloat.ltb (nth o series nan) T = false /\
        PrimFloat.ltb (nth w series nan) T = false /\
        (forall t, (t < o)%nat -> PrimFloat.ltb (nth t series nan) T = true) /\
        (forall t, (w < t < L)%nat -> PrimFloat.ltb (nth t series nan) T = true).
Proof.
  intros Hr H0 Hla Hlo.
  destruct (detect_returns x T latdim londim pentaddim L n1 n2 Hr H0 Hla Hlo)
    as [r Hdet].
  exists r. split; [exact Hdet|].
  destruct (detect_cell x T latdim londim pentaddim L n1 n2 r Hr Hdet) as [_ Hc].
  intros i j Hi Hj series Hh.
  destruct (Hc i j Hi Hj) as (Ho & Hw & _ & Hd). fold series in Ho, Hw, Hd.
  assert (Hlen : length series = L)
    by (unfold series; rewrite column_length; apply Hr).
  destruct (first_unmasked T series) as [o|] eqn:Eo;
    [|apply first_unmasked_has in Eo; congruence].
  destruct (last_unmasked T series) as [w|] eqn:Ew;
    [|apply last_unmasked_has in Ew; congruence].
  destruct (first_unmasked_spec T series o Eo) as (Ho1 & Ho2 & Ho3).
  destruct (last_unmasked_spec T series w Ew) as (Hw1 & Hw2 & Hw3).
  destruct (unmasked_between T series o Ho1 Ho2) as (a & b & Ea & Eb & Hab).
  assert (b = w) by congruence. subst b.
  exists o, w. cbn [edge_num num_sub] in Ho, Hw, Hd.
  split; [exact Ho|]. split; [exact Hw|].
  split; [rewrite Hd; f_equal; lia|].
  split; [lia|]. split; [exact Ho2|]. split; [exact Hw2|].
  split; [exact Ho3|]. intros t Ht. apply Hw3. lia.
Qed.

(** X3.  In a cell without missing samples that has a season, the peak is a
    pentad between onset and withdrawal; it is undefined (NaN) only when the
    largest value falls on pentad 1, which is then the onset. *)
Theorem peak_within_season
    (x : DataArray) (T : float) (latdim londim pentaddim : string)
    (L n1 n2 : nat) :
  rect (values x) L n1 n2 -> (0 < L)%nat ->
  axis_len x latdim = Return n1 -> axis_len x londim = Return n2 ->
  exists r, detect x T latdim londim pentaddim = Return r /\
    forall i j, (i < n1)%nat -> (j < n2)%nat ->
      let series := column (values x) i j in
      no_nan series -> has_unmasked T series = true ->
      exists o w : Z,
        get2 (onset_pentad r) i j = Num o /\
        get2 (withdrawal_pentad r) i j = Num w /\
        ((get2 (peak_pentad r) i j = NaN /\ o = 1%Z) \/
         (exists k, get2 (peak_pentad r) i j = Num k /\ (o <= k <= w)%Z)).
Proof.
  intros Hr H0 Hla Hlo.
  destruct (detect_returns x T latdim londim pentaddim L n1 n2 Hr H0 Hla Hlo)
    as [r Hdet].
  exists r. split; [exact Hdet|].
  destruct (detect_cell x T latdim londim pentaddim L n1 n2 r Hr Hdet) as [_ Hc].
  intros i j Hi Hj series Hnn Hh.
  destruct (Hc i j Hi Hj) as (Ho & Hw & Hp & _). fold series in Ho, Hw, Hp.
  assert (Hlen : length series = L)
    by (unfold series; rewrite column_length; apply Hr).
  set (filled := filled_column T series) in *.
  assert (Hflen : length filled = L)
    by (unfold filled, filled_column; rewrite length_map; exact Hlen).
  assert (Hfne : filled <> [])
    by (intros E; rewrite E in Hflen; simpl in Hflen; lia).
  assert (Hfnn : no_nan filled).
  { unfold filled, filled_column, no_nan. apply Forall_map.
    unfold no_nan in Hnn. rewrite Forall_forall in Hnn |- *.
    intros s Hs. destruct (PrimFloat.ltb s T); [reflexivity|].
    apply Hnn. exact Hs. }
  destruct (np_argmax_first_max filled Hfne Hfnn) as (Hk & Hmax & _).
  set (k := np_argmax filled) in *.
  rewrite Hflen in Hk, Hmax.
  assert (Hnth : forall t, (t < L)%nat ->
            nth t filled nan
            = if PrimFloat.ltb (nth t series nan) T then neg_infinity
              else nth t series nan).
  { intros t Ht. unfold filled, filled_column.
    rewrite (nth_indep _ nan
               ((fun s => if PrimFloat.ltb s T then neg_infinity else s) nan))
      by (rewrite length_map; lia).
    rewrite (map_nth (fun s => if PrimFloat.ltb s T then neg_infinity else s)).
    reflexivity. }
  (* the position of the maximum is not masked *)
  assert (Hku : PrimFloat.ltb (nth k series nan) T = false).
  { destruct (PrimFloat.ltb (nth k series nan) T) eqn:E; [|reflexivity].
    exfalso. unfold has_unmasked in Hh. apply existsb_exists in Hh.
    destruct Hh as (s & Hs & Hsu). apply negb_true_iff in Hsu.
    destruct (In_nth _ _ nan Hs) as (t & Ht & Es). rewrite Hlen in Ht.
    pose proof (Hmax t Ht) as Hle.
    rewrite (Hnth t Ht), (Hnth k Hk), Es, Hsu, E in Hle.
    assert (Hkn : PrimFloat.is_nan (nth k series nan) = false).
    { unfold no_nan in Hnn. rewrite Forall_forall in Hnn. apply Hnn.
      apply nth_In. lia. }
    pose proof (leb_trans _ _ _ Hle (leb_neg_infinity _ Hkn)) as Hle'.
    pose proof (leb_ltb_trans _ _ _ Hle' E). congruence. }
  destruct (unmasked_between T series k) as (a & b & Ea & Eb & Hab);
    [lia | exact Hku |].
  rewrite Ea in Ho. rewrite Eb in Hw. cbn [edge_num] in Ho, Hw.
  exists (Z.of_nat a + 1)%Z, (Z.of_nat b + 1)%Z.
  split; [exact Ho|]. split; [exact Hw|].
  unfold peak_of in Hp. fold filled in Hp. fold k in Hp.
  unfold where_, num_eqb in Hp. rewrite Hp.
  destruct (Z.eqb_spec (Z.of_nat k + 1) 1) as [E|E]; cbn [negb].
  - left. split; [reflexivity|]. lia.
  - right. exists (Z.of_nat k + 1)%Z. split; [reflexivity|]. lia.
Qed.

(** X4.  A missing sample is not below the threshold.  A cell whose first
    sample is NaN gets onset 1 and no peak; a cell whose last sample is NaN
    gets the last pentad as withdrawal. *)
Theorem missing_samples_count_as_season
    (x : DataArray) (T : float) (latdim londim pentaddim : string)
    (L n1 n2 : nat) :
  rect (values x) L n1 n2 -> (0 < L)%nat ->
  axis_len x latdim = Return n1 -> axis_len x londim = Return n2 ->
  exists r, detect x T latdim londim pentaddim = Return r /\
    forall i j, (i < n1)%nat -> (j < n2)%nat ->
      let series := column (values x) i j in
      (PrimFloat.is_nan (nth 0 series nan) = true ->
         get2 (onset_pentad r) i j = Num 1 /\
         get2 (peak_pentad r) i j = NaN) /\
      (PrimFloat.is_nan (nth (L - 1) series nan) = true ->
         get2 (withdrawal_pentad r) i j = Num (Z.of_nat L)).
Proof.
  intros Hr H0 Hla Hlo.
  destruct (detect_returns x T latdim londim pentaddim L n1 n2 Hr H0 Hla Hlo)
    as [r Hdet].
  exists r. split; [exact Hdet|].
  destruct (detect_cell x T latdim londim pentaddim L n1 n2 r Hr Hdet) as [_ Hc].
  intros i j Hi Hj series.
  destruct (Hc i j Hi Hj) as (Ho & Hw & Hp & _). fold series in Ho, Hw, Hp.
  assert (Hlen : length series = L)
    by (unfold series; rewrite column_length; apply Hr).
  split.
  - intros Hn. pose proof (ltb_nan_l _ T Hn) as Hu.
    destruct series as [|s rest] eqn:Es; [simpl in Hlen; lia|].
    cbn [nth] in Hn, Hu. split.
    + rewrite Ho. cbn [first_unmasked]. rewrite Hu. reflexivity.
    + rewrite Hp. unfold peak_of, filled_column. cbn [map]. rewrite Hu.
      cbn [np_argmax]. rewrite Hn. reflexivity.
  - intros Hn. pose proof (ltb_nan_l _ T Hn) as Hu.
    destruct (unmasked_between T series (L - 1)) as (a & b & _ & Eb & Hab);
      [lia | exact Hu |].
    destruct (last_unmasked_spec T series b Eb) as (Hb & _).
    rewrite Hw, Eb. cbn [edge_num]. f_equal. lia.
Qed.

Lemma detect_returns_iff_sizes_witness :
  (exists r, wang_linho_detect field_mixed "lat" "lon" "pentad" = Return r) /\
  ~ (exists r, wang_linho_detect field_lat_lon_pentad "lat" "lon" "pentad"
               = Return r).
Proof.
  split.
  - apply (detect_returns_iff_sizes field_mixed 5%float
             "lat" "lon" "pentad" 3 1 2).
    + split; [reflexivity | repeat constructor].
    + lia.
    + lia.
    + split; reflexivity.
  - intros H.
    apply (detect_returns_iff_sizes field_lat_lon_pentad 5%float
             "lat" "lon" "pentad" 1 2 3) in H.
    + destruct H as [H _]. discriminate H.
    + split; [reflexivity | repeat constructor].
    + lia.
    + lia.
Defined.

Lemma season_is_first_to_last_unmasked_witness :
  exists r, wang_linho_detect field_mixed "lat" "lon" "pentad" = Return r /\
    get2 (onset_pentad r) 0 1 = Num 1 /\
    get2 (withdrawal_pentad r) 0 1 = Num 3 /\
    get2 (duration r) 0 1 = Num 2.
Proof.
  destruct (season_is_first_to_last_unmasked field_mixed 5%float
              "lat" "lon" "pentad" 3 1 2) as (r & Hr & Hc).
  - split; [reflexivity | repeat constructor].
  - lia.
  - reflexivity.
  - reflexivity.
  - exists r. split; [exact Hr|].
    destruct (Hc 0%nat 1%nat) as (o & w & Ho & Hw & Hd & Hb & _ & _ & Hbefore & Hafter);
      [lia | lia | reflexivity |].
    assert (o = 0%nat).
    { destruct o as [|o]; [reflexivity|].
      specialize (Hbefore 0%nat ltac:(lia)). vm_compute in Hbefore.
      discriminate. }
    assert (w = 2%nat).
    { destruct w as [|[|[|w]]]; [| | reflexivity | lia].
      - specialize (Hafter 2%nat ltac:(lia)). vm_compute in Hafter. discriminate.
      - specialize (Hafter 2%nat ltac:(lia)). vm_compute in Hafter. discriminate. }
    subst o w. rewrite Ho, Hw, Hd. repeat split; reflexivity.
Defined.

Lemma peak_within_season_witness :
  exists r, wang_linho_detect field_mixed "lat" "lon" "pentad" = Return r /\
    exists o w : Z,
      get2 (onset_pentad r) 0 1 = Num o /\
      get2 (withdrawal_pentad r) 0 1 = Num w /\
      ((get2 (peak_pentad r) 0 1 = NaN /\ o = 1%Z) \/
       (exists k, get2 (peak_pentad r) 0 1 = Num k /\ (o <= k <= w)%Z)).
Proof.
  destruct (peak_within_season field_mixed 5%float
              "lat" "lon" "pentad" 3 1 2) as (r & Hr & Hc).
  - split; [reflexivity | repeat constructor].
  - lia.
  - reflexivity.
  - reflexivity.
  - exists r. split; [exact Hr|].
    apply (Hc 0%nat 1%nat); [lia | lia | repeat constructor | reflexivity].
Defined.

Lemma missing_samples_count_as_season_witness :
  exists r, wang_linho_detect field_touch "lat" "lon" "pentad" = Return r /\
    get2 (onset_pentad r) 0 1 = Num 1 /\
    get2 (peak_pentad r) 0 1 = NaN /\
    get2 (withdrawal_pentad r) 0 1 = Num 3.
Proof.
  destruct (missing_samples_count_as_season field_touch 5%float
              "lat" "lon" "pentad" 3 1 2) as (r & Hr & Hc).
  - split; [reflexivity | repeat constructor].
  - lia.
  - reflexivity.
  - reflexivity.
  - exists r. split; [exact Hr|].
    destruct (Hc 0%nat 1%nat) as [H1 H2]; [lia | lia |].
    destruct (H1 eq_refl) as [Ho Hp]. specialize (H2 eq_refl).
    repeat split; assumption.
Defined.

End DetectorMore.

(** ** South China Sea onset of Gao et al. *)

Section GaoMore.

Import Gao.
Open Scope string_scope.

Lemma isel_map (u : list (Z * float)) (n : nat) (v : Z * float) :
  isel (map u_positive u) n = Return v ->
  (n < length u)%nat /\ v = u_positive (nth n u (0%Z, nan)).
Proof.
  unfold isel. rewrite nth_error_map.
  destruct (nth_error u n) as [w|] eqn:E; simpl; [|discriminate].
  intros H. injection H as <-. split.
  - apply nth_error_Some. congruence.
  - rewrite (nth_error_nth u n _ E). reflexivity.
Qed.

Lemma ltb_u_positive (pv : Z * float) :
  PrimFloat.ltb 0 (snd (u_positive pv)) = PrimFloat.ltb 0 (snd pv).
Proof.
  unfold u_positive. cbn [snd]. destruct (PrimFloat.ltb 0 (snd pv)); reflexivity.
Qed.

Lemma u_positive_not_negative (pv : Z * float) :
  PrimFloat.ltb (snd (u_positive pv)) 0 = false.
Proof.
  unfold u_positive. cbn [snd]. destruct (PrimFloat.ltb 0 (snd pv)); reflexivity.
Qed.

Lemma positive_map (u : list (Z * float)) (n : nat) (b : bool) :
  positive (map u_positive u) n = Return b ->
  (n < length u)%nat /\ b = PrimFloat.ltb 0 (snd (nth n u (0%Z, nan))).
Proof.
  unfold positive. intros H. apply bind_inv in H.
  destruct H as (v & Hv & H). apply isel_map in Hv. destruct Hv as [Hn ->].
  injection H as <-. split; [exact Hn|]. apply ltb_u_positive.
Qed.

Lemma sum3_positive (a b c : Z * float) :
  PrimFloat.ltb 0 (snd (u_positive a) + snd (u_positive b) + snd (u_positive c))%float = true ->
  PrimFloat.ltb 0 (snd a) = true \/ PrimFloat.ltb 0 (snd b) = true \/
  PrimFloat.ltb 0 (snd c) = true.
Proof.
  unfold u_positive. cbn [snd].
  destruct (PrimFloat.ltb 0 (snd a)); [auto|].
  destruct (PrimFloat.ltb 0 (snd b)); [auto|].
  destruct (PrimFloat.ltb 0 (snd c)); [auto|].
  vm_compute. discriminate.
Qed.

(** X6.  Lines 129-140 on the indicator [u_pos] that line 127 builds.  An onset
    is returned only for a pentad [k] with [th_e] above 335 K and a positive
    zonal wind at [k], [k+1] and [k+2] and at one of [k+3 .. k+5], all of
    which exist: the alternative of the [elif] asks for a negative value of
    the indicator and never applies. *)
Theorem gao_loop_onset_needs_three_pentads
    (th u_mean : list (Z * float)) (steps i : nat) (p : Z) :
  let d := (0%Z, nan) in
  onset_loop th (map u_positive u_mean) i steps = Return (Some p) ->
  exists k, (i <= k < i + steps)%nat /\ (k + 5 < length u_mean)%nat /\
    p = fst (nth k u_mean d) /\
    PrimFloat.ltb 335 (snd (nth k th d)) = true /\
    PrimFloat.ltb 0 (snd (nth k u_mean d)) = true /\
    PrimFloat.ltb 0 (snd (nth (k + 1) u_mean d)) = true /\
    PrimFloat.ltb 0 (snd (nth (k + 2) u_mean d)) = true /\
    (PrimFloat.ltb 0 (snd (nth (k + 3) u_mean d)) = true \/
     PrimFloat.ltb 0 (snd (nth (k + 4) u_mean d)) = true \/
     PrimFloat.ltb 0 (snd (nth (k + 5) u_mean d)) = true).
Proof.
  intros d. revert i. induction steps as [|steps IH]; intros i H.
  - discriminate H.
  - assert (Hnext : onset_loop th (map u_positive u_mean) (S i) steps = Return (Some p) ->
       exists k, (i <= k < i + S steps)%nat /\ (k + 5 < length u_mean)%nat /\
         p = fst (nth k u_mean d) /\
         PrimFloat.ltb 335 (snd (nth k th d)) = true /\
         PrimFloat.ltb 0 (snd (nth k u_mean d)) = true /\
         PrimFloat.ltb 0 (snd (nth (k + 1) u_mean d)) = true /\
         PrimFloat.ltb 0 (snd (nth (k + 2) u_mean d)) = true /\
         (PrimFloat.ltb 0 (snd (nth (k + 3) u_mean d)) = true \/
          PrimFloat.ltb 0 (snd (nth (k + 4) u_mean d)) = true \/
          PrimFloat.ltb 0 (snd (nth (k + 5) u_mean d)) = true)).
    { intros H'. destruct (IH (S i) H') as (k & Hk & Hrest).
      exists k. split; [lia | exact Hrest]. }
    cbn [onset_loop] in H.
    apply bind_inv in H. destruct H as (thv & Hth & H).
    apply bind_inv in H. destruct H as (c & Hc & H).
    destruct c; [|exact (Hnext H)].
    (* the first test holds *)
    destruct (PrimFloat.ltb 335 (snd thv)) eqn:E335; [|discriminate].
    apply bind_inv in Hc. destruct Hc as (c1 & Hc1 & Hc).
    destruct c1; [|discriminate].
    apply positive_map in Hc1, Hc. destruct Hc1 as [L0 P0], Hc as [L1 P1].
    apply bind_inv in H. destruct H as (c2 & Hc2 & H).
    apply positive_map in Hc2. destruct Hc2 as [L2 P2].
    apply bind_inv in H. destruct H as (steady & Hst & H).
    destruct steady.
    + destruct c2; [|discriminate].
      apply bind_inv in Hst. destruct Hst as (w3 & H3 & Hst).
      apply bind_inv in Hst. destruct Hst as (w4 & H4 & Hst).
      apply bind_inv in Hst. destruct Hst as (w5 & H5 & Hst).
      apply isel_map in H3, H4, H5.
      destruct H3 as [L3 ->], H4 as [L4 ->], H5 as [L5 ->].
      injection Hst as Hsum.
      apply (sum3_positive (nth (i + 3) u_mean d) (nth (i + 4) u_mean d)
               (nth (i + 5) u_mean d)) in Hsum.
      apply bind_inv in H. destruct H as (pv & Hpv & H).
      apply isel_map in Hpv. destruct Hpv as [_ ->].
      injection H as <-.
      exists i. split; [lia|]. split; [lia|]. split; [reflexivity|].
      unfold isel in Hth. destruct (nth_error th i) as [w|] eqn:Et; [|discriminate].
      injection Hth as ->. rewrite (nth_error_nth th i _ Et).
      split; [exact E335|].
      split; [symmetry; exact P0|]. split; [symmetry; exact P1|].
      split; [symmetry; exact P2|]. exact Hsum.
    + apply bind_inv in H. destruct H as (v2 & Hv2 & H).
      apply isel_map in Hv2. destruct Hv2 as [_ ->].
      rewrite u_positive_not_negative in H. cbn [bind] in H. exact (Hnext H).
Qed.


Lemma gao_loop_onset_needs_three_pentads_witness :
  onset_loop th_e_year (map u_positive u_year) 0 (length u_year)
    = Return (Some 3%Z) /\
  exists k, (2 <= k < 9)%nat /\ 3%Z = fst (nth k u_year (0%Z, nan)) /\
            PrimFloat.ltb 0 (snd (nth (k + 2) u_year (0%Z, nan))) = true.
Proof.
  assert (H : onset_loop th_e_year (map u_positive u_year) 2 7
              = Return (Some 3%Z)) by reflexivity.
  split; [reflexivity|].
  destruct (gao_loop_onset_needs_three_pentads th_e_year u_year 7 2 3%Z H)
    as (k & Hk & _ & Hp & _ & _ & _ & H2 & _).
  exists k. split; [lia|]. split; [exact Hp | exact H2].
Defined.

(** X7.  With a pressure dimension and a unit other than Pa and hPa,
    [rename_coords] prints its message and returns [None]; [gao_onset] goes
    on, and the first arithmetic on [None], in [equiv_pot_t_ams], raises
    [TypeError]. *)
Theorem gao_onset_unknown_units
    (X : Xarray) (t q u t' q' u' : DataArray X)
    (areacell : option (DataArray X))
    (pdim punits pentaddim latdim londim : string) :
  let names := [(pentaddim, "pentad"); (latdim, "lat"); (londim, "lon")] in
  rename X q names = Return q' -> has_dim X q' pdim = true ->
  rename X t names = Return t' -> has_dim X t' pdim = true ->
  rename X u names = Return u' -> has_dim X u' pdim = true ->
  punits <> "Pa" -> punits <> "hPa" ->
  gao_onset X t q u areacell pdim punits pentaddim latdim londim
  = Raise TypeError.
Proof.
  intros names Hq Dq Ht Dt Hu Du Hpa Hhpa.
  assert (Hnone : forall v v', rename X v names = Return v' ->
            has_dim X v' pdim = true ->
            rename_coords X v pentaddim pdim punits latdim londim = Return None).
  { intros v v' Hr Hd. unfold rename_coords. fold names. rewrite Hr.
    cbn [bind]. rewrite Hd.
    destruct (String.eqb_spec punits "Pa") as [E|_]; [contradiction|].
    destruct (String.eqb_spec punits "hPa") as [E|_]; [contradiction|].
    reflexivity. }
  unfold gao_onset.
  rewrite (Hnone q q' Hq Dq), (Hnone t t' Ht Dt), (Hnone u u' Hu Du).
  reflexivity.
Qed.

Lemma gao_onset_unknown_units_witness :
  gao_onset xr_total year_series year_series year_series None
            "plev" "mb" "pentad" "lat" "lon"
  = Raise TypeError.
Proof.
  apply (gao_onset_unknown_units xr_total year_series year_series year_series
           year_series year_series year_series);
    try reflexivity; discriminate.
Defined.

(** X8.  [gao_onset] never returns, whatever the library calls give: when the
    renamings and [equiv_pot_t_ams] succeed, the first call of [area_mean]
    raises [NameError], because [area_mean] reads the name [u], which is
    neither one of its parameters nor a global of the module. *)
Theorem gao_onset_never_returns
    (X : Xarray) (t q u : DataArray X) (areacell : option (DataArray X))
    (pdim punits pentaddim latdim londim : string) :
  (exists e, gao_onset X t q u areacell pdim punits pentaddim latdim londim
             = Raise e) /\
  (forall var_in cells, area_mean X var_in cells = Raise (NameError "u")) /\
  (forall q' t' u' th,
      rename_coords X q pentaddim pdim punits latdim londim = Return q' ->
      rename_coords X t pentaddim pdim punits latdim londim = Return t' ->
      rename_coords X u pentaddim pdim punits latdim londim = Return u' ->
      equiv_pot_t_ams X t' q' = Return th ->
      gao_onset X t q u areacell pdim punits pentaddim latdim londim
      = Raise (NameError "u")).
Proof.
  destruct (gao_onset_raises X t q u areacell pdim punits pentaddim latdim londim)
    as [H1 H2].
  split; [exact H1|]. split; [|exact H2].
  intros var_in cells. apply area_mean_NameError.
Qed.

Lemma gao_onset_never_returns_witness :
  gao_onset xr_total year_series year_series year_series None
            "plev" "Pa" "pentad" "lat" "lon"
  = Raise (NameError "u").
Proof.
  destruct (gao_onset_never_returns xr_total year_series year_series year_series
              None "plev" "Pa" "pentad" "lat" "lon") as (_ & _ & H).
  apply (H (Some year_series) (Some year_series) (Some year_series)
           (year_series, year_series)); reflexivity.
Defined.

End GaoMore.

(** ** The regional reducer *)

Section ReducerMore.

Import Reducer.
Open Scope string_scope.
Open Scope Q_scope.


















End ReducerMore.

(** ** Condition A of the Li-Zhang withdrawal, and the wind angle *)

Section LiZhangMore.

Import LiZhang.

Lemma window_back_ok_sustained (cond : list bool) (p i : nat) :
  window_back_ok cond p i = true <-> sustained_until cond p i.
Proof.
  unfold window_back_ok, window_sum_back, sustained_until.
  rewrite Nat.eqb_eq.
  set (w := map (fun d => nth (i - d) cond false) (seq 0 p)).
  assert (Hl : length w = p) by (unfold w; rewrite length_map, length_seq; reflexivity).
  destruct (filter_id_length w) as [_ Hiff]. rewrite Hl in Hiff. rewrite Hiff.
  split.
  - intros H d Hd. apply H. unfold w.
    apply in_map_iff. exists d. split; [reflexivity|]. apply in_seq. lia.
  - intros H b Hb. unfold w in Hb. apply in_map_iff in Hb.
    destruct Hb as (d & <- & Hd). apply in_seq in Hd. apply H. lia.
Qed.

Lemma fill_back_nth (cond : list bool) (p : nat) (steps : list nat)
    (a : list num) (k : nat) :
  (forall i, In i steps -> (i < length a)%nat) ->
  length (fill_back cond p steps a) = length a /\
  nth k (fill_back cond p steps a) NaN
  = if existsb (Nat.eqb k) steps then xr_where (window_back_ok cond p k) k
    else nth k a NaN.
Proof.
  revert a. induction steps as [|i rest IH]; intros a Hin; cbn [fill_back existsb].
  - auto.
  - assert (Hi : (i < length a)%nat) by (apply Hin; left; reflexivity).
    set (v := xr_where (Nat.eqb (window_sum_back cond i p) p) i).
    assert (Hls : length (set_time a i v) = length a)
      by (apply length_update; exact Hi).
    destruct (IH (set_time a i v)) as [Hl Hn].
    { intros j Hj. rewrite Hls. apply Hin. right. exact Hj. }
    split; [congruence|]. rewrite Hn.
    destruct (existsb (Nat.eqb k) rest); [rewrite orb_true_r; reflexivity|].
    rewrite orb_false_r. unfold set_time. rewrite nth_update by exact Hi.
    destruct (Nat.eqb_spec k i) as [->|_]; reflexivity.
Qed.

Lemma existsb_rev (k : nat) (l : list nat) :
  existsb (Nat.eqb k) (rev l) = existsb (Nat.eqb k) l.
Proof.
  apply eq_true_iff_eq. rewrite !existsb_exists. split;
    intros (y & Hy & E); exists y; split; auto;
    [apply in_rev; exact Hy | apply in_rev in Hy; exact Hy].
Qed.

Lemma candidates_back_eq (cond : list bool) (p : nat) :
  let nt := length cond in
  isel_range (fill_back cond p (rev (seq p (nt - p))) (repeat (Num 0) nt)) p nt
  = map (fun i => xr_where (window_back_ok cond p i) i) (seq p (nt - p)).
Proof.
  intros nt. unfold isel_range.
  set (a := fill_back cond p (rev (seq p (nt - p))) (repeat (Num 0) nt)).
  assert (Hin : forall i, In i (rev (seq p (nt - p))) ->
                          (i < length (repeat (Num 0) nt))%nat).
  { intros i Hi. apply in_rev in Hi. apply in_seq in Hi.
    rewrite repeat_length. lia. }
  assert (Hl : length a = nt).
  { unfold a.
    destruct (fill_back_nth cond p (rev (seq p (nt - p))) (repeat (Num 0) nt) 0 Hin)
      as [Hl _]. rewrite Hl. apply repeat_length. }
  apply nth_ext with (d := NaN) (d' := NaN).
  - rewrite length_firstn, length_skipn, length_map, length_seq. lia.
  - intros k Hk. rewrite length_firstn, length_skipn in Hk.
    rewrite nth_firstn. destruct (Nat.ltb_spec k (nt - p)) as [Hk'|Hk']; [|lia].
    rewrite nth_skipn.
    destruct (fill_back_nth cond p (rev (seq p (nt - p))) (repeat (Num 0) nt)
                (p + k) Hin) as [_ Hn]. fold a in Hn. rewrite Hn.
    rewrite existsb_rev, existsb_seq.
    destruct (Nat.leb_spec p (p + k)); [|lia].
    destruct (Nat.ltb_spec (p + k) (p + (nt - p))); [|lia]. simpl andb. cbv iota.
    rewrite (nth_indep _ NaN ((fun i => xr_where (window_back_ok cond p i) i) 0%nat))
      by (rewrite length_map, length_seq; lia).
    rewrite (map_nth (fun i => xr_where (window_back_ok cond p i) i)).
    rewrite seq_nth by lia. reflexivity.
Qed.

(** The maximum over the candidates: the last one that is set. *)
Lemma fold_nan_max_last (ok : nat -> bool) (n s : nat) (acc : num) :
  (forall z, acc = Num z -> (z < Z.of_nat s)%Z) ->
  forall r, fold_left nan_max (map (fun i => xr_where (ok i) i) (seq s n)) acc = r ->
  (r = acc /\ forall j, (s <= j < s + n)%nat -> ok j = false) \/
  (exists i, r = Num (Z.of_nat i) /\ (s <= i < s + n)%nat /\ ok i = true /\
             forall j, (i < j < s + n)%nat -> ok j = false).
Proof.
  revert s acc. induction n as [|n IH]; intros s acc Hacc r Hr;
    cbn [seq map fold_left] in Hr.
  - left. split; [congruence|]. intros j Hj. lia.
  - destruct (ok s) eqn:E; cbn [xr_where] in Hr.
    + assert (Hstep : nan_max acc (Num (Z.of_nat s)) = Num (Z.of_nat s)).
      { destruct acc as [|z]; cbn [nan_max]; [reflexivity|].
        specialize (Hacc z eq_refl). f_equal. lia. }
      rewrite Hstep in Hr.
      destruct (IH (S s) (Num (Z.of_nat s))) with (r := r) as [[-> Hno]|Hex];
        [intros z Hz; injection Hz as <-; lia | exact Hr | |].
      * right. exists s. split; [reflexivity|]. split; [lia|]. split; [exact E|].
        intros j Hj. apply Hno. lia.
      * right. destruct Hex as (i & -> & Hi & Hok & Hlast).
        exists i. split; [reflexivity|]. split; [lia|]. split; [exact Hok|].
        intros j Hj. apply Hlast. lia.
    + assert (Hstep : nan_max acc NaN = acc) by (destruct acc; reflexivity).
      rewrite Hstep in Hr.
      destruct (IH (S s) acc) with (r := r) as [[-> Hno]|Hex];
        [intros z Hz; specialize (Hacc z Hz); lia | exact Hr | |].
      * left. split; [reflexivity|]. intros j Hj.
        destruct (Nat.eq_dec j s) as [->|Hne]; [exact E|]. apply Hno. lia.
      * right. destruct Hex as (i & -> & Hi & Hok & Hlast).
        exists i. split; [reflexivity|]. split; [lia|]. split; [exact Hok|].
        intros j Hj. apply Hlast. lia.
Qed.

(** X13.  Lines 120-125.  On a series longer than [p] the Condition-A withdrawal
    index is the last step [i] among [p .. len-1] such that the [p] steps
    ending at [i] all satisfy the condition, NaN when there is none.  A
    spell that covers the steps [0 .. p-1] only is not seen: step [p-1] is
    no candidate. *)
Theorem cond_a_withdrawal_latest (cond : list bool) (p : nat) :
  (p < length cond)%nat ->
  exists r, cond_a_withdrawal_index cond p = Return r /\
    ((r = NaN /\
      forall j, (p <= j < length cond)%nat -> ~ sustained_until cond p j) \/
     (exists i, r = Num (Z.of_nat i) /\ (p <= i < length cond)%nat /\
                sustained_until cond p i /\
                forall j, (i < j < length cond)%nat ->
                          ~ sustained_until cond p j)).
Proof.
  intros Hlen. unfold cond_a_withdrawal_index.
  rewrite (candidates_back_eq cond p).
  destruct (length cond - p)%nat as [|m] eqn:E; [lia|].
  unfold max_time. cbn [seq map].
  change (xr_where (window_back_ok cond p p) p
          :: map (fun i => xr_where (window_back_ok cond p i) i) (seq (S p) m))
    with (map (fun i => xr_where (window_back_ok cond p i) i) (seq p (S m))).
  eexists. split; [reflexivity|].
  destruct (fold_nan_max_last (window_back_ok cond p) (S m) p NaN) with
    (r := fold_left nan_max
            (map (fun i => xr_where (window_back_ok cond p i) i) (seq p (S m))) NaN)
    as [[Hr Hno]|(i & Hr & Hi & Hok & Hlast)]; [discriminate | reflexivity | |].
  - left. split; [exact Hr|]. intros j Hj Hs.
    apply window_back_ok_sustained in Hs. rewrite Hno in Hs by lia. discriminate.
  - right. exists i. split; [exact Hr|]. split; [lia|].
    split; [apply window_back_ok_sustained; exact Hok|].
    intros j Hj Hs. apply window_back_ok_sustained in Hs.
    rewrite Hlast in Hs by lia. discriminate.
Qed.

(** X14.  On a short series the candidate range is empty and the reduction over
    it raises [ValueError]: the onset search needs more than [p+1] steps, the
    withdrawal search more than [p]. *)
Theorem cond_a_short_series (cond : list bool) (p : nat) :
  ((length cond <= p + 1)%nat -> cond_a_onset_index cond p = Raise ValueError) /\
  ((length cond <= p)%nat -> cond_a_withdrawal_index cond p = Raise ValueError).
Proof.
  split; intros Hlen.
  - unfold cond_a_onset_index, isel_range.
    replace (length cond - p - 1)%nat with 0%nat by lia. reflexivity.
  - unfold cond_a_withdrawal_index, isel_range.
    replace (length cond - p)%nat with 0%nat by lia.
    cbn [seq rev fill_back]. rewrite skipn_all2 by (rewrite repeat_length; lia).
    destruct (length cond - p)%nat; reflexivity.
Qed.


Lemma cond_a_withdrawal_latest_witness :
  cond_a_withdrawal_index cond_two_spells 2 = Return (Num 5) /\
  sustained_until cond_two_spells 2 5 /\
  ~ sustained_until cond_two_spells 2 6.
Proof.
  destruct (cond_a_withdrawal_latest cond_two_spells 2) as (r & Hr & Hc).
  - simpl. lia.
  - assert (E : r = Num 5).
    { assert (H : cond_a_withdrawal_index cond_two_spells 2 = Return (Num 5))
        by reflexivity.
      rewrite H in Hr. injection Hr as <-. reflexivity. }
    subst r. destruct Hc as [[Hn _]|(i & Hi & _ & Hs & Hlast)]; [discriminate|].
    injection Hi as Hi. assert (i = 5%nat) by lia. subst i.
    split; [exact Hr|]. split; [exact Hs|]. apply Hlast. simpl. lia.
Defined.

Lemma cond_a_short_series_witness :
  cond_a_onset_index cond_monthly 15 = Raise ValueError /\
  cond_a_withdrawal_index cond_monthly 15 = Raise ValueError.
Proof.
  destruct (cond_a_short_series cond_monthly 15) as [H1 H2].
  split; [apply H1 | apply H2]; simpl; lia.
Defined.

End LiZhangMore.

Section AngleFacts.

Import LiZhang.
Open Scope R_scope.









End AngleFacts.

(** ** South China Sea onset of Wang et al. *)

Section ScsmFacts.

Import Scsm.

Variable nansum : list float -> float.

Lemma sel_value_at (u : series) (l : Z) :
  In l (map fst u) -> sel u l = Return (value_at u l).
Proof.
  intros Hin. unfold sel, value_at.
  destruct (find (fun pv => Z.eqb (fst pv) l) u) as [pv|] eqn:E; [reflexivity|].
  exfalso. apply in_map_iff in Hin. destruct Hin as (pv & Hl & Hpv).
  pose proof (List.find_none _ _ E pv Hpv) as H. cbn beta in H.
  rewrite Hl, Z.eqb_refl in H. discriminate.
Qed.

Lemma sel_list_value_at (u : series) (labels : list Z) :
  (forall l, In l labels -> In l (map fst u)) ->
  sel_list u labels = Return (map (value_at u) labels).
Proof.
  induction labels as [|l rest IH]; intros H; [reflexivity|].
  cbn [sel_list map]. rewrite sel_value_at by (apply H; left; reflexivity).
  cbn [bind]. rewrite IH by (intros l' Hl'; apply H; right; exact Hl').
  reflexivity.
Qed.

Lemma slice_incl {A : Type} (l : list A) (i j : nat) (x : A) :
  In x (slice l i j) -> In x l.
Proof.
  unfold slice. intros H.
  rewrite <- (firstn_skipn i l). apply in_or_app. right.
  rewrite <- (firstn_skipn (j - i) (skipn i l)). apply in_or_app. left.
  exact H.
Qed.

Lemma candidate_in (u : series) (l : Z) :
  In l (candidate_pentads u) -> In l (map fst u) /\ (24 <= l)%Z.
Proof.
  unfold candidate_pentads. intros H. apply filter_In in H.
  destruct H as [H1 H2]. split; [exact H1 | apply Z.leb_le; exact H2].
Qed.

Lemma scsm_loop_spec (u : series) (steps i : nat) :
  let pentads := candidate_pentads u in
  (i + steps = length pentads)%nat ->
  exists r, scsm_loop nansum u pentads i steps = Return r /\
    match r with
    | Some P => exists k, (i <= k)%nat /\ nth_error pentads k = Some P /\
                  onset_test nansum u pentads k = true /\
                  forall j, (i <= j < k)%nat -> onset_test nansum u pentads j = false
    | None => forall j, (i <= j < length pentads)%nat ->
                        onset_test nansum u pentads j = false
    end.
Proof.
  intros pentads. revert i. induction steps as [|steps IH]; intros i Hlen.
  - exists None. split; [reflexivity|]. intros j Hj. lia.
  - cbn [scsm_loop].
    assert (Hsl : forall a b l, In l (slice pentads a b) -> In l (map fst u)).
    { intros a b l Hl. apply slice_incl in Hl. apply candidate_in in Hl. tauto. }
    rewrite (sel_list_value_at u _ (Hsl (i + 1) (i + 5))%nat). cbn [bind].
    destruct (nth_error pentads i) as [P|] eqn:EP;
      [|apply nth_error_None in EP; lia].
    unfold get. rewrite EP. cbn [bind].
    assert (HP : In P (map fst u)).
    { apply nth_error_In in EP. apply candidate_in in EP. tauto. }
    rewrite (sel_value_at u P HP). cbn [bind].
    assert (Htest : onset_test nansum u pentads i
              = (PrimFloat.ltb 0 (value_at u P) &&
                 PrimFloat.ltb 1 (nansum (map (value_at u) (slice pentads i (i + 4)))) &&
                 Nat.leb 2 (count_positive (map (value_at u) (slice pentads i (i + 4)))))).
    { unfold onset_test. rewrite (nth_error_nth pentads i 0%Z EP). reflexivity. }
    assert (Hstep : forall c : bool, c = onset_test nansum u pentads i ->
      exists r, (if c then Return (Some P)
                 else scsm_loop nansum u pentads (S i) steps) = Return r /\
        match r with
        | Some P => exists k, (i <= k)%nat /\ nth_error pentads k = Some P /\
                      onset_test nansum u pentads k = true /\
                      forall j, (i <= j < k)%nat -> onset_test nansum u pentads j = false
        | None => forall j, (i <= j < length pentads)%nat ->
                            onset_test nansum u pentads j = false
        end).
    { intros c Hc. destruct c.
      - exists (Some P). split; [reflexivity|]. exists i.
        split; [lia|]. split; [exact EP|]. split; [auto|]. intros j Hj. lia.
      - destruct (IH (S i)) as (r & Hr & Hspec); [lia|].
        exists r. split; [exact Hr|]. destruct r as [Q|].
        + destruct Hspec as (k & Hk & Hn & Ht & Hb). exists k.
          split; [lia|]. split; [exact Hn|]. split; [exact Ht|].
          intros j Hj. destruct (Nat.eq_dec j i) as [->|Hne]; [auto|].
          apply Hb. lia.
        + intros j Hj. destruct (Nat.eq_dec j i) as [->|Hne]; [auto|].
          apply Hspec. lia. }
    rewrite Htest in Hstep.
    destruct (PrimFloat.ltb 0 (value_at u P)).
    + rewrite (sel_list_value_at u _ (Hsl i (i + 4))%nat). cbn [bind].
      destruct (PrimFloat.ltb 1 (nansum (map (value_at u) (slice pentads i (i + 4))))).
      * cbn [bind].
        apply (Hstep (Nat.leb 2 (count_positive
                        (map (value_at u) (slice pentads i (i + 4)))))).
        reflexivity.
      * cbn [bind]. apply (Hstep false). reflexivity.
    + cbn [bind]. apply (Hstep false). reflexivity.
Qed.

(** The search as the first candidate that passes the test. *)
Lemma scsm_search_spec (u : series) :
  let pentads := candidate_pentads u in
  exists r, scsm_search nansum u = Return r /\
    match r with
    | Some P => exists k, nth_error pentads k = Some P /\
                  onset_test nansum u pentads k = true /\
                  forall j, (j < k)%nat -> onset_test nansum u pentads j = false
    | None => forall j, (j < length pentads)%nat ->
                        onset_test nansum u pentads j = false
    end.
Proof.
  intros pentads. unfold scsm_search. fold pentads.
  destruct (scsm_loop_spec u (length pentads) 0 eq_refl) as (r & Hr & Hs).
  exists r. split; [exact Hr|]. destruct r as [P|].
  - destruct Hs as (k & _ & Hn & Ht & Hb). exists k.
    split; [exact Hn|]. split; [exact Ht|]. intros j Hj. apply Hb. lia.
  - intros j Hj. apply Hs. split; [lia | exact Hj].
Qed.

(** X17.  The search never raises: a slice that runs past the last candidate is
    shortened, and every label it selects is a label of the series.  It
    returns the first candidate pentad (from 24 on, in the order of the
    coordinate) that passes the test of lines 73-75 - a positive mean there,
    a sum above 1 and at least two positive means over that pentad and up to
    three following candidates - and [None] when no candidate passes. *)
Theorem scsm_search_first (u : series) :
  let pentads := candidate_pentads u in
  exists r, scsm_search nansum u = Return r /\
    match r with
    | Some P => exists k, nth_error pentads k = Some P /\
                  onset_test nansum u pentads k = true /\
                  forall j, (j < k)%nat -> onset_test nansum u pentads j = false
    | None => forall j, (j < length pentads)%nat ->
                        onset_test nansum u pentads j = false
    end.
Proof.
  exact (scsm_search_spec u).
Qed.

Lemma value_at_In (u : series) (l : Z) :
  In l (map fst u) -> In (l, value_at u l) u.
Proof.
  intros Hin. unfold value_at.
  destruct (find (fun pv => Z.eqb (fst pv) l) u) as [pv|] eqn:E.
  - apply find_some in E. destruct E as [Hpv E]. apply Z.eqb_eq in E.
    destruct pv as [a b]. cbn [fst snd] in *. subst a. exact Hpv.
  - exfalso. apply in_map_iff in Hin. destruct Hin as (pv & Hl & Hpv).
    pose proof (List.find_none _ _ E pv Hpv) as H. cbn beta in H.
    rewrite Hl, Z.eqb_refl in H. discriminate.
Qed.

Lemma filter_nonempty {A : Type} (f : A -> bool) (l : list A) :
  (0 < length (filter f l))%nat -> exists d x, nth_error l d = Some x /\ f x = true.
Proof.
  induction l as [|a l IH]; cbn [filter]; [simpl; lia|].
  destruct (f a) eqn:E.
  - intros _. exists 0%nat, a. split; [reflexivity | exact E].
  - intros H. destruct (IH H) as (d & x & Hd & Hx). exists (S d), x. auto.
Qed.

(** X18.  An onset pentad is at least 24, has a positive mean, and is followed
    within three candidates by another pentad with a positive mean: two
    positive pentads out of four are enough, and the last candidate of the
    year is never the onset. *)
Theorem scsm_onset_needs_second_pentad (u : series) (P : Z) :
  let pentads := candidate_pentads u in
  scsm_search nansum u = Return (Some P) ->
  (24 <= P)%Z /\
  (exists x, In (P, x) u /\ PrimFloat.ltb 0 x = true) /\
  exists k d P' x', nth_error pentads k = Some P /\ (1 <= d <= 3)%nat /\
    nth_error pentads (k + d) = Some P' /\
    In (P', x') u /\ PrimFloat.ltb 0 x' = true.
Proof.
  intros pentads H.
  destruct (scsm_search_spec u) as (r & Hr & Hs). rewrite H in Hr.
  injection Hr as <-. destruct Hs as (k & Hn & Ht & _). fold pentads in Hn, Ht.
  assert (HP : In P (candidate_pentads u)) by (apply (nth_error_In _ _ Hn)).
  apply candidate_in in HP. destruct HP as [HPu HP24].
  unfold onset_test in Ht. rewrite (nth_error_nth pentads k 0%Z Hn) in Ht.
  apply andb_true_iff in Ht. destruct Ht as [Ht Hc].
  apply andb_true_iff in Ht. destruct Ht as [Hpos _].
  apply Nat.leb_le in Hc.
  split; [exact HP24|]. split.
  { exists (value_at u P). split; [apply value_at_In; exact HPu | exact Hpos]. }
  unfold slice in Hc. replace (k + 4 - k)%nat with 4%nat in Hc by lia.
  destruct (skipn k pentads) as [|Q rest] eqn:Esk.
  { unfold count_positive in Hc. simpl in Hc. lia. }
  assert (HQ : Q = P).
  { pose proof (nth_error_skipn k pentads 0%nat) as E. rewrite Esk in E.
    cbn [nth_error] in E. rewrite Nat.add_0_r in E. congruence. }
  subst Q. change (firstn 4 (P :: rest)) with (P :: firstn 3 rest) in Hc.
  cbn [map] in Hc. unfold count_positive in Hc.
  cbn [filter] in Hc. rewrite Hpos in Hc. cbn [length] in Hc.
  destruct (filter_nonempty (fun x => PrimFloat.ltb 0 x)
              (map (value_at u) (firstn 3 rest))) as (d & x' & Hd & Hx');
    [lia|].
  rewrite nth_error_map in Hd.
  destruct (nth_error (firstn 3 rest) d) as [P'|] eqn:Ed; [|discriminate].
  injection Hd as <-.
  assert (Hd3 : (d < 3)%nat).
  { assert (Hl : (d < length (firstn 3 rest))%nat)
      by (apply nth_error_Some; congruence).
    rewrite length_firstn in Hl. lia. }
  rewrite nth_error_firstn in Ed. destruct (Nat.ltb_spec d 3) as [_|]; [|lia].
  assert (HP' : nth_error pentads (k + S d) = Some P').
  { pose proof (nth_error_skipn k pentads (S d)) as E. rewrite Esk in E.
    cbn [nth_error] in E. congruence. }
  exists k, (S d), P', (value_at u P').
  split; [exact Hn|]. split; [lia|]. split; [exact HP'|].
  split; [|exact Hx'].
  apply value_at_In. apply nth_error_In in HP'. apply candidate_in in HP'. tauto.
Qed.

End ScsmFacts.

Section ScsmExamples.

Import Scsm.

Lemma scsm_onset_needs_second_pentad_witness :
  scsm_search nansum_left u_mean_year = Return (Some 27%Z) /\
  exists k d P' x', nth_error (candidate_pentads u_mean_year) k = Some 27%Z /\
    (1 <= d <= 3)%nat /\
    nth_error (candidate_pentads u_mean_year) (k + d) = Some P' /\
    In (P', x') u_mean_year /\ PrimFloat.ltb 0 x' = true.
Proof.
  assert (H : scsm_search nansum_left u_mean_year = Return (Some 27%Z))
    by reflexivity.
  split; [exact H|].
  exact (proj2 (proj2 (scsm_onset_needs_second_pentad nansum_left u_mean_year 27%Z H))).
Defined.

End ScsmExamples.

(** ** Meiyu front of Li et al. *)

Section MeiyuFacts.

Import Reducer.
Import Meiyu.
Open Scope Q_scope.

(** X19.  The thresholds of [li_meiyu] need two longitudes and two latitudes
    ([IndexError] otherwise) and follow the signed difference of the first
    two latitudes.  With a difference of at most 0.5 - in particular for
    latitudes that run from north to south, whatever their spacing - they
    are those of the original study, 0.04 and 1.  With a larger difference
    the gradient threshold is 0.04 divided by it, which is below 0.04 only
    for a spacing above one degree. *)
Theorem li_meiyu_threshold_cases (t : Grid) :
  ((length (lon t) < 2)%nat \/ (length (lat t) < 2)%nat ->
   li_meiyu_thresholds t = Raise IndexError) /\
  (forall (lat0 lat1 lon0 lon1 : Q) (lats lons : list Q),
     lat t = lat0 :: lat1 :: lats -> lon t = lon0 :: lon1 :: lons ->
     exists th, li_meiyu_thresholds t = Return th /\
       (lat1 - lat0 <= 1 # 2 ->
          dthdy_threshold th == 4 # 100 /\ continuity_threshold th == 1) /\
       (1 # 2 < lat1 - lat0 ->
          dthdy_threshold th == (4 # 100) / (lat1 - lat0) /\
          continuity_threshold th == lat1 - lat0 /\
          (dthdy_threshold th < 4 # 100 <-> 1 < lat1 - lat0))).
Proof.
  split.
  - unfold li_meiyu_thresholds. intros [H|H].
    + destruct (lon t) as [|a [|b l]];
        [reflexivity | reflexivity | simpl in H; lia].
    + destruct (lon t) as [|a [|b l]]; [reflexivity | reflexivity |].
      cbn [coord_at nth_error bind].
      destruct (lat t) as [|c [|d l']];
        [reflexivity | reflexivity | simpl in H; lia].
  - intros lat0 lat1 lon0 lon1 lats lons Hlat Hlon.
    unfold li_meiyu_thresholds. rewrite Hlat, Hlon.
    cbn [coord_at nth_error bind].
    destruct (Qltb (1 # 2) (lat1 - lat0)) eqn:E.
    + eexists. split; [reflexivity|].
      cbn [dthdy_threshold continuity_threshold].
      apply Qltb_lt in E. split; [intros H; lra|].
      intros _. split; [reflexivity|]. split; [reflexivity|].
      set (d := lat1 - lat0) in *.
      assert (Hd : 0 < d) by lra.
      split; intros H.
      * destruct (Qlt_le_dec 1 d) as [H1|H1]; [exact H1|]. exfalso.
        assert (H2 : 4 # 100 <= (4 # 100) / d)
          by (apply Qle_shift_div_l; [exact Hd | lra]).
        lra.
      * apply Qlt_shift_div_r; [exact Hd | lra].
    + eexists. split; [reflexivity|].
      cbn [dthdy_threshold continuity_threshold].
      apply Qltb_ge in E. split; [intros _; split; reflexivity|].
      intros H. lra.
Qed.

Lemma li_meiyu_threshold_cases_witness :
  li_meiyu_thresholds grid_one_lat = Raise IndexError /\
  (exists th, li_meiyu_thresholds grid_north_south = Return th /\
              dthdy_threshold th == 4 # 100 /\ continuity_threshold th == 1) /\
  (exists th, li_meiyu_thresholds grid_south_north = Return th /\
              dthdy_threshold th == (4 # 100) / (38 - 37) /\
              continuity_threshold th == 38 - 37).
Proof.
  split; [|split].
  - apply (proj1 (li_meiyu_threshold_cases grid_one_lat)).
    right. simpl. lia.
  - destruct (proj2 (li_meiyu_threshold_cases grid_north_south)
                40 39 105 106 [38; 37] [107] eq_refl eq_refl)
      as (th & Hth & Hlow & _).
    exists th. split; [exact Hth|]. apply Hlow. unfold Qle. simpl. lia.
  - destruct (proj2 (li_meiyu_threshold_cases grid_south_north)
                37 38 105 106 [39; 40] [107] eq_refl eq_refl)
      as (th & Hth & _ & Hhigh).
    exists th. split; [exact Hth|].
    destruct Hhigh as (H1 & H2 & _); [reflexivity|]. split; assumption.
Defined.

End MeiyuFacts.

(** ** The harmonic smoother *)

Section SmootherMore.

Import Smoother.
Open Scope R_scope.

(** The inverse transform undoes the transform. *)
Lemma idft_dft (L : nat) (a : nat -> C) (t : nat) :
  (t < L)%nat -> idft L (dft L a) t = a t.
Proof.
  intros Ht. assert (HL : (0 < L)%nat) by lia.
  unfold idft, dft.
  rewrite (Csum_ext _
    (fun k => Csum (fun s => Cmul (a s) (root L (((L - s) + t) * k))) L)).
  2:{ intros k _. rewrite <- Csum_mul_r. apply Csum_ext. intros s Hs.
      rewrite <- Cmul_assoc. f_equal.
      rewrite (Nat.mul_comm k s), root_conj by lia.
      rewrite <- root_add. f_equal. lia. }
  rewrite Csum_swap.
  rewrite (Csum_ext _
    (fun s => Cmul (a s) (if Nat.eqb (((L - s) + t) mod L) 0
                          then RtoC (INR L) else C0))).
  2:{ intros s _. rewrite Csum_mul_l, root_sum by exact HL. reflexivity. }
  rewrite (Csum_single _ L t Ht).
  - replace (L - t + t)%nat with (1 * L)%nat by lia.
    rewrite Nat.Div0.mod_mul. cbn [Nat.eqb].
    pose proof (INR_pos_neq L HL) as Hne.
    unfold Cscale, Cmul, RtoC. apply injective_projections; cbn [fst snd]; field;
      exact Hne.
  - intros s Hs Hne.
    destruct (Nat.eqb_spec ((L - s + t) mod L) 0) as [E|_]; [|apply Cmul_0_r].
    exfalso. apply Hne.
    destruct (Nat.lt_ge_cases t s) as [Hlt|Hge].
    + rewrite Nat.mod_small in E by lia. lia.
    + replace (L - s + t)%nat with ((t - s) + 1 * L)%nat in E by lia.
      rewrite Nat.Div0.mod_add, Nat.mod_small in E by lia. lia.
Qed.

Lemma kept_short (x : list R) :
  (length x <= 24)%nat -> kept x = spectrum (centred x).
Proof.
  intros HL. apply nth_ext with (d := C0) (d' := C0).
  - rewrite length_kept, length_spectrum, length_centred. reflexivity.
  - intros k Hk. rewrite length_kept in Hk. unfold kept.
    rewrite nth_zero_slice_12 by (rewrite length_spectrum, length_centred; exact Hk).
    rewrite length_spectrum, length_centred.
    destruct (Nat.leb_spec 12 k); [|reflexivity].
    destruct (Nat.ltb_spec k (length x - 12)); [lia | reflexivity].
Qed.

Lemma idft_ext (L : nat) (A B : nat -> C) (t : nat) :
  (forall k, (k < L)%nat -> A k = B k) -> idft L A t = idft L B t.
Proof.
  intros H. unfold idft. f_equal. apply Csum_ext.
  intros k Hk. rewrite (H k Hk). reflexivity.
Qed.

Lemma idft_spectrum (y : list R) (t : nat) :
  (t < length y)%nat ->
  idft (length y) (fun k => nth k (spectrum y) C0) t = RtoC (nth t y 0).
Proof.
  intros Ht.
  rewrite (idft_ext _ _ (dft (length y) (fun s => nth s (map RtoC y) C0))).
  - rewrite idft_dft by exact Ht. apply nth_RtoC.
  - intros k Hk. unfold spectrum. rewrite nth_fft by (rewrite length_map; exact Hk).
    rewrite length_map. reflexivity.
Qed.

(** X20.  On a series of at most 24 steps the slice [12:-12] is empty, nothing is
    truncated, and the smoother returns the series unchanged (in exact
    arithmetic). *)
Theorem smoother_short_series (x : list R) :
  (length x <= 24)%nat -> smooth_data x = x.
Proof.
  intros HL. apply nth_ext with (d := 0) (d' := 0).
  - apply length_smooth_data.
  - intros t Ht. rewrite length_smooth_data in Ht.
    rewrite nth_smooth_data by exact Ht.
    rewrite (kept_short x HL).
    rewrite <- (length_centred x).
    rewrite idft_spectrum by (rewrite length_centred; exact Ht).
    rewrite nth_centred by exact Ht. unfold Cre, RtoC. cbn [fst]. ring.
Qed.

(** Hermitian symmetry of the spectrum of a real series. *)
Lemma spectrum_mirror (y : list R) (j : nat) :
  (0 < j < length y)%nat ->
  Cconj (nth (length y - j) (spectrum y) C0) = nth j (spectrum y) C0.
Proof.
  intros Hj. unfold spectrum.
  rewrite !nth_fft by (rewrite length_map; lia). rewrite length_map.
  unfold dft. rewrite <- Csum_conj. apply Csum_ext. intros t _.
  rewrite Cconj_mul, Cconj_conj, nth_RtoC, Cconj_RtoC.
  f_equal. rewrite root_conj by lia. f_equal.
Qed.

(** The spectrum of the smoothed series, harmonic by harmonic. *)
Lemma spectrum_of_smoothed (x : list R) :
  let L := length x in
  (forall j, (0 < j < L)%nat -> (j < 12 \/ L - 12 < j)%nat ->
     nth j (spectrum (smooth_data x)) C0 = nth j (spectrum x) C0) /\
  ((25 <= L)%nat ->
     nth 12 (spectrum (smooth_data x)) C0
       = Cscale (/ 2) (nth 12 (spectrum x) C0) /\
     nth (L - 12) (spectrum (smooth_data x)) C0
       = Cscale (/ 2) (nth (L - 12) (spectrum x) C0)).
Proof.
  intros L.
  assert (Hkept : forall k, (k < L)%nat ->
            nth k (kept x) C0
            = if Nat.leb 12 k && Nat.ltb k (L - 12) then C0
              else nth k (spectrum (centred x)) C0).
  { intros k Hk. unfold kept.
    rewrite nth_zero_slice_12 by (rewrite length_spectrum, length_centred; exact Hk).
    rewrite length_spectrum, length_centred. reflexivity. }
  split.
  - intros j Hj Hlow.
    rewrite spectrum_smooth_data by exact Hj. fold L.
    rewrite !Hkept by lia.
    replace (Nat.leb 12 j && Nat.ltb j (L - 12)) with false.
    2:{ symmetry. apply andb_false_iff.
        destruct Hlow as [H|H]; [left; apply Nat.leb_gt; lia
                                | right; apply Nat.ltb_ge; lia]. }
    replace (Nat.leb 12 (L - j) && Nat.ltb (L - j) (L - 12)) with false.
    2:{ symmetry. apply andb_false_iff.
        destruct Hlow as [H|H]; [right; apply Nat.ltb_ge; lia
                                | left; apply Nat.leb_gt; lia]. }
    rewrite !spectrum_centred by (fold L; lia).
    unfold L. rewrite spectrum_mirror by exact Hj.
    destruct (nth j (spectrum x) C0) as [re im].
    unfold Cscale, Cadd. cbn [fst snd]. f_equal; lra.
  - intros H25. split.
    + rewrite spectrum_smooth_data by lia. fold L.
      rewrite !Hkept by lia.
      replace (Nat.leb 12 12 && Nat.ltb 12 (L - 12)) with true.
      2:{ symmetry. apply andb_true_iff. split; [reflexivity | apply Nat.ltb_lt; lia]. }
      replace (Nat.leb 12 (L - 12) && Nat.ltb (L - 12) (L - 12)) with false.
      2:{ symmetry. apply andb_false_iff. right. apply Nat.ltb_ge. lia. }
      rewrite spectrum_centred by (fold L; lia).
      unfold L. rewrite spectrum_mirror by lia.
      destruct (nth 12 (spectrum x) C0) as [re im].
      unfold Cscale, Cadd, Cconj, C0. cbn [fst snd]. f_equal; lra.
    + rewrite spectrum_smooth_data by lia. fold L.
      replace (L - (L - 12))%nat with 12%nat by lia.
      rewrite !Hkept by lia.
      replace (Nat.leb 12 12 && Nat.ltb 12 (L - 12)) with true.
      2:{ symmetry. apply andb_true_iff. split; [reflexivity | apply Nat.ltb_lt; lia]. }
      replace (Nat.leb 12 (L - 12) && Nat.ltb (L - 12) (L - 12)) with false.
      2:{ symmetry. apply andb_false_iff. right. apply Nat.ltb_ge. lia. }
      rewrite spectrum_centred by (fold L; lia).
      destruct (nth (L - 12) (spectrum x) C0) as [re im].
      unfold Cscale, Cadd, Cconj, C0. cbn [fst snd]. f_equal; lra.
Qed.

(** X21.  What the smoother does to the spectrum of a real series of length L:
    the coefficients of the harmonics 1 to 11 (indices below 12 and above
    L-12) are unchanged, and from 25 steps on the two coefficients of
    harmonic 12 (indices 12 and L-12) are halved: the slice removes index 12
    and keeps index L-12, and the real part shares what is kept between the
    two.  The smoother is therefore no projection: a second pass halves
    harmonic 12 again. *)
Theorem smoother_harmonics (x : list R) :
  let L := length x in
  (forall j, (0 < j < L)%nat -> (j < 12 \/ L - 12 < j)%nat ->
     nth j (spectrum (smooth_data x)) C0 = nth j (spectrum x) C0) /\
  ((25 <= L)%nat ->
     nth 12 (spectrum (smooth_data x)) C0
       = Cscale (/ 2) (nth 12 (spectrum x) C0) /\
     nth (L - 12) (spectrum (smooth_data x)) C0
       = Cscale (/ 2) (nth (L - 12) (spectrum x) C0) /\
     nth 12 (spectrum (smooth_data (smooth_data x))) C0
       = Cscale (/ 4) (nth 12 (spectrum x) C0)).
Proof.
  intros L. destruct (spectrum_of_smoothed x) as [Hlow Hhalf]. fold L in Hlow, Hhalf.
  split; [exact Hlow|]. intros H25.
  destruct (Hhalf H25) as [H12 HL12]. split; [exact H12|]. split; [exact HL12|].
  destruct (spectrum_of_smoothed (smooth_data x)) as [_ Hagain].
  rewrite length_smooth_data in Hagain. fold L in Hagain.
  destruct (Hagain H25) as [H12' _]. rewrite H12', H12.
  destruct (nth 12 (spectrum x) C0) as [re im].
  unfold Cscale. cbn [fst snd]. f_equal; lra.
Qed.

Lemma Rsum_scale (a : R) (f : nat -> R) (n : nat) :
  Rsum (fun t => a * f t) n = a * Rsum f n.
Proof.
  induction n as [|n IH]; simpl; [ring|]. rewrite IH. ring.
Qed.

Lemma nth_map_R (f : R -> R) (x : list R) (t : nat) :
  (t < length x)%nat -> nth t (map f x) 0 = f (nth t x 0).
Proof.
  intros Ht. rewrite (nth_indep _ 0 (f 0)) by (rewrite length_map; exact Ht).
  apply map_nth.
Qed.

Lemma mean_affine (a c : R) (x : list R) :
  (0 < length x)%nat ->
  mean (map (fun v => a * v + c) x) = a * mean x + c.
Proof.
  intros HL. unfold mean. rewrite length_map.
  rewrite (Rsum_ext _ (fun t => a * nth t x 0 + c))
    by (intros t Ht; apply nth_map_R; exact Ht).
  rewrite Rsum_add, Rsum_const, Rsum_scale.
  field. apply INR_pos_neq. exact HL.
Qed.

Lemma kept_affine (a c : R) (x : list R) (k : nat) :
  (k < length x)%nat ->
  nth k (kept (map (fun v => a * v + c) x)) C0 = Cscale a (nth k (kept x) C0).
Proof.
  intros Hk. assert (HL : (0 < length x)%nat) by lia.
  unfold kept.
  rewrite !nth_zero_slice_12
    by (rewrite length_spectrum, length_centred, ?length_map; exact Hk).
  rewrite !length_spectrum, !length_centred, length_map.
  destruct (Nat.leb 12 k && Nat.ltb k (length x - 12)); [csolve|].
  unfold spectrum.
  rewrite !nth_fft by (rewrite length_map, length_centred, ?length_map; exact Hk).
  rewrite !length_map, !length_centred, length_map.
  unfold dft. rewrite <- Csum_scale. apply Csum_ext. intros t Ht.
  rewrite !nth_RtoC, !nth_centred by (rewrite ?length_map; exact Ht).
  rewrite nth_map_R by exact Ht. rewrite mean_affine by exact HL.
  csolve.
Qed.

(** X22.  The smoother commutes with a change of unit or offset: smoothing
    [a x + c] gives [a] times the smoothed series plus [c]. *)
Theorem smoother_affine (a c : R) (x : list R) :
  smooth_data (map (fun v => a * v + c) x)
  = map (fun v => a * v + c) (smooth_data x).
Proof.
  destruct (Nat.eq_dec (length x) 0) as [E|E].
  { destruct x; [reflexivity | discriminate]. }
  assert (HL : (0 < length x)%nat) by lia.
  apply nth_ext with (d := 0) (d' := 0).
  - rewrite length_map, !length_smooth_data, length_map. reflexivity.
  - intros t Ht. rewrite length_smooth_data, length_map in Ht.
    rewrite nth_map_R by (rewrite length_smooth_data; exact Ht).
    rewrite !nth_smooth_data by (rewrite ?length_map; exact Ht).
    rewrite length_map, mean_affine by exact HL.
    rewrite (idft_ext _ _ (fun k => Cscale a (nth k (kept x) C0)))
      by (intros k Hk; apply kept_affine; exact Hk).
    unfold idft. rewrite (Csum_ext _
      (fun k => Cscale a (Cmul (nth k (kept x) C0) (root (length x) (k * t)))))
      by (intros k _; csolve).
    rewrite Csum_scale.
    destruct (Csum (fun k => Cmul (nth k (kept x) C0) (root (length x) (k * t)))
                   (length x)) as [re im].
    unfold Cscale, Cre. cbn [fst snd]. ring.
Qed.


Lemma smoother_short_series_witness :
  smooth_data [1; 3; 2; 5] = [1; 3; 2; 5].
Proof.
  apply (smoother_short_series [1; 3; 2; 5]). simpl. lia.
Defined.

Lemma smoother_harmonics_witness :
  nth 5 (spectrum (smooth_data pulse73)) C0 = nth 5 (spectrum pulse73) C0 /\
  nth 12 (spectrum (smooth_data pulse73)) C0
    = Cscale (/ 2) (nth 12 (spectrum pulse73) C0).
Proof.
  destruct (smoother_harmonics pulse73) as [Hlow Hhalf].
  split.
  - apply Hlow; change (length pulse73) with 73%nat; lia.
  - apply Hhalf. change (length pulse73) with 73%nat. lia.
Defined.

End SmootherMore.

(** ** Normalised pentad precipitation index *)

Section KitohFacts.

Import Detector.
Import Kitoh.
Open Scope string_scope.

Lemma nan_of_SF (x : float) : Prim2SF x = S754_nan -> PrimFloat.is_nan x = true.
Proof.
  intros H. unfold PrimFloat.is_nan. rewrite FloatAxioms.eqb_spec, H. reflexivity.
Qed.

Lemma sub_self (c : float) :
  Prim2SF (c - c) = S754_zero false \/ Prim2SF (c - c) = S754_nan.
Proof.
  rewrite FloatAxioms.sub_spec. unfold SF64sub.
  destruct (Prim2SF c) as [s|s| |s m e]; cbn [SFsub].
  - left. destruct s; reflexivity.
  - right. destruct s; reflexivity.
  - right. reflexivity.
  - left. rewrite Z.sub_diag. reflexivity.
Qed.

Lemma sub_nan_r (x y : float) :
  Prim2SF y = S754_nan -> Prim2SF (x - y) = S754_nan.
Proof.
  intros H. rewrite FloatAxioms.sub_spec, H. unfold SF64sub.
  destruct (Prim2SF x) as [s|s| |s m e]; reflexivity.
Qed.

Lemma div_zero_or_nan (x y : float) :
  (Prim2SF x = S754_zero false \/ Prim2SF x = S754_nan) ->
  (Prim2SF y = S754_zero false \/ Prim2SF y = S754_nan) ->
  PrimFloat.is_nan (x / y) = true.
Proof.
  intros Hx Hy. apply nan_of_SF. rewrite FloatAxioms.div_spec. unfold SF64div.
  destruct Hx as [-> | ->], Hy as [-> | ->]; reflexivity.
Qed.

Lemma fold_op_const (op : float -> float -> float) (c : float) (l : list float) :
  op c c = c -> (forall s, In s l -> s = c) -> fold_left op l c = c.
Proof.
  intros Hop. induction l as [|s l IH]; intros H; [reflexivity|].
  cbn [fold_left]. rewrite (H s (or_introl eq_refl)), Hop.
  apply IH. intros s' Hs'. apply H. right. exact Hs'.
Qed.

Lemma nan_reduce_const (op : float -> float -> float) (c : float) (l : list float) :
  op c c = c -> l <> [] -> (forall s, In s l -> s = c) ->
  (PrimFloat.is_nan c = false /\ nan_reduce op l = c) \/
  (PrimFloat.is_nan c = true /\ nan_reduce op l = nan).
Proof.
  intros Hop Hne H. unfold nan_reduce.
  destruct (PrimFloat.is_nan c) eqn:E.
  - right. split; [reflexivity|].
    replace (filter (fun s => negb (PrimFloat.is_nan s)) l) with (@nil float);
      [reflexivity|].
    symmetry. clear Hne. induction l as [|s l IH]; [reflexivity|].
    cbn [filter]. rewrite (H s (or_introl eq_refl)), E. cbn [negb].
    apply IH. intros s' Hs'. apply H. right. exact Hs'.
  - left. split; [reflexivity|].
    assert (Hf : filter (fun s => negb (PrimFloat.is_nan s)) l = l).
    { clear Hne. induction l as [|s l IH]; [reflexivity|].
      cbn [filter]. rewrite (H s (or_introl eq_refl)), E. cbn [negb].
      rewrite <- (H s (or_introl eq_refl)). f_equal.
      apply IH. intros s' Hs'. apply H. right. exact Hs'. }
    rewrite Hf. destruct l as [|s l]; [congruence|].
    rewrite (H s (or_introl eq_refl)).
    apply fold_op_const; [exact Hop|]. intros s' Hs'. apply H. right. exact Hs'.
Qed.

Lemma fmin_idem (c : float) : fmin c c = c.
Proof. unfold fmin. destruct (PrimFloat.ltb c c); reflexivity. Qed.

Lemma fmax_idem (c : float) : fmax c c = c.
Proof. unfold fmax. destruct (PrimFloat.ltb c c); reflexivity. Qed.

(** The index of a constant series is NaN throughout. *)
Lemma npi_const (c : float) (l : list float) :
  l <> [] -> (forall s, In s l -> s = c) ->
  PrimFloat.is_nan ((c - nanmin l) / (nanmax l - nanmin l)) = true.
Proof.
  intros Hne H.
  destruct (nan_reduce_const fmin c l (fmin_idem c) Hne H) as [[Hc Hmin]|[Hc Hmin]];
  destruct (nan_reduce_const fmax c l (fmax_idem c) Hne H) as [[Hc' Hmax]|[Hc' Hmax]];
    try congruence; unfold nanmin, nanmax; rewrite Hmin, Hmax.
  - apply div_zero_or_nan; apply sub_self.
  - apply div_zero_or_nan; right; apply sub_nan_r; reflexivity.
Qed.

Lemma item_map3 (f : nat -> nat -> nat -> float) (n0 n1 n2 t i j : nat) :
  (t < n0)%nat -> (i < n1)%nat -> (j < n2)%nat ->
  item (map (fun t => map (fun i => map (fun j => f t i j) (seq 0 n2))
                          (seq 0 n1)) (seq 0 n0)) t i j
  = f t i j.
Proof.
  intros Ht Hi Hj. unfold item.
  rewrite (nth_map_seq _ n0 t []) by exact Ht.
  rewrite (nth_map_seq _ n1 i []) by exact Hi.
  rewrite (nth_map_seq _ n2 j nan) by exact Hj. reflexivity.
Qed.

Lemma rect_map3 (f : nat -> nat -> nat -> float) (n0 n1 n2 : nat) :
  rect (map (fun t => map (fun i => map (fun j => f t i j) (seq 0 n2))
                          (seq 0 n1)) (seq 0 n0)) n0 n1 n2.
Proof.
  split; [rewrite length_map, length_seq; reflexivity|].
  apply Forall_forall. intros sl Hsl. apply in_map_iff in Hsl.
  destruct Hsl as (t & <- & _). split; [rewrite length_map, length_seq; reflexivity|].
  apply Forall_forall. intros r Hr. apply in_map_iff in Hr.
  destruct Hr as (i & <- & _). rewrite length_map, length_seq. reflexivity.
Qed.

(** On a well-formed field whose pentads are on axis 0 the index is formed
    cell by cell from the series of the cell. *)
Lemma normalised_index_axis0 (p : DataArray) (pentaddim : string)
    (L n1 n2 : nat) :
  rect (values p) L n1 n2 -> (0 < L)%nat -> (0 < n1)%nat ->
  index_of pentaddim (dims p) = Some 0%nat ->
  exists npi, normalised_index p pentaddim = Return npi /\
    dims npi = dims p /\ rect (values npi) L n1 n2 /\
    forall i j, (i < n1)%nat -> (j < n2)%nat ->
      column (values npi) i j
      = map (fun x => ((x - nanmin (column (values p) i j))
                       / (nanmax (column (values p) i j)
                          - nanmin (column (values p) i j)))%float)
            (column (values p) i j).
Proof.
  intros Hr H0 H1 Hax. unfold normalised_index. rewrite Hax.
  rewrite (shape_rect (values p) L n1 n2 Hr H0 H1). cbn [nth].
  destruct (Nat.eqb_spec L 0) as [E|_]; [lia|].
  eexists. split; [reflexivity|]. cbn [dims values].
  split; [reflexivity|]. split; [apply rect_map3|].
  intros i j Hi Hj.
  assert (Hcol : forall t, series_along (values p) 0 t i j = column (values p) i j).
  { intros t. unfold series_along.
    rewrite (shape_rect (values p) L n1 n2 Hr H0 H1).
    symmetry. apply column_seq. apply Hr. }
  set (c0 := column (values p) i j) in *.
  set (g := fun x => ((x - nanmin c0) / (nanmax c0 - nanmin c0))%float).
  transitivity (map g (map (fun t => item (values p) t i j) (seq 0 L))).
  - rewrite (column_seq _ L) by (rewrite length_map, length_seq; reflexivity).
    rewrite map_map. apply map_ext_in. intros t Ht. apply in_seq in Ht.
    rewrite item_map3 by lia. cbv zeta. rewrite Hcol. reflexivity.
  - f_equal. symmetry. apply column_seq. apply Hr.
Qed.

(** X5.  A cell whose smoothed precipitation is the same in every pentad - a
    cell without any rain, say - has minimum equal to maximum, so that its
    index is 0/0 = NaN in every pentad.  NaN is not below 0.618: the cell is
    reported with onset 1, withdrawal at the last pentad and no peak. *)
Theorem kitoh_uchiyama_constant_cell
    (p : DataArray) (latdim londim pentaddim : string) (L n1 n2 : nat) :
  rect (values p) L n1 n2 -> (0 < L)%nat -> (0 < n1)%nat ->
  index_of pentaddim (dims p) = Some 0%nat ->
  axis_len p latdim = Return n1 -> axis_len p londim = Return n2 ->
  exists r, kitoh_uchiyama_seasons p latdim londim pentaddim = Return r /\
    forall i j c, (i < n1)%nat -> (j < n2)%nat ->
      (forall s, In s (column (values p) i j) -> s = c) ->
      get2 (onset_pentad r) i j = Num 1 /\
      get2 (withdrawal_pentad r) i j = Num (Z.of_nat L) /\
      get2 (duration r) i j = Num (Z.of_nat L - 1) /\
      get2 (peak_pentad r) i j = NaN.
Proof.
  intros Hr H0 H1 Hax Hla Hlo.
  destruct (normalised_index_axis0 p pentaddim L n1 n2 Hr H0 H1 Hax)
    as (npi & Hnpi & Hdims & Hrn & Hcol).
  assert (Hshape : shape (values npi) = shape (values p)).
  { rewrite (shape_rect _ L n1 n2 Hrn H0 H1), (shape_rect _ L n1 n2 Hr H0 H1).
    reflexivity. }
  assert (Hlen : forall name, axis_len npi name = axis_len p name).
  { intros name. unfold axis_len. rewrite Hdims, Hshape. reflexivity. }
  unfold kitoh_uchiyama_seasons. rewrite Hnpi. cbn [bind].
  unfold kitoh_uchiyama_detect.
  destruct (detect_returns npi 0.618%float latdim londim pentaddim L n1 n2 Hrn H0)
    as [r Hdet]; [rewrite Hlen; exact Hla | rewrite Hlen; exact Hlo |].
  exists r. split; [exact Hdet|].
  destruct (detect_cell npi 0.618%float latdim londim pentaddim L n1 n2 r Hrn Hdet)
    as [_ Hc].
  intros i j c Hi Hj Hconst.
  destruct (Hc i j Hi Hj) as (Ho & Hw & Hp & Hd).
  rewrite (Hcol i j Hi Hj) in Ho, Hw, Hp, Hd.
  set (col := column (values p) i j) in *.
  assert (Hcl : length col = L) by (unfold col; rewrite column_length; apply Hr).
  assert (Hne : col <> []) by (intros E; rewrite E in Hcl; simpl in Hcl; lia).
  set (npi_col := map (fun x => ((x - nanmin col) / (nanmax col - nanmin col))%float) col) in *.
  assert (Hnan : forall s, In s npi_col -> PrimFloat.is_nan s = true).
  { intros s Hs. unfold npi_col in Hs. apply in_map_iff in Hs.
    destruct Hs as (x & <- & Hx). rewrite (Hconst x Hx).
    apply npi_const; assumption. }
  assert (Hnl : length npi_col = L) by (unfold npi_col; rewrite length_map; exact Hcl).
  assert (Hnne : npi_col <> []) by (intros E; rewrite E in Hnl; simpl in Hnl; lia).
  destruct (none_masked_edges 0.618%float npi_col Hnne) as [E1 E2].
  { intros s Hs. apply ltb_nan_l. apply Hnan. exact Hs. }
  rewrite E1 in Ho, Hd. rewrite E2 in Hw, Hd. rewrite Hnl in Hw, Hd.
  cbn [edge_num num_sub] in Ho, Hw, Hd.
  split; [exact Ho|]. split; [rewrite Hw; f_equal; lia|].
  split; [rewrite Hd; f_equal; lia|].
  rewrite Hp. unfold peak_of, filled_column.
  destruct npi_col as [|s rest] eqn:En; [congruence|].
  cbn [map]. assert (Hs : PrimFloat.is_nan s = true) by (apply Hnan; left; reflexivity).
  rewrite (ltb_nan_l s _ Hs). cbn [np_argmax]. rewrite Hs. reflexivity.
Qed.


Lemma kitoh_uchiyama_constant_cell_witness :
  exists r, kitoh_uchiyama_seasons field_dry "lat" "lon" "pentad" = Return r /\
    get2 (onset_pentad r) 0 0 = Num 1 /\
    get2 (withdrawal_pentad r) 0 0 = Num 3 /\
    get2 (duration r) 0 0 = Num 2 /\
    get2 (peak_pentad r) 0 0 = NaN.
Proof.
  destruct (kitoh_uchiyama_constant_cell field_dry "lat" "lon" "pentad" 3 1 2)
    as (r & Hr & Hc).
  - split; [reflexivity | repeat constructor].
  - lia.
  - lia.
  - reflexivity.
  - reflexivity.
  - reflexivity.
  - exists r. split; [exact Hr|].
    apply (Hc 0%nat 0%nat 0%float); [lia | lia |].
    intros s Hs. cbn in Hs.
    repeat (destruct Hs as [<-|Hs]; [reflexivity|]). destruct Hs.
Defined.

End KitohFacts.
